(** * transcribe_and_translate_dual_vtt.py: a shallow embedding

    The script turns a video into subtitle tracks (WebVTT and SubRip, in the
    original language and in English) and a JSON transcript.  This file
    embeds its functions in Rocq and proves properties of them.

    Modelling conventions.
    - A Python [float] is a primitive binary64 float ([PrimFloat.float]);
      [+], [-] and [*] are the kernel's IEEE 754 operations.
    - A Python [int] is a [Z].
    - A Python [str] is a [string]; one [ascii] stands for one character
      whose code point is below 256.
    - A function that may raise returns a [result]; code that also reads or
      changes the outside world (files, external tools, standard output)
      runs in the state-and-error monad [SE] over a [world].
    - The external tools (ffmpeg, whisper, langdetect, the operating system)
      are the fields of the class [Externals]. *)

From Stdlib Require Import ZArith String Ascii List Bool Lia Floats.
From Stdlib Require Import DecimalString DecimalPos DecimalZ.
From stdpp Require Import base gmap strings.
Import ListNotations.

Local Open Scope string_scope.
Local Open Scope Z_scope.

(** ** Exceptions and results *)

(** The exceptions that the script or the library functions it calls can
    raise. *)
Inductive exn : Type :=
| LangDetectException
| CalledProcessError
| OSError
| ValueError
| OverflowError
| RuntimeError.

Inductive result (A : Type) : Type :=
| Ok (a : A)
| Raise (e : exn).
Arguments Ok {A} a.
Arguments Raise {A} e.

Definition result_bind {A B : Type} (r : result A) (k : A -> result B) : result B :=
  match r with
  | Ok a => k a
  | Raise e => Raise e
  end.

Declare Scope result_scope.
Delimit Scope result_scope with result.
Notation "x <-? r ; k" := (result_bind r (fun x => k))
  (at level 100, r at next level, right associativity) : result_scope.

(** ** Python strings *)

Definition LF : ascii := "010"%char.

(** The string made of one line feed, written ["\n"] in the source. *)
Definition NL : string := String LF "".

(** [str.isspace] on one character, for the code points below 256: the
    ASCII controls 9..13 and 28..31, the space, NEL (133) and the
    no-break space (160). *)
Definition is_space (c : ascii) : bool :=
  let n := nat_of_ascii c in
  ((9 <=? n) && (n <=? 13) || (28 <=? n) && (n <=? 31) ||
   (n =? 32) || (n =? 133) || (n =? 160))%nat.

Fixpoint lstrip (s : string) : string :=
  match s with
  | "" => ""
  | String c s' => if is_space c then lstrip s' else s
  end.

Fixpoint rstrip (s : string) : string :=
  match s with
  | "" => ""
  | String c s' =>
      match rstrip s' with
      | "" => if is_space c then "" else String c ""
      | r => String c r
      end
  end.

(** [s.strip()]: [s] without its leading and trailing whitespace. *)
Definition strip (s : string) : string := rstrip (lstrip s).

(** Truth value of a [str]: a string is true when it is not empty. *)
Definition truthy (s : string) : bool :=
  match s with
  | "" => false
  | String _ _ => true
  end.

(** Truth value of a value that is a [str] or [None]. *)
Definition truthy_opt (o : option string) : bool :=
  match o with
  | Some s => truthy s
  | None => false
  end.

(** [sep.join(l)]. *)
Fixpoint join (sep : string) (l : list string) : string :=
  match l with
  | [] => ""
  | [x] => x
  | x :: rest => x ++ sep ++ join sep rest
  end.

(** [s.startswith(p)]. *)
Definition startswith (s p : string) : bool := String.prefix p s.

(** ** Formatting integers *)

(** [str(z)], which is also what [f"{z}"] writes. *)
Definition str_int (z : Z) : string := NilZero.string_of_int (Z.to_int z).

Fixpoint zeros (n : nat) : string :=
  match n with
  | O => ""
  | S n' => String "0" (zeros n')
  end.

(** [f"{z:0Wd}"]: the decimal digits of [z], padded with zeros after the
    sign up to the width [W]; a longer number is written in full. *)
Definition format_0d (width : nat) (z : Z) : string :=
  let digits := str_int (Z.abs z) in
  let sign := if z <? 0 then "-" else "" in
  sign ++ zeros (width - String.length sign - String.length digits) ++ digits.

(** ** Python floats *)

(** [math.floor(x)]: the largest integer not above [x]; raises on
    infinities and NaN.  A finite float is [(-1)^s * m * 2^e]. *)
Definition floor (x : float) : result Z :=
  match Prim2SF x with
  | S754_zero _ => Ok 0
  | S754_finite s m e => Ok (Z.shiftl (cond_Zopp s (Z.pos m)) e)
  | S754_infinity _ => Raise OverflowError
  | S754_nan => Raise ValueError
  end.

(** [round(x)] with one argument: the nearest integer, a tie going to the
    even one; raises on infinities and NaN. *)
Definition round (x : float) : result Z :=
  match Prim2SF x with
  | S754_zero _ => Ok 0
  | S754_finite s m e =>
      let z := cond_Zopp s (Z.pos m) in
      if 0 <=? e then Ok (Z.shiftl z e)
      else
        let q := z / 2 ^ (- e) in
        let r := z mod 2 ^ (- e) in
        let half := 2 ^ (- e - 1) in
        match r ?= half with
        | Lt => Ok q
        | Gt => Ok (q + 1)
        | Eq => Ok (if Z.even q then q else q + 1)
        end
  | S754_infinity _ => Raise OverflowError
  | S754_nan => Raise ValueError
  end.

(** The conversion of an [int] operand of a float operation: the nearest
    float, [OverflowError] when the integer is too large. *)
Definition float_of_int (z : Z) : result float :=
  match binary_normalize prec emax z 0 false with
  | S754_infinity _ => Raise OverflowError
  | f => Ok (SF2Prim f)
  end.

(** ** Timestamps (source lines 53-60 and 104-111) *)

(** The body that the two formatters share; they differ in the separator
    [sep] before the milliseconds. *)

Definition timestamp (sep : string) (seconds : float) : result string :=
  (fl <-? floor seconds;
   flf <-? float_of_int fl;
   ms <-? round ((seconds - flf) * 1000)%float;
   let total_seconds := fl in
   let s := total_seconds mod 60 in
   let m := (total_seconds / 60) mod 60 in
   let h := total_seconds / 3600 in
   Ok (format_0d 2 h ++ ":" ++ format_0d 2 m ++ ":" ++ format_0d 2 s
         ++ sep ++ format_0d 3 ms))%result.

Definition seconds_to_vtt_timestamp (seconds : float) : result string :=
  timestamp "." seconds.

Definition seconds_to_srt_timestamp (seconds : float) : result string :=
  timestamp "," seconds.

(** ** Segment records *)

(** A segment as whisper returns it: a dictionary whose keys may be
    missing ([seg.get(key, default)] in the source). *)
Record raw_segment : Type := {
  raw_start : option float;
  raw_end : option float;
  raw_text : option string
}.

(** What [model.transcribe] returns. *)
Record whisper_result : Type := {
  res_segments : option (list raw_segment);
  res_text : option string;
  res_language : option string
}.

(** The enriched record [seg_dict] of source lines 235-241; [end_] is its
    key ["end"], and [translation = None] is the JSON [null]. *)
Record segment : Type := {
  start : float;
  end_ : float;
  lang : string;
  text : string;
  translation : option string
}.

(** ** The outside world *)

(** What the script prints; the wording of a line is not modelled, only
    which line it is and the values it shows. *)
Inductive message : Type :=
| MsgVideoNotFound (video : string)
| MsgLoadingModel (model : string)
| MsgExtractingAudio (audio_file : string)
| MsgTranscribingFull
| MsgInitialSegments (n : nat) (overall_lang : option string)
| MsgRefining (number : Z) (seg_start seg_end : float) (chosen_lang : string)
| MsgWhisperCall (language task : option string)
| MsgRefineExtractFailed
| MsgTranslating (number : Z)
| MsgTranslateExtractFailed
| MsgSaved (path : string)
| MsgDone.

(** The script's interactions, in the order they happen.  A JSON document
    is recorded as the list of records that is serialized. *)
Inductive event : Type :=
| EvPrint (m : message)
| EvLoadModel (name : string)
| EvFfmpeg (input output : string) (range : option (float * float))
| EvTranscribe (audio : string) (language task : option string)
| EvDetect (seg_text : string)
| EvRemove (path : string)
| EvWrite (path content : string)
| EvJsonDump (path : string) (records : list segment)
| EvCopy (src dst : string).

(** The files that exist and the interactions so far. *)
Record world : Type := {
  fs : gset string;
  log : list event
}.

(** How a run of ffmpeg ends: its exit status, and whether it left its
    output file behind. *)
Record ffmpeg_outcome : Type := {
  exit_ok : bool;
  output_written : bool
}.

(** The external collaborators.  Each is a function of the arguments of the
    call; calls for different segments have different arguments (the slice
    file names carry the segment number). *)
Class Externals : Type := {
  (** [langdetect.detect], deterministic since the seed is fixed (line 32) *)
  detect : string -> result string;
  (** [whisper.load_model]: [None] when the model loads *)
  whisper_load_model : string -> option exn;
  (** [model.transcribe(audio, language=..., task=...)] *)
  model_transcribe : string -> string -> option string -> option string -> result whisper_result;
  (** the ffmpeg process of [extract_audio] and [extract_audio_segment] *)
  ffmpeg : string -> string -> option (float * float) -> ffmpeg_outcome;
  (** whether [os.remove] of an existing file succeeds *)
  os_remove_ok : string -> bool;
  (** the directory that [tempfile.TemporaryDirectory()] creates *)
  tempdir : string;
  (** [os.path.abspath] *)
  abspath : string -> string;
  (** whether [cp src dst] leaves [dst] behind *)
  cp_writes : string -> string -> bool
}.

(** ** State and error monad *)

Definition SE (S A : Type) : Type := S -> result A * S.

Definition ret {S A : Type} (a : A) : SE S A := fun s => (Ok a, s).

Definition raise {S A : Type} (e : exn) : SE S A := fun s => (Raise e, s).

Definition bind {S A B : Type} (m : SE S A) (k : A -> SE S B) : SE S B :=
  fun s =>
    match m s with
    | (Ok a, s') => k a s'
    | (Raise e, s') => (Raise e, s')
    end.

Definition lift_result {S A : Type} (r : result A) : SE S A := fun s => (r, s).

Declare Scope se_scope.
Delimit Scope se_scope with se.
Notation "x <- m ;; k" := (bind m (fun x => k))
  (at level 100, m at next level, right associativity) : se_scope.
Notation "m ;; k" := (bind m (fun _ => k))
  (at level 100, k at level 200, right associativity) : se_scope.
Local Open Scope se_scope.

(** [try: m except E: handler], where [catches] tells which exceptions the
    clause names. *)
Definition try_except {S A : Type} (m : SE S A) (catches : exn -> bool)
    (handler : SE S A) : SE S A :=
  fun s =>
    match m s with
    | (Raise e, s') => if catches e then handler s' else (Raise e, s')
    | ok => ok
    end.

(** [try: m finally: fin]: [fin] always runs; the outcome is that of [m]
    unless [fin] itself raises. *)
Definition try_finally {S A : Type} (m : SE S A) (fin : SE S unit) : SE S A :=
  fun s =>
    let '(r, s') := m s in
    match fin s' with
    | (Ok _, s'') => (r, s'')
    | (Raise e, s'') => (Raise e, s'')
    end.

Definition when {S : Type} (b : bool) (m : SE S unit) : SE S unit :=
  if b then m else ret tt.

(** [for x in l: body]. *)
Fixpoint for_each {S A : Type} (l : list A) (body : A -> SE S unit) : SE S unit :=
  match l with
  | [] => ret tt
  | x :: l' => body x ;; for_each l' body
  end.

(** A [for] loop that rebinds a local variable [acc] in its body. *)
Fixpoint for_fold {S A B : Type} (l : list A) (acc : B) (body : B -> A -> SE S B)
    : SE S B :=
  match l with
  | [] => ret acc
  | x :: l' => acc' <- body acc x ;; for_fold l' acc' body
  end.

(** [enumerate(l, start=i)]. *)
Fixpoint enumerate {A : Type} (i : Z) (l : list A) : list (Z * A) :=
  match l with
  | [] => []
  | x :: l' => (i, x) :: enumerate (i + 1) l'
  end.

Definition is_CalledProcessError (e : exn) : bool :=
  match e with CalledProcessError => true | _ => false end.

Definition is_LangDetectException (e : exn) : bool :=
  match e with LangDetectException => true | _ => false end.

(** A bare [except:] clause. *)
Definition any_exception (e : exn) : bool := true.

(** ** Operations on the world *)

Definition M (A : Type) : Type := SE world A.

Definition emit (ev : event) : M unit :=
  fun w => (Ok tt, {| fs := fs w; log := log w ++ [ev] |}).

Definition print (m : message) : M unit := emit (EvPrint m).

Definition create_file (path : string) : M unit :=
  fun w => (Ok tt, {| fs := {[ path ]} ∪ fs w; log := log w |}).

(** [os.path.isfile] and [os.path.exists]: only regular files are
    modelled. *)
Definition os_path_exists (path : string) : M bool :=
  fun w => (Ok (bool_decide (path ∈ fs w)), w).

(** [os.path.join(dir, name)] for a directory name without a trailing
    separator and a relative [name]. *)
Definition path_join (dir name : string) : string := dir ++ "/" ++ name.

Definition is_under (dir path : string) : bool := String.prefix (dir ++ "/") path.

(** [os.remove(path)]. *)
Definition os_remove `{Externals} (path : string) : M unit :=
  emit (EvRemove path) ;;
  ex <- os_path_exists path ;;
  if ex && os_remove_ok path
  then (fun w => (Ok tt, {| fs := fs w ∖ {[ path ]}; log := log w |}))
  else raise OSError.

(** [subprocess.run(cmd, check=True, ...)] for an ffmpeg command line
    (source lines 36-41 and 45-51): a non-zero exit status raises
    [CalledProcessError].  The ffmpeg program is assumed to be installed. *)
Definition run_ffmpeg `{Externals} (input output : string)
    (range : option (float * float)) : M unit :=
  emit (EvFfmpeg input output range) ;;
  let outcome := ffmpeg input output range in
  when (output_written outcome) (create_file output) ;;
  if exit_ok outcome then ret tt else raise CalledProcessError.

(** [with open(path, "w") as f: body]: the file holds what [body] wrote,
    also when [body] raises.  Opening the file is assumed to succeed. *)
Definition with_open_w (path : string) (body : SE string unit) : M unit :=
  fun w =>
    let '(r, content) := body "" in
    (r, {| fs := {[ path ]} ∪ fs w; log := log w ++ [EvWrite path content] |}).

(** [f.write(s)]. *)
Definition f_write (s : string) : SE string unit :=
  fun content => (Ok tt, content ++ s).

(** [json.dump(records, jf, ...)] into a file opened for writing. *)
Definition json_dump (path : string) (records : list segment) : M unit :=
  fun w =>
    (Ok tt, {| fs := {[ path ]} ∪ fs w; log := log w ++ [EvJsonDump path records] |}).

(** [with tempfile.TemporaryDirectory() as td: body]: the directory and
    what is under it are removed when the block is left. *)
Definition with_temporary_directory `{Externals} {A : Type} (body : string -> M A) : M A :=
  try_finally (body tempdir)
    (fun w =>
       (Ok tt, {| fs := filter (fun p => is_under tempdir p = false) (fs w);
                  log := log w |})).

(** ** The script *)

Record Args : Type := {
  video : string;
  out_prefix : string;
  model : string;
  refine_per_segment : bool;
  no_translate : bool;
  keep_audio : bool;
  verbose : bool
}.

Section Script.
Context `{Externals}.

(** Source lines 34-41. *)
Definition extract_audio (video_path out_audio_path : string) : M unit :=
  run_ffmpeg video_path out_audio_path None.

(** Source lines 43-51. *)
Definition extract_audio_segment (input_audio out_segment : string)
    (seg_start seg_end : float) : M unit :=
  run_ffmpeg input_audio out_segment (Some (seg_start, seg_end)).

(** Source lines 62-72. *)
Definition detect_lang_of_text (seg_text : string) : M string :=
  detected <- try_except
                (emit (EvDetect seg_text) ;;
                 code <- lift_result (detect seg_text) ;;
                 ret (Some code))
                is_LangDetectException
                (ret None) ;;
  match detected with
  | None => ret ""
  | Some code =>
      if startswith code "pt" then ret "pt"
      else if startswith code "es" then ret "es"
      else ret code
  end.

(** The lines every emitter writes for a cue before its body: the
    sequence number and the two timestamps. *)
Definition write_cue_head (ts : float -> result string) (i : Z) (s : segment)
    : SE string unit :=
  f_write (str_int i ++ NL) ;;
  t_start <- lift_result (ts (start s)) ;;
  t_end <- lift_result (ts (end_ s)) ;;
  f_write (t_start ++ " --> " ++ t_end ++ NL).

(** The cue body of the original-language tracks (lines 81-86, 119-124). *)
Definition write_original_body (s : segment) : SE string unit :=
  let lang_tag := lang s in
  let seg_text := strip (text s) in
  if truthy lang_tag
  then f_write ("[" ++ lang_tag ++ "] " ++ seg_text ++ NL ++ NL)
  else f_write (seg_text ++ NL ++ NL).

(** The cue body of the translation tracks (lines 97-102, 134-139). *)
Definition write_translation_body (s : segment) : SE string unit :=
  let trans := translation s in
  if truthy_opt trans && truthy (strip (default "" trans))
  then f_write (strip (default "" trans) ++ NL ++ NL)
  else f_write (strip (text s) ++ NL ++ NL).

(** Source lines 74-86. *)
Definition write_vtt_original (segments : list segment) (path : string) : M unit :=
  with_open_w path
    (f_write ("WEBVTT" ++ NL ++ NL) ;;
     for_each (enumerate 1 segments) (fun '(i, s) =>
       write_cue_head seconds_to_vtt_timestamp i s ;;
       write_original_body s)).

(** Source lines 88-102. *)
Definition write_vtt_translation (segments : list segment) (path : string) : M unit :=
  with_open_w path
    (f_write ("WEBVTT" ++ NL ++ NL) ;;
     for_each (enumerate 1 segments) (fun '(i, s) =>
       write_cue_head seconds_to_vtt_timestamp i s ;;
       write_translation_body s)).

(** Source lines 113-124. *)
Definition write_srt_original (segments : list segment) (path : string) : M unit :=
  with_open_w path
    (for_each (enumerate 1 segments) (fun '(i, s) =>
       write_cue_head seconds_to_srt_timestamp i s ;;
       write_original_body s)).

(** Source lines 126-139. *)
Definition write_srt_translation (segments : list segment) (path : string) : M unit :=
  with_open_w path
    (for_each (enumerate 1 segments) (fun '(i, s) =>
       write_cue_head seconds_to_srt_timestamp i s ;;
       write_translation_body s)).

(** A keyword argument that is passed only when it is true (lines
    157-160). *)
Definition option_if_true (o : option string) : option string :=
  if truthy_opt o then o else None.

Definition call_transcribe (model_name audio : string) (language task : option string)
    : M whisper_result :=
  emit (EvTranscribe audio language task) ;;
  lift_result (model_transcribe model_name audio language task).

(** Source lines 141-148. *)
Definition transcribe_full_audio (model_name audio_path : string) (verbose_flag : bool)
    : M (list raw_segment * option string) :=
  when verbose_flag (print MsgTranscribingFull) ;;
  res <- call_transcribe model_name audio_path None None ;;
  let segments := default [] (res_segments res) in
  let overall_lang := res_language res in
  ret (segments, overall_lang).

(** Source lines 150-172. *)
Definition transcribe_segment_audio (model_name seg_audio_path : string)
    (language task : option string) (verbose_flag : bool) : M string :=
  when verbose_flag (print (MsgWhisperCall language task)) ;;
  res <- call_transcribe model_name seg_audio_path
           (option_if_true language) (option_if_true task) ;;
  let segs := default [] (res_segments res) in
  match segs with
  | _ :: _ => ret (strip (join " " (map (fun s => strip (default "" (raw_text s))) segs)))
  | [] => ret (strip (default "" (res_text res)))
  end.

(** The [finally] clause of lines 228-233 and 257-262. *)
Definition remove_if_exists (path : string) : M unit :=
  ex <- os_path_exists path ;;
  if ex then try_except (os_remove path) any_exception (ret tt) else ret tt.

(** [chosen_lang in ("pt", "es")]. *)
Definition in_pt_es (code : string) : bool :=
  String.eqb code "pt" || String.eqb code "es".

(** The slice file of a refinement (line 219) and of a translation (line
    247) for the segment of index [idx]. *)
Definition refine_slice (td : string) (idx : Z) : string :=
  path_join td ("segment_" ++ str_int (idx + 1) ++ ".wav").

Definition translate_slice (td : string) (idx : Z) : string :=
  path_join td ("segment_" ++ str_int (idx + 1) ++ "_t.wav").

(** Source lines 217-233: the segment refiner; returns the value of [text]
    after it. *)
Definition refine_segment (args : Args) (td audio_file : string) (idx : Z)
    (seg_start seg_end : float) (chosen_lang seg_text : string) : M string :=
  when (verbose args) (print (MsgRefining (idx + 1) seg_start seg_end chosen_lang)) ;;
  let seg_audio := refine_slice td idx in
  try_finally
    (try_except
       (extract_audio_segment audio_file seg_audio seg_start seg_end ;;
        new_text <- transcribe_segment_audio (model args) seg_audio
                      (Some chosen_lang) None (verbose args) ;;
        if truthy new_text then ret new_text else ret seg_text)
       is_CalledProcessError
       (when (verbose args) (print MsgRefineExtractFailed) ;;
        ret seg_text))
    (remove_if_exists seg_audio).

(** Source lines 245-262: the segment translator; returns the value of
    [seg_dict["translation"]] after it. *)
Definition translate_segment (args : Args) (td audio_file : string) (idx : Z)
    (seg_start seg_end : float) : M (option string) :=
  when (verbose args) (print (MsgTranslating (idx + 1))) ;;
  let seg_audio_t := translate_slice td idx in
  try_finally
    (try_except
       (extract_audio_segment audio_file seg_audio_t seg_start seg_end ;;
        trans_text <- transcribe_segment_audio (model args) seg_audio_t
                        None (Some "translate") (verbose args) ;;
        if truthy trans_text then ret (Some trans_text) else ret None)
       is_CalledProcessError
       (when (verbose args) (print MsgTranslateExtractFailed) ;;
        ret None))
    (remove_if_exists seg_audio_t).

(** The start and end of the enriched record (lines 207-208). *)
Definition segment_start (seg : raw_segment) : float :=
  default 0%float (raw_start seg).

Definition segment_end (seg : raw_segment) : float :=
  default (segment_start seg + 0.5)%float (raw_end seg).

(** Line 212: the language classifier as the loop calls it. *)
Definition classify_text (seg_text : string) : M string :=
  if truthy seg_text then detect_lang_of_text seg_text else ret "".

(** Line 213. *)
Definition choose_lang (detected : string) (overall_lang : option string) : string :=
  if truthy detected then detected
  else if truthy_opt overall_lang then default "" overall_lang else "".

(** Source lines 207-264: the body of the loop over the segments, for the
    segment [seg] of index [idx]; returns the record that is appended to
    [processed]. *)
Definition process_segment (args : Args) (td audio_file : string)
    (overall_lang : option string) (idx : Z) (seg : raw_segment) : M segment :=
  let seg_start := segment_start seg in
  let seg_end := segment_end seg in
  let seg_text := strip (default "" (raw_text seg)) in
  detected <- classify_text seg_text ;;
  let chosen_lang := choose_lang detected overall_lang in
  seg_text <- (if refine_per_segment args && in_pt_es chosen_lang
               then refine_segment args td audio_file idx seg_start seg_end
                      chosen_lang seg_text
               else ret seg_text) ;;
  trans <- (if negb (no_translate args)
            then translate_segment args td audio_file idx seg_start seg_end
            else ret None) ;;
  ret {| start := seg_start; end_ := seg_end; lang := chosen_lang;
         text := seg_text; translation := trans |}.

(** Source lines 205-264: the loop.  The progress bar of [tqdm] goes to
    the standard error stream, which is not modelled. *)
Definition process_segments (args : Args) (td audio_file : string)
    (overall_lang : option string) (base_segments : list raw_segment)
    : M (list segment) :=
  for_fold (enumerate 0 base_segments) []
    (fun processed '(idx, seg) =>
       seg_dict <- process_segment args td audio_file overall_lang idx seg ;;
       ret (processed ++ [seg_dict])%list).

(** Source lines 266-302: the emitters and the optional copy of the
    audio. *)
Definition write_outputs (args : Args) (audio_file : string)
    (processed : list segment) : M unit :=
  let original_vtt := out_prefix args ++ ".original.vtt" in
  write_vtt_original processed original_vtt ;;
  when (verbose args) (print (MsgSaved original_vtt)) ;;
  when (negb (no_translate args))
    (let en_vtt := out_prefix args ++ ".en.vtt" in
     write_vtt_translation processed en_vtt ;;
     when (verbose args) (print (MsgSaved en_vtt))) ;;
  let original_srt := out_prefix args ++ ".original.srt" in
  write_srt_original processed original_srt ;;
  when (verbose args) (print (MsgSaved original_srt)) ;;
  when (negb (no_translate args))
    (let en_srt := out_prefix args ++ ".en.srt" in
     write_srt_translation processed en_srt ;;
     when (verbose args) (print (MsgSaved en_srt))) ;;
  let json_out := out_prefix args ++ ".json" in
  json_dump json_out processed ;;
  when (verbose args) (print (MsgSaved json_out)) ;;
  when (keep_audio args)
    (let kept := abspath (out_prefix args ++ ".extracted_audio.wav") in
     emit (EvCopy audio_file kept) ;;
     when (cp_writes audio_file kept) (create_file kept) ;;
     when (verbose args) (print (MsgSaved kept))).

(** Source lines 194-302: the block under the temporary directory [td]. *)
Definition run_in (args : Args) (td : string) : M unit :=
  let audio_file := path_join td "extracted_audio.wav" in
  when (verbose args) (print (MsgExtractingAudio audio_file)) ;;
  extract_audio (video args) audio_file ;;
  full <- transcribe_full_audio (model args) audio_file (verbose args) ;;
  let base_segments := fst full in
  let overall_lang := snd full in
  when (verbose args)
    (print (MsgInitialSegments (length base_segments) overall_lang)) ;;
  processed <- process_segments args td audio_file overall_lang base_segments ;;
  write_outputs args audio_file processed.

(** Source lines 174-305, after the command line is parsed into [args]. *)
Definition main (args : Args) : M unit :=
  isfile <- os_path_exists (video args) ;;
  if negb isfile
  then print (MsgVideoNotFound (video args))
  else
    when (verbose args) (print (MsgLoadingModel (model args))) ;;
    emit (EvLoadModel (model args)) ;;
    match whisper_load_model (model args) with
    | Some e => raise e
    | None =>
        with_temporary_directory (run_in args) ;;
        when (verbose args) (print MsgDone)
    end.

End Script.

(** The exit status of the process that ran [main()] as a script: 0 when
    [main] returns, 1 when an exception reaches the top level. *)
Definition exit_status {A : Type} (r : result A) : Z :=
  match r with
  | Ok _ => 0
  | Raise _ => 1
  end.

(** ** Descriptions used in the statements *)

(** The two subtitle formats and the two tracks of the four text
    emitters. *)
Inductive subtitle_format : Type := VTT | SRT.

Inductive track : Type := Original | Translation.

(** A WebVTT file starts with the line [WEBVTT] and an empty line; a
    SubRip file has no header. *)
Definition header (fmt : subtitle_format) : string :=
  match fmt with
  | VTT => "WEBVTT" ++ NL ++ NL
  | SRT => ""
  end.

(** The separator between seconds and milliseconds. *)
Definition separator (fmt : subtitle_format) : string :=
  match fmt with
  | VTT => "."
  | SRT => ","
  end.

Definition format_timestamp (fmt : subtitle_format) : float -> result string :=
  match fmt with
  | VTT => seconds_to_vtt_timestamp
  | SRT => seconds_to_srt_timestamp
  end.

(** The text of a timestamp that was formatted without an exception. *)
Definition text_of (r : result string) : string :=
  match r with
  | Ok t => t
  | Raise _ => ""
  end.

(** Cue body of an original-language track: [[lang] text] when [lang] is
    not empty, else [text]. *)
Definition original_body (s : segment) : string :=
  if truthy (lang s)
  then "[" ++ lang s ++ "] " ++ strip (text s)
  else strip (text s).

(** Cue body of a translation track: the trimmed translation when it is
    present and not empty after trimming, else the trimmed text. *)
Definition translation_body (s : segment) : string :=
  match translation s with
  | Some t => if truthy (strip t) then strip t else strip (text s)
  | None => strip (text s)
  end.

Definition cue_body (trk : track) : segment -> string :=
  match trk with
  | Original => original_body
  | Translation => translation_body
  end.

(** One cue: the sequence number, the line of the two timestamps, and the
    body followed by an empty line. *)
Definition cue (fmt : subtitle_format) (trk : track) (numbered : Z * segment) : string :=
  let '(i, s) := numbered in
  str_int i ++ NL
  ++ text_of (format_timestamp fmt (start s)) ++ " --> "
  ++ text_of (format_timestamp fmt (end_ s)) ++ NL
  ++ cue_body trk s ++ NL ++ NL.

(** The text of a whole track. *)
Definition track_text (fmt : subtitle_format) (trk : track) (segments : list segment)
    : string :=
  header fmt ++ String.concat "" (map (cue fmt trk) (enumerate 1 segments)).

(** The two timestamps of a segment are formatted without an exception. *)
Definition times_format (fmt : subtitle_format) (s : segment) : Prop :=
  (exists a, format_timestamp fmt (start s) = Ok a) /\
  (exists b, format_timestamp fmt (end_ s) = Ok b).

(** What [with_open_w] leaves behind when the body writes [content]. *)
Definition wrote (path content : string) (w : world) : world :=
  {| fs := {[ path ]} ∪ fs w; log := log w ++ [EvWrite path content] |}.

(** A float that is a number of seconds: finite and not negative. *)
Definition is_seconds (x : float) : bool :=
  (0 <=? x)%float && (x <? infinity)%float.

Definition valid_times (s : segment) : Prop :=
  is_seconds (start s) = true /\ is_seconds (end_ s) = true.

(** The integer [t] is the floor of the finite float [x], whose value is
    [z * 2^e]. *)
Definition is_floor (x : float) (t : Z) : Prop :=
  match Prim2SF x with
  | S754_zero _ => t = 0
  | S754_finite s m e =>
      let z := cond_Zopp s (Z.pos m) in
      if 0 <=? e then t = z * 2 ^ e
      else t * 2 ^ (- e) <= z < (t + 1) * 2 ^ (- e)
  | _ => False
  end.

(** The integer [k] is at most one half away from the finite float [y],
    whose value is [z * 2^e]. *)
Definition nearest_integer (y : float) (k : Z) : Prop :=
  match Prim2SF y with
  | S754_zero _ => k = 0
  | S754_finite s m e =>
      let z := cond_Zopp s (Z.pos m) in
      if 0 <=? e then k = z * 2 ^ e
      else Z.abs (2 * (k * 2 ^ (- e) - z)) <= 2 ^ (- e)
  | _ => False
  end.

(** The fields of a timestamp, digit by digit. *)
Definition digit (d : Z) : ascii := ascii_of_nat (48 + Z.to_nat d).

Definition two_digits (v : Z) : string :=
  String (digit (v / 10)) (String (digit (v mod 10)) "").

Definition three_digits (v : Z) : string :=
  String (digit (v / 100)) (two_digits (v mod 100)).

(** The hours: two digits below 100 hours, as many as needed above. *)
Definition hours_field (h : Z) : string :=
  if h <? 10 then "0" ++ str_int h else str_int h.

(** The milliseconds: three digits, or the four of [1000]. *)
Definition millis_field (ms : Z) : string :=
  if ms <? 1000 then three_digits ms else "1000".

(** [HH:MM:SS] and the milliseconds for [total] whole seconds. *)
Definition clock (sep : string) (total ms : Z) : string :=
  hours_field (total / 3600) ++ ":" ++ two_digits ((total / 60) mod 60) ++ ":"
  ++ two_digits (total mod 60) ++ sep ++ millis_field ms.

(** ** Sample inputs *)

(** Two enriched records: a Spanish segment with a translation and a
    French one without. *)
Definition sample_segments : list segment :=
  [ {| start := 0; end_ := 2; lang := "es"; text := "Hola";
       translation := Some "Hello" |};
    {| start := 2; end_ := 4; lang := "fr"; text := "Bonjour";
       translation := None |} ].

Definition empty_world : world := {| fs := ∅; log := [] |}.

(** The raw segments of the sample run. *)
Definition sample_raw_segments : list raw_segment :=
  [ {| raw_start := Some 0%float; raw_end := Some 2%float;
       raw_text := Some " Hola " |};
    {| raw_start := Some 2%float; raw_end := None;
       raw_text := Some "Bonjour" |} ].

(** A world of tools for the sample run: the detector knows three texts
    and fails on the others, whisper answers every call, ffmpeg fails on the
    translation slice of the second segment, and files can always be
    removed. *)
#[export] Instance sample_externals : Externals := {|
  detect t :=
    if String.eqb t "Hola" then Ok "es"
    else if String.eqb t "Bonjour" then Ok "fr"
    else if String.eqb t "Bom dia" then Ok "pt-BR"
    else Raise LangDetectException;
  whisper_load_model _ := None;
  model_transcribe _ audio _ _ :=
    if String.eqb audio "/tmp/td/extracted_audio.wav"
    then Ok {| res_segments := Some sample_raw_segments; res_text := None;
               res_language := Some "es" |}
    else Ok {| res_segments := None; res_text := Some " Hello world ";
               res_language := None |};
  ffmpeg _ output _ :=
    {| exit_ok := negb (String.eqb output "/tmp/td/segment_2_t.wav");
       output_written := true |};
  os_remove_ok _ := true;
  tempdir := "/tmp/td";
  abspath p := "/cwd/" ++ p;
  cp_writes _ _ := true
|}.

(** The same tools with a detector that answers [zh-cn], one of the codes
    of langdetect, for every text. *)
Definition chinese_externals : Externals := {|
  detect _ := Ok "zh-cn";
  whisper_load_model := @whisper_load_model sample_externals;
  model_transcribe := @model_transcribe sample_externals;
  ffmpeg := @ffmpeg sample_externals;
  os_remove_ok := @os_remove_ok sample_externals;
  tempdir := @tempdir sample_externals;
  abspath := @abspath sample_externals;
  cp_writes := @cp_writes sample_externals
|}.

Definition sample_args : Args := {|
  video := "talk.mp4"; out_prefix := "out"; model := "small";
  refine_per_segment := true; no_translate := false; keep_audio := false;
  verbose := false
|}.

(** A world in which the video of [sample_args] exists. *)
Definition sample_world : world := {| fs := {[ "talk.mp4" ]}; log := [] |}.

(** What the classifier answers for the result of the detector. *)
Definition classified (detected : result string) : string :=
  match detected with
  | Ok code =>
      if startswith code "pt" then "pt"
      else if startswith code "es" then "es"
      else code
  | Raise _ => ""
  end.

(** A code of two letters. *)
Definition is_letter (c : ascii) : bool :=
  let n := nat_of_ascii c in
  ((65 <=? n) && (n <=? 90) || (97 <=? n) && (n <=? 122))%nat.

Definition two_letters (code : string) : Prop :=
  exists a b, code = String a (String b "") /\ is_letter a = true /\ is_letter b = true.

(** ** Specifications of computations in the world *)

(** [runs m phi Q E]: from every world, [m] appends to the log only events
    that satisfy [phi]; a value it returns satisfies [Q] and an exception
    it raises satisfies [E]. *)
Definition runs {A : Type} (m : M A) (phi : event -> Prop) (Q : A -> Prop)
    (E : exn -> Prop) : Prop :=
  forall w, exists evs,
    log (snd (m w)) = (log w ++ evs)%list /\ Forall phi evs /\
    match fst (m w) with
    | Ok a => Q a
    | Raise e => E e
    end.

Definition anything {A : Type} (a : A) : Prop := True.

(** A string without leading or trailing whitespace. *)
Definition trimmed (s : string) : Prop :=
  (forall c r, s = String c r -> is_space c = false) /\
  (forall r c, s = r ++ String c "" -> is_space c = false).

(** ** The events of the steps of a segment *)

(** The events of the segment refiner of the segment of index [idx]: its
    announcement, the extraction of its slice, a transcription with a
    forced language or of its slice, the removal of the slice, and the
    report of a failed extraction. *)
Definition refiner_event (td : string) (idx : Z) (ev : event) : Prop :=
  match ev with
  | EvPrint (MsgRefining _ _ _ _) => True
  | EvPrint MsgRefineExtractFailed => True
  | EvPrint (MsgWhisperCall _ None) => True
  | EvFfmpeg _ output (Some _) => output = refine_slice td idx
  | EvTranscribe _ (Some _) _ => True
  | EvTranscribe audio None None => audio = refine_slice td idx
  | EvRemove path => path = refine_slice td idx
  | _ => False
  end.

(** The events of the segment translator of the segment of index [idx]. *)
Definition translator_event (td : string) (idx : Z) (ev : event) : Prop :=
  match ev with
  | EvPrint (MsgTranslating _) => True
  | EvPrint MsgTranslateExtractFailed => True
  | EvPrint (MsgWhisperCall None (Some _)) => True
  | EvFfmpeg _ output (Some _) => output = translate_slice td idx
  | EvTranscribe audio None (Some _) => audio = translate_slice td idx
  | EvRemove path => path = translate_slice td idx
  | _ => False
  end.

(** The call of the detector. *)
Definition classifier_event (ev : event) : Prop :=
  match ev with
  | EvDetect _ => True
  | _ => False
  end.

(** The text of a raw segment as the loop takes it (line 209). *)
Definition segment_text (seg : raw_segment) : string :=
  strip (default "" (raw_text seg)).

(** The answer of the classifier for a text (line 212). *)
Definition classify `{Externals} (seg_text : string) : string :=
  if truthy seg_text then classified (detect seg_text) else "".

(** The language chosen for a raw segment (lines 212-213). *)
Definition segment_lang `{Externals} (seg : raw_segment) (overall_lang : option string)
    : string :=
  choose_lang (classify (segment_text seg)) overall_lang.

(** A translation is absent, or a non-empty string without leading or
    trailing whitespace. *)
Definition translation_ok (s : segment) : Prop :=
  match translation s with
  | None => True
  | Some t => t <> "" /\ trimmed t
  end.

(** The events that the loop body can produce for a segment whose chosen
    language is [chosen]: the detector call, the refiner when refinement is
    enabled and [chosen] is ["pt"] or ["es"], the translator when
    translation is enabled. *)
Definition segment_event (args : Args) (td : string) (idx : Z) (chosen : string)
    (ev : event) : Prop :=
  classifier_event ev \/
  (refine_per_segment args && in_pt_es chosen = true /\ refiner_event td idx ev) \/
  (no_translate args = false /\ translator_event td idx ev).

(** The enriched record of a raw segment. *)
Definition enriched `{Externals} (seg : raw_segment) (overall_lang : option string)
    (r : segment) : Prop :=
  start r = segment_start seg /\ end_ r = segment_end seg /\
  lang r = segment_lang seg overall_lang /\ translation_ok r.

(** An exception of the detector (other than its own) or of whisper. *)
Definition tool_raised `{Externals} (args : Args) (seg_text : string) (ex : exn)
    : Prop :=
  (detect seg_text = Raise ex /\ ex <> LangDetectException) \/
  (exists a l t, model_transcribe (model args) a l t = Raise ex).

(** A JSON document holds only records whose translation is well
    formed. *)
Definition json_ok (ev : event) : Prop :=
  match ev with
  | EvJsonDump _ records => Forall translation_ok records
  | _ => True
  end.

(** ** Assumptions on the tools and the outcome of a run *)

(** The detector fails only with its own exception. *)
Definition detector_contract `{Externals} : Prop :=
  forall t e, detect t = Raise e -> e = LangDetectException.

(** The model answers every call. *)
Definition whisper_answers `{Externals} (model_name : string) : Prop :=
  forall audio language task,
    exists res, model_transcribe model_name audio language task = Ok res.

(** The times of the record of a raw segment are numbers of seconds. *)
Definition raw_times_valid (seg : raw_segment) : Prop :=
  is_seconds (segment_start seg) = true /\ is_seconds (segment_end seg) = true.

(** The events [evs] contain the writing of every final file for the
    records [processed]. *)
Definition outputs_written (args : Args) (processed : list segment)
    (evs : list event) : Prop :=
  In (EvWrite (out_prefix args ++ ".original.vtt")
        (track_text VTT Original processed)) evs /\
  In (EvWrite (out_prefix args ++ ".original.srt")
        (track_text SRT Original processed)) evs /\
  (no_translate args = false ->
   In (EvWrite (out_prefix args ++ ".en.vtt")
         (track_text VTT Translation processed)) evs /\
   In (EvWrite (out_prefix args ++ ".en.srt")
         (track_text SRT Translation processed)) evs) /\
  In (EvJsonDump (out_prefix args ++ ".json") processed) evs.

(** The records of the sample run: the first text is refined, the second
    segment has neither a refinement nor a translation. *)
Definition sample_processed : list segment :=
  [ {| start := 0; end_ := 2; lang := "es"; text := "Hello world";
       translation := Some "Hello world" |};
    {| start := 2; end_ := 2.5; lang := "fr"; text := "Bonjour";
       translation := None |} ].

(** What whisper answers for the whole audio of the sample run. *)
Definition sample_result : whisper_result :=
  {| res_segments := Some sample_raw_segments; res_text := None;
     res_language := Some "es" |}.

(** A raw segment without an end that starts at [2^52] seconds. *)
Definition late_segment : raw_segment :=
  {| raw_start := Some 0x1p52%float; raw_end := None; raw_text := None |}.

(** ** Descriptions of binary64 rounding *)

(** where the remainder [rem] of a division by [2^k] lies, as the two
    bits of a shift record encode it *)
Definition loc_ok (k rem : Z) (r s : bool) : Prop :=
  match r, s with
  | false, false => rem = 0
  | false, true => 0 < 2 * rem < 2 ^ k
  | true, false => 2 * rem = 2 ^ k
  | true, true => 2 ^ k < 2 * rem
  end.

Definition shr_inv (m0 k : Z) (mrs : shr_record) : Prop :=
  0 <= shr_m mrs /\
  exists rem, m0 = shr_m mrs * 2 ^ k + rem /\ 0 <= rem < 2 ^ k /\
              loc_ok k rem (shr_r mrs) (shr_s mrs).

(** Rounding [m / 2^n] to the nearest integer, ties to even. *)
Definition rne (m n : Z) : Z :=
  let q := m / 2 ^ n in
  match 2 * (m mod 2 ^ n) ?= 2 ^ n with
  | Lt => q
  | Eq => if Z.even q then q else q + 1
  | Gt => q + 1
  end.

(** How [binary_round_aux] ends, given the rounded mantissa [m1] at the
    exponent [e1]: a carry to [2^53] is renormalized, and a result beyond
    the largest exponent is an infinity. *)
Definition finish (s : bool) (m1 e1 : Z) : spec_float :=
  match m1 with
  | Z0 => S754_zero s
  | Z.pos p =>
      if m1 =? 2 ^ 53
      then (if e1 + 1 <=? 971 then S754_finite s (2 ^ 52) (e1 + 1) else S754_infinity s)
      else (if e1 <=? 971 then S754_finite s p e1 else S754_infinity s)
  | Z.neg _ => S754_nan
  end.

(** The mantissa of [m * 2^e] on the grid of exponent [e0]: exact when the
    grid is fine enough, rounded to nearest-even otherwise. *)
Definition round_mantissa (m e e0 : Z) : Z :=
  if e0 <=? e then m * 2 ^ (e - e0) else rne m (e0 - e).

(** A float in the interval from 0 (included) to 1 (excluded). *)
Definition small_sf (f : spec_float) : Prop :=
  (exists s, f = S754_zero s) \/
  (exists m e, f = S754_finite false m e /\ e < 0 /\ Z.pos m < 2 ^ (- e)).

(** A float in the interval from 0 to 1000 (both included). *)
Definition millis_sf (f : spec_float) : Prop :=
  (exists s, f = S754_zero s) \/
  (exists m e, f = S754_finite false m e /\ e < 0 /\ Z.pos m <= 1000 * 2 ^ (- e)).

(** ** Descriptions of the answers of whisper *)

(** A string of whitespace only (the empty string included). *)
Fixpoint blank (s : string) : bool :=
  match s with
  | "" => true
  | String c s' => is_space c && blank s'
  end.

(** The text that [transcribe_segment_audio] takes from an answer of
    whisper (lines 165-172). *)
Definition answer_text (res : whisper_result) : string :=
  match default [] (res_segments res) with
  | [] => strip (default "" (res_text res))
  | segs => strip (join " " (map (fun s => strip (default "" (raw_text s))) segs))
  end.

(** An answer without text: segments whose texts are all blank, or no
    segment and a blank or missing top-level text. *)
Definition blank_answer (res : whisper_result) : bool :=
  match default [] (res_segments res) with
  | [] => blank (default "" (res_text res))
  | segs => forallb (fun s => blank (default "" (raw_text s))) segs
  end.

(** ** Descriptions of a whole run *)

(** What is printed under [--verbose]. *)
Definition printed (verbose_flag : bool) (m : message) : list event :=
  if verbose_flag then [EvPrint m] else [].

Section RunDescriptions.
Context `{Externals}.

(** The audio of the whole video, extracted under the temporary directory
    (line 195). *)
Definition extracted_audio : string := path_join tempdir "extracted_audio.wav".

(** The copy of the audio that [--keep-audio] asks for (line 299). *)
Definition kept_audio (args : Args) : string :=
  abspath (out_prefix args ++ ".extracted_audio.wav").

(** The slice files of the run. *)
Definition is_refine_slice (path : string) : Prop :=
  exists idx, 0 <= idx /\ path = refine_slice tempdir idx.

Definition is_translate_slice (path : string) : Prop :=
  exists idx, 0 <= idx /\ path = translate_slice tempdir idx.

(** The slice files that a run with the arguments [args] can use: those of
    the refiner with [--refine-per-segment], those of the translator
    without [--no-translate]. *)
Definition run_slice (args : Args) (path : string) : Prop :=
  (refine_per_segment args = true /\ is_refine_slice path) \/
  (no_translate args = false /\ is_translate_slice path).

(** The interactions that a run of [main] with the arguments [args] can
    have once the video has been found. *)
Definition run_event (args : Args) (ev : event) : Prop :=
  match ev with
  | EvPrint (MsgVideoNotFound _) => False
  | EvPrint _ => verbose args = true
  | EvLoadModel name => name = model args
  | EvFfmpeg input output None => input = video args /\ output = extracted_audio
  | EvFfmpeg input output (Some _) => input = extracted_audio /\ run_slice args output
  | EvTranscribe audio None None => audio = extracted_audio
  | EvTranscribe audio (Some l) None =>
      refine_per_segment args = true /\ in_pt_es l = true /\ is_refine_slice audio
  | EvTranscribe audio None (Some t) =>
      no_translate args = false /\ t = "translate" /\ is_translate_slice audio
  | EvTranscribe _ (Some _) (Some _) => False
  | EvDetect t => t <> "" /\ trimmed t
  | EvRemove path => run_slice args path
  | EvWrite path _ =>
      path = out_prefix args ++ ".original.vtt" \/
      path = out_prefix args ++ ".original.srt" \/
      (no_translate args = false /\
       (path = out_prefix args ++ ".en.vtt" \/ path = out_prefix args ++ ".en.srt"))
  | EvJsonDump path records =>
      path = out_prefix args ++ ".json" /\
      Forall (fun r => trimmed (text r)) records /\
      (no_translate args = true -> Forall (fun r => translation r = None) records)
  | EvCopy src dst =>
      keep_audio args = true /\ src = extracted_audio /\ dst = kept_audio args
  end.

(** The exceptions that can leave [main]: that of a model that does not
    load, the failure of the extraction of the whole audio, an exception
    of whisper, an exception of the detector other than its own, and the
    two exceptions of a timestamp. *)
Definition run_exn (args : Args) (ex : exn) : Prop :=
  whisper_load_model (model args) = Some ex \/
  (ex = CalledProcessError /\ exit_ok (ffmpeg (video args) extracted_audio None) = false) \/
  (exists a l t, model_transcribe (model args) a l t = Raise ex) \/
  (exists t, detect t = Raise ex /\ ex <> LangDetectException) \/
  ex = ValueError \/ ex = OverflowError.

(** [main] after the video has been found. *)
Definition main_found (args : Args) : M unit :=
  when (verbose args) (print (MsgLoadingModel (model args))) ;;
  emit (EvLoadModel (model args)) ;;
  match whisper_load_model (model args) with
  | Some e => raise e
  | None =>
      with_temporary_directory (run_in args) ;;
      when (verbose args) (print MsgDone)
  end.

(** The files that a run with the arguments [args] is asked to write. *)
Definition required_outputs (args : Args) : list string :=
  [ out_prefix args ++ ".original.vtt"; out_prefix args ++ ".original.srt";
    out_prefix args ++ ".json" ]
  ++ (if no_translate args then []
      else [ out_prefix args ++ ".en.vtt"; out_prefix args ++ ".en.srt" ]).

(** The files that it can leave behind: those, and the copy of the audio
    with [--keep-audio]. *)
Definition output_paths (args : Args) : list string :=
  (required_outputs args ++ (if keep_audio args then [kept_audio args] else []))%list.

(** The interactions of [write_outputs], in their order: the four tracks
    (the English ones unless [--no-translate]), the JSON document and, with
    [--keep-audio], the copy of the audio. *)
Definition outputs_log (args : Args) (audio_file : string) (processed : list segment)
    : list event :=
  let saved path := printed (verbose args) (MsgSaved path) in
  let english fmt ext :=
    if no_translate args then []
    else (EvWrite (out_prefix args ++ ext) (track_text fmt Translation processed)
          :: saved (out_prefix args ++ ext)) in
  (EvWrite (out_prefix args ++ ".original.vtt") (track_text VTT Original processed)
   :: saved (out_prefix args ++ ".original.vtt"))
  ++ english VTT ".en.vtt"
  ++ (EvWrite (out_prefix args ++ ".original.srt") (track_text SRT Original processed)
      :: saved (out_prefix args ++ ".original.srt"))
  ++ english SRT ".en.srt"
  ++ (EvJsonDump (out_prefix args ++ ".json") processed
      :: saved (out_prefix args ++ ".json"))
  ++ (if keep_audio args
      then EvCopy audio_file (kept_audio args) :: saved (kept_audio args)
      else []).

(** The interactions of a run up to the loop. *)
Definition setup_log (args : Args) : list event :=
  printed (verbose args) (MsgLoadingModel (model args))
  ++ [EvLoadModel (model args)]
  ++ printed (verbose args) (MsgExtractingAudio extracted_audio)
  ++ [EvFfmpeg (video args) extracted_audio None].

(** The worlds that have the files of [w] outside of the temporary
    directory. *)
Definition outside_files (w w' : world) : Prop :=
  forall p, p ∈ fs w' <-> p ∈ fs w /\ is_under tempdir p = false.

End RunDescriptions.

(** The interactions of the loop body for the segment [seg] of index
    [idx]: the detector on its text, and for each of the refiner and the
    translator the extraction of the times of the record from
    [audio_file] into the slice of the step, the transcription of that
    slice and its removal. *)
Definition slice_step (td audio_file : string) (idx : Z) (seg : raw_segment)
    (ev : event) : Prop :=
  match ev with
  | EvPrint _ => True
  | EvDetect t => t = segment_text seg
  | EvFfmpeg input output range =>
      input = audio_file /\ range = Some (segment_start seg, segment_end seg) /\
      (output = refine_slice td idx \/ output = translate_slice td idx)
  | EvTranscribe audio language task =>
      (audio = refine_slice td idx /\ task = None) \/
      (audio = translate_slice td idx /\ language = None /\ task = Some "translate")
  | EvRemove path => path = refine_slice td idx \/ path = translate_slice td idx
  | _ => False
  end.

(** [keeps m C R]: from every world, a file that exists after [m] existed
    before or satisfies [C], and a file that existed before still exists
    or satisfies [R]. *)
Definition keeps {A : Type} (m : M A) (C R : string -> Prop) : Prop :=
  forall w p,
    (p ∈ fs (snd (m w)) -> p ∈ fs w \/ C p) /\
    (p ∈ fs w -> p ∈ fs (snd (m w)) \/ R p).

(** [leaves m P]: when [m] returns, the files that satisfy [P] exist, and
    so does every file that existed before. *)
Definition leaves {A : Type} (m : M A) (P : string -> Prop) : Prop :=
  forall w,
    match fst (m w) with
    | Ok _ => forall p, P p \/ p ∈ fs w -> p ∈ fs (snd (m w))
    | Raise _ => True
    end.

(** [runs_then m early late]: from every world, the events that [m] appends
    to the log are events that satisfy [early] followed by events that
    satisfy [late]. *)
Definition runs_then {A : Type} (m : M A) (early late : event -> Prop) : Prop :=
  forall w, exists evs1 evs2,
    log (snd (m w)) = (log w ++ evs1 ++ evs2)%list /\
    Forall early evs1 /\ Forall late evs2.

(** The writing of an output: a track, the JSON document or the copy of
    the audio. *)
Definition is_output (ev : event) : Prop :=
  match ev with
  | EvWrite _ _ | EvJsonDump _ _ | EvCopy _ _ => True
  | _ => False
  end.

(** A call of a tool, or the removal of a file. *)
Definition is_tool_call (ev : event) : Prop :=
  match ev with
  | EvLoadModel _ | EvFfmpeg _ _ _ | EvTranscribe _ _ _ | EvDetect _ | EvRemove _ => True
  | _ => False
  end.

(** ** Descriptions of emitters that fail *)

(** The exception that the two timestamps of a cue raise, if any: that of
    the start, else that of the end. *)
Definition times_error (fmt : subtitle_format) (s : segment) : option exn :=
  match format_timestamp fmt (start s) with
  | Raise e => Some e
  | Ok _ =>
      match format_timestamp fmt (end_ s) with
      | Raise e => Some e
      | Ok _ => None
      end
  end.

(** The four text emitters. *)
Definition emitter (fmt : subtitle_format) (trk : track)
    : list segment -> string -> M unit :=
  match fmt, trk with
  | VTT, Original => write_vtt_original
  | VTT, Translation => write_vtt_translation
  | SRT, Original => write_srt_original
  | SRT, Translation => write_srt_translation
  end.

(** An outcome that is a return, or one of the two exceptions of a
    timestamp. *)
Definition raises_of_timestamp (r : result unit) : Prop :=
  match r with
  | Ok _ => True
  | Raise e => e = ValueError \/ e = OverflowError
  end.

(** A string without the character [_]. *)
Fixpoint no_underscore (s : string) : bool :=
  match s with
  | "" => true
  | String c s' => negb (Ascii.eqb c "_") && no_underscore s'
  end.

(** ** More descriptions of binary64 numbers *)

(** A float in the interval from 0 to 1 (both included). *)
Definition unit_sf (f : spec_float) : Prop :=
  (exists s, f = S754_zero s) \/
  (exists m e, f = S754_finite false m e /\ e < 0 /\ Z.pos m <= 2 ^ (- e)).

(** The same float with the sign [s]. *)
Definition with_sign (s : bool) (f : spec_float) : spec_float :=
  match f with
  | S754_zero _ => S754_zero s
  | S754_infinity _ => S754_infinity s
  | S754_nan => S754_nan
  | S754_finite _ m e => S754_finite s m e
  end.

(** ** More sample inputs *)

(** A segment whose start is not a number. *)
Definition nan_segment : segment :=
  {| start := nan; end_ := 1; lang := ""; text := "?"; translation := None |}.

(** The arguments of the sample run with [--no-translate]. *)
Definition original_only_args : Args := {|
  video := "talk.mp4"; out_prefix := "out"; model := "small";
  refine_per_segment := true; no_translate := true; keep_audio := false;
  verbose := false
|}.

(** The tools of the sample run with a model that does not load. *)
Definition no_model_externals : Externals := {|
  detect := @detect sample_externals;
  whisper_load_model _ := Some RuntimeError;
  model_transcribe := @model_transcribe sample_externals;
  ffmpeg := @ffmpeg sample_externals;
  os_remove_ok := @os_remove_ok sample_externals;
  tempdir := @tempdir sample_externals;
  abspath := @abspath sample_externals;
  cp_writes := @cp_writes sample_externals
|}.

(** The tools of the sample run with an ffmpeg that always fails. *)
Definition no_ffmpeg_externals : Externals := {|
  detect := @detect sample_externals;
  whisper_load_model := @whisper_load_model sample_externals;
  model_transcribe := @model_transcribe sample_externals;
  ffmpeg _ _ _ := {| exit_ok := false; output_written := false |};
  os_remove_ok := @os_remove_ok sample_externals;
  tempdir := @tempdir sample_externals;
  abspath := @abspath sample_externals;
  cp_writes := @cp_writes sample_externals
|}.

(** The tools of the sample run with a whisper that finds no speech. *)
Definition silent_externals : Externals := {|
  detect := @detect sample_externals;
  whisper_load_model := @whisper_load_model sample_externals;
  model_transcribe _ _ _ _ :=
    Ok {| res_segments := Some []; res_text := Some ""; res_language := None |};
  ffmpeg := @ffmpeg sample_externals;
  os_remove_ok := @os_remove_ok sample_externals;
  tempdir := @tempdir sample_externals;
  abspath := @abspath sample_externals;
  cp_writes := @cp_writes sample_externals
|}.

(** * Properties *)

#[local] Arguments String.append !_ _ / : simpl nomatch.

(** Membership in an explicit list. *)
Ltac in_list := cbn [In]; repeat first [left; reflexivity | right].

(** ** Strings *)

Lemma truthy_true (s : string) : truthy s = true <-> s <> "".
Proof. destruct s; simpl; split; congruence. Qed.

Lemma truthy_false (s : string) : truthy s = false <-> s = "".
Proof. destruct s; simpl; split; congruence. Qed.

Lemma append_nil_r (s : string) : s ++ "" = s.
Proof. induction s as [|c s IH]; simpl; [reflexivity | now rewrite IH]. Qed.

Lemma append_assoc (s t u : string) : (s ++ t) ++ u = s ++ (t ++ u).
Proof. induction s as [|c s IH]; simpl; [reflexivity | now rewrite IH]. Qed.

Lemma append_inv_head (s t u : string) : s ++ t = s ++ u -> t = u.
Proof. induction s as [|c s IH]; simpl; intros E; [exact E | injection E; auto]. Qed.

Lemma append_eq_nil (s t : string) : s ++ t = "" -> s = "" /\ t = "".
Proof. destruct s; simpl; [auto | discriminate]. Qed.

Lemma lstrip_first (s : string) (c : ascii) (r : string) :
  lstrip s = String c r -> is_space c = false.
Proof.
  induction s as [|d s IH]; simpl; [discriminate |].
  destruct (is_space d) eqn:E; [exact IH |].
  intros Heq; injection Heq as -> _; exact E.
Qed.

Lemma rstrip_first (s : string) (c : ascii) (r : string) :
  rstrip s = String c r -> exists r', s = String c r'.
Proof.
  destruct s as [|d s]; simpl; [discriminate |].
  destruct (rstrip s); [destruct (is_space d) |];
    intros Heq; inversion Heq; subst; eauto.
Qed.

Lemma rstrip_last (s r : string) (c : ascii) :
  rstrip s = r ++ String c "" -> is_space c = false.
Proof.
  revert r; induction s as [|d s IH]; intros r; simpl.
  - destruct r; discriminate.
  - destruct (rstrip s) as [|e t] eqn:E.
    + destruct (is_space d) eqn:Ed.
      * destruct r; discriminate.
      * destruct r as [|x r]; simpl; intros Heq; inversion Heq; subst; [exact Ed |].
        destruct r; discriminate.
    + destruct r as [|x r]; simpl; intros Heq; inversion Heq; subst.
      eapply IH; eassumption.
Qed.

Lemma strip_trimmed (s : string) : trimmed (strip s).
Proof.
  unfold strip; split.
  - intros c r E. destruct (rstrip_first _ _ _ E) as [r' E'].
    eapply lstrip_first; eassumption.
  - intros r c E. eapply rstrip_last; eassumption.
Qed.

Lemma strip_empty : strip "" = "".
Proof. reflexivity. Qed.

(** ** The loops of the emitters *)

Lemma enumerate_length {A : Type} (l : list A) (i : Z) :
  length (enumerate i l) = length l.
Proof. revert i; induction l as [|x l IH]; intros i; simpl; [reflexivity | now rewrite IH]. Qed.

Lemma enumerate_snd {A : Type} (l : list A) (i : Z) :
  map snd (enumerate i l) = l.
Proof. revert i; induction l as [|x l IH]; intros i; simpl; [reflexivity | now rewrite IH]. Qed.

Lemma enumerate_fst {A : Type} (l : list A) (i : Z) :
  map fst (enumerate i l) = map (fun k => i + Z.of_nat k) (seq 0 (length l)).
Proof.
  revert i; induction l as [|x l IH]; intros i; simpl; [reflexivity |].
  rewrite IH, <- seq_shift, map_map. f_equal; [lia |].
  apply map_ext; intros k; lia.
Qed.

(** The sequence numbers that [enumerate(segments, start=1)] gives are
    1, 2, ..., N. *)
Lemma enumerate_numbers {A : Type} (l : list A) :
  map fst (enumerate 1 l) = map Z.of_nat (seq 1 (length l)).
Proof.
  rewrite enumerate_fst, <- seq_shift, map_map.
  apply map_ext; intros k; lia.
Qed.

Lemma concat_app_string (l1 l2 : list string) :
  String.concat "" (l1 ++ l2) = String.concat "" l1 ++ String.concat "" l2.
Proof.
  induction l1 as [|x l1 IH]; [reflexivity |].
  destruct l1 as [|y l1].
  - simpl. destruct l2; simpl; [now rewrite append_nil_r | reflexivity].
  - change (String.concat "" ((x :: y :: l1) ++ l2))
      with (x ++ "" ++ String.concat "" ((y :: l1) ++ l2)).
    rewrite IH. simpl. now rewrite append_assoc.
Qed.

Lemma concat_cons_string (x : string) (l : list string) :
  String.concat "" (x :: l) = x ++ String.concat "" l.
Proof. apply (concat_app_string [x] l). Qed.

Lemma write_original_body_spec (s : segment) (content : string) :
  write_original_body s content = (Ok tt, content ++ cue_body Original s ++ NL ++ NL).
Proof.
  unfold write_original_body, cue_body, original_body, f_write.
  destruct (truthy (lang s)); rewrite ?append_assoc; reflexivity.
Qed.

Lemma write_translation_body_spec (s : segment) (content : string) :
  write_translation_body s content
  = (Ok tt, content ++ cue_body Translation s ++ NL ++ NL).
Proof.
  unfold write_translation_body, cue_body, translation_body, f_write.
  destruct (translation s) as [t|]; simpl; [|reflexivity].
  destruct (truthy (strip t)) eqn:E.
  - destruct t; [discriminate E | reflexivity].
  - now rewrite andb_false_r.
Qed.

Lemma write_cue_spec (fmt : subtitle_format) (trk : track)
    (body : segment -> SE string unit) (i : Z) (s : segment) (content : string) :
  (forall s' c, body s' c = (Ok tt, c ++ cue_body trk s' ++ NL ++ NL)) ->
  times_format fmt s ->
  (write_cue_head (format_timestamp fmt) i s ;; body s) content
  = (Ok tt, content ++ cue fmt trk (i, s)).
Proof.
  intros Hbody [[a Ha] [b Hb]].
  unfold write_cue_head, bind, f_write, lift_result, cue.
  rewrite Ha, Hb, Hbody. simpl text_of.
  rewrite !append_assoc. reflexivity.
Qed.

Lemma for_each_cues (fmt : subtitle_format) (trk : track)
    (body : segment -> SE string unit) (l : list (Z * segment)) (content : string) :
  (forall s' c, body s' c = (Ok tt, c ++ cue_body trk s' ++ NL ++ NL)) ->
  Forall (times_format fmt) (map snd l) ->
  for_each l (fun '(i, s) => write_cue_head (format_timestamp fmt) i s ;; body s) content
  = (Ok tt, content ++ String.concat "" (map (cue fmt trk) l)).
Proof.
  intros Hbody. revert content.
  induction l as [|[i s] l IH]; intros content Hall.
  - simpl. now rewrite append_nil_r.
  - inversion Hall as [|? ? Hs Hl]; subst.
    cbn [for_each map]. unfold bind at 1.
    rewrite (write_cue_spec fmt trk body i s content Hbody Hs).
    rewrite (IH _ Hl), concat_cons_string, append_assoc. reflexivity.
Qed.

Lemma write_vtt_original_spec (segments : list segment) (path : string) (w : world) :
  Forall (times_format VTT) segments ->
  write_vtt_original segments path w
  = (Ok tt, wrote path (track_text VTT Original segments) w).
Proof.
  intros Hall. unfold write_vtt_original, with_open_w, track_text, wrote.
  unfold bind at 1. unfold f_write at 1. cbn [String.append header].
  rewrite (for_each_cues VTT Original write_original_body).
  - reflexivity.
  - apply write_original_body_spec.
  - now rewrite enumerate_snd.
Qed.

Lemma write_vtt_translation_spec (segments : list segment) (path : string) (w : world) :
  Forall (times_format VTT) segments ->
  write_vtt_translation segments path w
  = (Ok tt, wrote path (track_text VTT Translation segments) w).
Proof.
  intros Hall. unfold write_vtt_translation, with_open_w, track_text, wrote.
  unfold bind at 1. unfold f_write at 1. cbn [String.append header].
  rewrite (for_each_cues VTT Translation write_translation_body).
  - reflexivity.
  - apply write_translation_body_spec.
  - now rewrite enumerate_snd.
Qed.

Lemma write_srt_original_spec (segments : list segment) (path : string) (w : world) :
  Forall (times_format SRT) segments ->
  write_srt_original segments path w
  = (Ok tt, wrote path (track_text SRT Original segments) w).
Proof.
  intros Hall. unfold write_srt_original, with_open_w, track_text, wrote.
  rewrite (for_each_cues SRT Original write_original_body).
  - reflexivity.
  - apply write_original_body_spec.
  - now rewrite enumerate_snd.
Qed.

Lemma write_srt_translation_spec (segments : list segment) (path : string) (w : world) :
  Forall (times_format SRT) segments ->
  write_srt_translation segments path w
  = (Ok tt, wrote path (track_text SRT Translation segments) w).
Proof.
  intros Hall. unfold write_srt_translation, with_open_w, track_text, wrote.
  rewrite (for_each_cues SRT Translation write_translation_body).
  - reflexivity.
  - apply write_translation_body_spec.
  - now rewrite enumerate_snd.
Qed.


(** ** Binary64 arithmetic *)

Lemma digits2_pos_log2 (m : positive) :
  Z.pos (digits2_pos m) = Z.log2 (Z.pos m) + 1.
Proof.
  induction m as [m IH|m IH|].
  - cbn [digits2_pos]. rewrite Pos2Z.inj_succ, IH.
    change (Z.pos m~1) with (2 * Z.pos m + 1).
    rewrite Z.log2_succ_double by lia. lia.
  - cbn [digits2_pos]. rewrite Pos2Z.inj_succ, IH.
    change (Z.pos m~0) with (2 * Z.pos m).
    rewrite Z.log2_double by lia. lia.
  - reflexivity.
Qed.

Lemma digits2_pos_bounds (m : positive) :
  2 ^ (Z.pos (digits2_pos m) - 1) <= Z.pos m < 2 ^ Z.pos (digits2_pos m).
Proof.
  rewrite digits2_pos_log2.
  replace (Z.log2 (Z.pos m) + 1 - 1) with (Z.log2 (Z.pos m)) by lia.
  replace (Z.log2 (Z.pos m) + 1) with (Z.succ (Z.log2 (Z.pos m))) by lia.
  apply Z.log2_spec. lia.
Qed.

Lemma digits2_pos_unique (m : positive) (d : Z) :
  2 ^ (d - 1) <= Z.pos m < 2 ^ d -> Z.pos (digits2_pos m) = d.
Proof.
  intros Hb. rewrite digits2_pos_log2.
  assert (0 < d).
  { destruct (Z.le_gt_cases d 0) as [Hd|Hd]; [|exact Hd].
    assert (2 ^ d <= 2 ^ 0) by (apply Z.pow_le_mono_r; lia).
    change (2 ^ 0) with 1 in *. lia. }
  assert (Z.log2 (Z.pos m) = d - 1); [|lia].
  apply Z.log2_unique; [lia|].
  replace (Z.succ (d - 1)) with d by lia. exact Hb.
Qed.

(** shr_1 on a non-negative mantissa *)
Lemma shr_1_nonneg (m : Z) (r s : bool) :
  0 <= m ->
  shr_1 {| shr_m := m; shr_r := r; shr_s := s |}
  = {| shr_m := m / 2; shr_r := Z.odd m; shr_s := r || s |}.
Proof.
  intros Hm. destruct m as [|[p|p|]|p]; try lia; cbn [shr_1].
  - reflexivity.
  - f_equal. change (Z.pos p~1) with (2 * Z.pos p + 1).
    apply Z.div_unique with 1; lia.
  - f_equal. change (Z.pos p~0) with (2 * Z.pos p).
    apply Z.div_unique with 0; lia.
  - reflexivity.
Qed.

Lemma shr_inv_init (m0 : Z) :
  0 <= m0 -> shr_inv m0 0 {| shr_m := m0; shr_r := false; shr_s := false |}.
Proof.
  intros Hm. split; [exact Hm|]. exists 0. cbn. repeat split; lia.
Qed.

Lemma shr_inv_step (m0 k : Z) (mrs : shr_record) :
  0 <= k -> shr_inv m0 k mrs -> shr_inv m0 (k + 1) (shr_1 mrs).
Proof.
  intros Hk [Hm [rem [Hm0 [Hrem Hloc]]]].
  destruct mrs as [m r s]. cbn [shr_m shr_r shr_s] in *.
  rewrite shr_1_nonneg by exact Hm. cbn [shr_m shr_r shr_s].
  assert (Hp : 2 ^ (k + 1) = 2 * 2 ^ k) by (rewrite Z.pow_add_r by lia; lia).
  assert (Hpk : 0 < 2 ^ k) by (apply Z.pow_pos_nonneg; lia).
  pose proof (Z.div_mod m 2 ltac:(lia)) as Hdm.
  pose proof (Z.mod_pos_bound m 2 ltac:(lia)) as Hmb.
  split; [apply Z.div_pos; lia|].
  exists (rem + (m mod 2) * 2 ^ k).
  cbn [shr_m shr_r shr_s]. rewrite Zodd_mod. unfold loc_ok in *. rewrite !Hp.
  remember (2 ^ k) as P eqn:EP. remember (m / 2) as q eqn:Eq.
  remember (m mod 2) as b eqn:Eb. clear EP Eq Eb Hp.
  assert (Hcase : b = 0 \/ b = 1) by lia.
  rewrite Hdm in Hm0.
  destruct Hcase as [E|E]; subst b; cbn [Z.eqb Pos.eqb];
    (split; [lia|]); (split; [lia|]);
    destruct r, s; cbn [orb]; lia.
Qed.

Lemma iter_pos_nat {A : Type} (f : A -> A) (p : positive) (x : A) :
  SpecFloat.iter_pos f p x = Nat.iter (Pos.to_nat p) f x.
Proof.
  revert x; induction p as [p IH|p IH|]; intros x; cbn [SpecFloat.iter_pos].
  - rewrite !IH, Pos2Nat.inj_xI.
    replace (S (2 * Pos.to_nat p)) with (Pos.to_nat p + Pos.to_nat p + 1)%nat by lia.
    rewrite !Nat.iter_add. reflexivity.
  - rewrite !IH, Pos2Nat.inj_xO.
    replace (2 * Pos.to_nat p)%nat with (Pos.to_nat p + Pos.to_nat p)%nat by lia.
    rewrite Nat.iter_add. reflexivity.
  - reflexivity.
Qed.

Lemma shr_inv_iter (m0 : Z) (n : nat) :
  0 <= m0 ->
  shr_inv m0 (Z.of_nat n)
    (Nat.iter n shr_1 {| shr_m := m0; shr_r := false; shr_s := false |}).
Proof.
  intros Hm. induction n as [|n IH].
  - apply shr_inv_init, Hm.
  - rewrite Nat2Z.inj_succ. cbn [Nat.iter]. apply shr_inv_step; [lia | exact IH].
Qed.

Lemma rne_0 (m : Z) : rne m 0 = m.
Proof.
  unfold rne. change (2 ^ 0) with 1. rewrite Z.mod_1_r, Z.div_1_r. reflexivity.
Qed.

Lemma shr_inv_round (m0 k : Z) (mrs : shr_record) :
  0 <= k -> shr_inv m0 k mrs ->
  round_nearest_even (shr_m mrs) (loc_of_shr_record mrs) = rne m0 k.
Proof.
  intros Hk [Hm [rem [Hm0 [Hrem Hloc]]]].
  assert (Hpk : 0 < 2 ^ k) by (apply Z.pow_pos_nonneg; lia).
  assert (Hq : m0 / 2 ^ k = shr_m mrs).
  { symmetry. apply Z.div_unique with rem; [lia | lia]. }
  assert (Hr : m0 mod 2 ^ k = rem).
  { symmetry. apply Z.mod_unique with (shr_m mrs); [lia | lia]. }
  unfold rne. rewrite Hq, Hr.
  destruct mrs as [m r s]; cbn [shr_m shr_r shr_s loc_of_shr_record] in *.
  unfold loc_ok in Hloc.
  destruct r, s; cbn [round_nearest_even].
  - assert (E : (2 * rem ?= 2 ^ k) = Gt) by (apply Z.compare_gt_iff; lia).
    now rewrite E.
  - assert (E : (2 * rem ?= 2 ^ k) = Eq) by (apply Z.compare_eq_iff; lia).
    now rewrite E.
  - assert (E : (2 * rem ?= 2 ^ k) = Lt) by (apply Z.compare_lt_iff; lia).
    now rewrite E.
  - assert (E : (2 * rem ?= 2 ^ k) = Lt) by (apply Z.compare_lt_iff; lia).
    now rewrite E.
Qed.

(** The first shift-and-round of [binary_round_aux] on an exact value. *)
Lemma shr_round (m0 e n : Z) :
  0 <= m0 ->
  let '(mrs, e') := shr {| shr_m := m0; shr_r := false; shr_s := false |} e n in
  round_nearest_even (shr_m mrs) (loc_of_shr_record mrs) = rne m0 (Z.max 0 n)
  /\ e' = e + Z.max 0 n.
Proof.
  intros Hm. destruct n as [|p|p]; cbn [shr].
  - rewrite Z.max_id. cbn [shr_m loc_of_shr_record round_nearest_even].
    rewrite rne_0. split; [reflexivity | lia].
  - replace (Z.max 0 (Z.pos p)) with (Z.pos p) by lia.
    split; [|reflexivity].
    rewrite iter_pos_nat. apply shr_inv_round; [lia|].
    rewrite <- (positive_nat_Z p). apply shr_inv_iter, Hm.
  - replace (Z.max 0 (Z.neg p)) with 0 by lia.
    cbn [shr_m loc_of_shr_record round_nearest_even].
    rewrite rne_0. split; [reflexivity | lia].
Qed.

Lemma rne_bounds (m n : Z) :
  0 <= m -> 0 <= n -> m / 2 ^ n <= rne m n <= m / 2 ^ n + 1.
Proof.
  intros Hm Hn. unfold rne.
  destruct (2 * (m mod 2 ^ n) ?= 2 ^ n); [destruct (Z.even _) | |]; lia.
Qed.

Lemma rne_nonneg (m n : Z) : 0 <= m -> 0 <= n -> 0 <= rne m n.
Proof.
  intros Hm Hn. pose proof (rne_bounds m n Hm Hn).
  assert (0 <= m / 2 ^ n) by (apply Z.div_pos; [lia | apply Z.pow_pos_nonneg; lia]).
  lia.
Qed.

Lemma shr_nonpos (mrs : shr_record) (e n : Z) : n <= 0 -> shr mrs e n = (mrs, e).
Proof. destruct n; [reflexivity | lia | reflexivity]. Qed.

(** The exponent function of binary64. *)
Lemma fexp_64 (e : Z) : fexp prec emax e = Z.max (e - 53) (-1074).
Proof. reflexivity. Qed.

Lemma binary_round_aux_exact (s : bool) (m : positive) (e : Z) :
  let e1 := Z.max e (fexp prec emax (Z.pos (digits2_pos m) + e)) in
  binary_round_aux prec emax s (Z.pos m) e loc_Exact
  = finish s (rne (Z.pos m) (e1 - e)) e1.
Proof.
  intros e1. unfold binary_round_aux, shr_fexp at 1.
  cbn [shr_record_of_loc Zdigits2].
  pose proof (shr_round (Z.pos m) e
                (fexp prec emax (Z.pos (digits2_pos m) + e) - e) ltac:(lia)) as Hsr.
  destruct (shr _ e _) as [mrs e'].
  destruct Hsr as [Hround He'].
  replace (Z.max 0 (fexp prec emax (Z.pos (digits2_pos m) + e) - e))
    with (e1 - e) in * by (unfold e1; lia).
  rewrite Hround. replace e' with e1 by lia. clear Hround He' e' mrs.
  assert (He1 : -1074 <= e1) by (unfold e1; rewrite fexp_64; lia).
  assert (Hn : 0 <= e1 - e) by (unfold e1; lia).
  pose proof (rne_bounds (Z.pos m) (e1 - e) ltac:(lia) Hn) as Hb.
  pose proof (rne_nonneg (Z.pos m) (e1 - e) ltac:(lia) Hn) as Hnn.
  assert (Hq : Z.pos m / 2 ^ (e1 - e) < 2 ^ 53).
  { apply Z.div_lt_upper_bound; [apply Z.pow_pos_nonneg; lia|].
    rewrite <- Z.pow_add_r by lia.
    pose proof (digits2_pos_bounds m) as [_ Hlt].
    eapply Z.lt_le_trans; [exact Hlt|].
    apply Z.pow_le_mono_r; [lia|].
    unfold e1. rewrite fexp_64. lia. }
  remember (rne (Z.pos m) (e1 - e)) as m1 eqn:Em1. clear Em1.
  unfold shr_fexp, finish. cbn [shr_record_of_loc].
  destruct m1 as [|p|p]; [| |lia].
  - cbn [Zdigits2]. rewrite shr_nonpos by (rewrite fexp_64; lia). reflexivity.
  - cbn [Zdigits2].
    destruct (Z.eqb_spec (Z.pos p) (2 ^ 53)) as [E|E].
    + assert (Hp53 : p = 9007199254740992%positive)
        by (change (2 ^ 53) with 9007199254740992 in E; congruence).
      subst p.
      replace (fexp prec emax (Z.pos (digits2_pos 9007199254740992) + e1) - e1)
        with 1 by (rewrite fexp_64; change (Z.pos (digits2_pos 9007199254740992)) with 54; lia).
      cbn [shr SpecFloat.iter_pos shr_1 shr_m].
      change (emax - prec) with 971. reflexivity.
    + assert (Hd : Z.pos (digits2_pos p) <= 53).
      { pose proof (digits2_pos_bounds p) as [Hlo _].
        destruct (Z.le_gt_cases (Z.pos (digits2_pos p)) 53) as [|Hgt]; [assumption|].
        assert (2 ^ 53 <= 2 ^ (Z.pos (digits2_pos p) - 1))
          by (apply Z.pow_le_mono_r; lia).
        lia. }
      rewrite shr_nonpos by (rewrite fexp_64; lia).
      cbn [shr_m]. change (emax - prec) with 971. reflexivity.
Qed.

Lemma pos_iter_xO (m d : positive) :
  Z.pos (Pos.iter xO m d) = Z.pos m * 2 ^ Z.pos d.
Proof.
  induction d as [|d IH] using Pos.peano_ind.
  - cbn [Pos.iter]. lia.
  - rewrite Pos.iter_succ, Pos2Z.inj_xO, IH, Pos2Z.inj_succ, Z.pow_succ_r by lia. lia.
Qed.

Lemma shl_align_spec (m : positive) (e e' : Z) :
  snd (shl_align m e e') = Z.min e e' /\
  Z.pos (fst (shl_align m e e')) = Z.pos m * 2 ^ (e - Z.min e e').
Proof.
  unfold shl_align. destruct (e' - e) as [|d|d] eqn:E; cbn [fst snd].
  - replace (Z.min e e') with e by lia. rewrite Z.sub_diag. lia.
  - replace (Z.min e e') with e by lia. rewrite Z.sub_diag. lia.
  - replace (Z.min e e') with e' by lia. rewrite pos_iter_xO.
    replace (e - e') with (Z.pos d) by lia. split; reflexivity.
Qed.

Lemma digits2_pos_shift (m mz : positive) (k : Z) :
  0 <= k -> Z.pos mz = Z.pos m * 2 ^ k ->
  Z.pos (digits2_pos mz) = Z.pos (digits2_pos m) + k.
Proof.
  intros Hk E. apply digits2_pos_unique. rewrite E.
  pose proof (digits2_pos_bounds m) as [Hlo Hhi].
  assert (0 < Z.pos (digits2_pos m)) by lia.
  replace (Z.pos (digits2_pos m) + k - 1) with (Z.pos (digits2_pos m) - 1 + k) by lia.
  rewrite !Z.pow_add_r by lia.
  assert (0 < 2 ^ k) by (apply Z.pow_pos_nonneg; lia).
  split; [apply Z.mul_le_mono_nonneg_r; lia | apply Z.mul_lt_mono_pos_r; lia].
Qed.

Lemma binary_round_exact (s : bool) (m : positive) (e : Z) :
  let e0 := fexp prec emax (Z.pos (digits2_pos m) + e) in
  binary_round prec emax s m e = finish s (round_mantissa (Z.pos m) e e0) e0.
Proof.
  intros e0. unfold binary_round. fold e0.
  pose proof (shl_align_spec m e e0) as [Hez Hmz].
  destruct (shl_align m e e0) as [mz ez]. cbn [fst snd] in Hez, Hmz.
  rewrite binary_round_aux_exact.
  assert (Hd : Z.pos (digits2_pos mz) + ez = Z.pos (digits2_pos m) + e).
  { rewrite (digits2_pos_shift m mz (e - Z.min e e0)); lia. }
  rewrite Hd. fold e0.
  replace (Z.max ez e0) with e0 by lia.
  unfold round_mantissa. destruct (Z.leb_spec e0 e) as [Hle|Hgt].
  - replace ez with e0 by lia. rewrite Z.sub_diag, rne_0, Hmz.
    replace (Z.min e e0) with e0 by lia. reflexivity.
  - replace ez with e by lia.
    replace (Z.pos mz) with (Z.pos m); [reflexivity|].
    rewrite Hmz. replace (Z.min e e0) with e by lia. rewrite Z.sub_diag. lia.
Qed.

(** What [finish] returns for a positive mantissa that does not overflow. *)
Lemma finish_finite (s : bool) (m1 e1 : Z) :
  0 < m1 -> e1 < 971 ->
  exists m' e', finish s m1 e1 = S754_finite s m' e' /\
    ((Z.pos m' = m1 /\ e' = e1) \/
     (m1 = 2 ^ 53 /\ Z.pos m' = 2 ^ 52 /\ e' = e1 + 1)).
Proof.
  intros Hm He. unfold finish. destruct m1 as [|p|p]; try lia.
  destruct (Z.eqb_spec (Z.pos p) (2 ^ 53)) as [E|E].
  - destruct (Z.leb_spec (e1 + 1) 971); [|lia].
    eexists _, _. split; [reflexivity|]. right.
    split; [exact E | split; reflexivity].
  - destruct (Z.leb_spec e1 971); [|lia].
    eexists _, _. split; [reflexivity|]. left. split; reflexivity.
Qed.

Lemma bounded_canonical (m : positive) (e : Z) :
  bounded prec emax m e = true ->
  Z.max (Z.pos (digits2_pos m) + e - 53) (-1074) = e /\ e <= 971.
Proof.
  unfold bounded, canonical_mantissa. rewrite andb_true_iff, fexp_64.
  intros [Hc He]. apply Z.eqb_eq in Hc. apply Z.leb_le in He.
  change (emax - prec) with 971 in He. split; [exact Hc | exact He].
Qed.

Lemma is_seconds_cases (x : float) :
  is_seconds x = true ->
  (exists s, Prim2SF x = S754_zero s) \/
  (exists m e, Prim2SF x = S754_finite false m e /\ bounded prec emax m e = true).
Proof.
  unfold is_seconds. rewrite andb_true_iff, leb_spec, ltb_spec.
  pose proof (Prim2SF_valid x) as Hv.
  change (Prim2SF 0) with (S754_zero false).
  change (Prim2SF infinity) with (S754_infinity false).
  destruct (Prim2SF x) as [s|s| |s m e]; cbn; intros [H1 H2].
  - left. eauto.
  - destruct s; discriminate.
  - discriminate.
  - destruct s; [discriminate|]. right. eauto.
Qed.

Lemma binary_normalize_pos (M : positive) (E : Z) (sz : bool) :
  binary_normalize prec emax (Z.pos M) E sz
  = finish false (round_mantissa (Z.pos M) E (fexp prec emax (Z.pos (digits2_pos M) + E)))
      (fexp prec emax (Z.pos (digits2_pos M) + E)).
Proof. cbn [binary_normalize]. apply binary_round_exact. Qed.

(** Converting a positive integer below [2^53]: exact. *)
Lemma binary_normalize_small (t : positive) :
  Z.pos t < 2 ^ 53 ->
  exists mt, let et := Z.pos (digits2_pos t) - 53 in
    binary_normalize prec emax (Z.pos t) 0 false = S754_finite false mt et /\
    Z.pos mt = Z.pos t * 2 ^ (- et) /\
    bounded prec emax mt et = true.
Proof.
  intros Ht. set (d := Z.pos (digits2_pos t)).
  pose proof (digits2_pos_bounds t) as [Hlo Hhi]. fold d in Hlo, Hhi.
  assert (Hd : 1 <= d <= 53).
  { split; [unfold d; lia|].
    destruct (Z.le_gt_cases d 53) as [|Hgt]; [assumption|].
    assert (2 ^ 53 <= 2 ^ (d - 1)) by (apply Z.pow_le_mono_r; lia). lia. }
  rewrite binary_normalize_pos. fold d. rewrite fexp_64.
  replace (Z.max (d + 0 - 53) (-1074)) with (d - 53) by lia.
  unfold round_mantissa. destruct (Z.leb_spec (d - 53) 0) as [_|]; [|lia].
  replace (0 - (d - 53)) with (53 - d) by lia.
  assert (Hp : 0 < 2 ^ (53 - d)) by (apply Z.pow_pos_nonneg; lia).
  assert (Hm : 2 ^ 52 <= Z.pos t * 2 ^ (53 - d) < 2 ^ 53).
  { assert (E52 : 2 ^ 52 = 2 ^ (d - 1) * 2 ^ (53 - d))
      by (rewrite <- Z.pow_add_r by lia; f_equal; lia).
    assert (E53 : 2 ^ 53 = 2 ^ d * 2 ^ (53 - d))
      by (rewrite <- Z.pow_add_r by lia; f_equal; lia).
    split.
    - rewrite E52. apply Z.mul_le_mono_nonneg_r; lia.
    - rewrite E53. apply Z.mul_lt_mono_pos_r; lia. }
  destruct (finish_finite false (Z.pos t * 2 ^ (53 - d)) (d - 53) ltac:(lia) ltac:(lia))
    as [m' [e' [Hf [[Hm' He']|[Hc _]]]]]; [|lia].
  subst e'. exists m'. cbn zeta. rewrite Hf.
  replace (- (d - 53)) with (53 - d) by lia.
  split; [reflexivity|]. split; [exact Hm'|].
  unfold bounded, canonical_mantissa. rewrite andb_true_iff. split.
  - apply Z.eqb_eq. rewrite fexp_64.
    rewrite (digits2_pos_unique m' 53) by (rewrite Hm'; exact Hm). lia.
  - apply Z.leb_le. change (emax - prec) with 971. lia.
Qed.

Lemma SF64sub_pos (m1 m2 : positive) (e1 e2 : Z) :
  SF64sub (S754_finite false m1 e1) (S754_finite false m2 e2)
  = binary_normalize prec emax
      (Z.pos m1 * 2 ^ (e1 - Z.min e1 e2) - Z.pos m2 * 2 ^ (e2 - Z.min e1 e2))
      (Z.min e1 e2) false.
Proof.
  unfold SF64sub, SFsub. cbn [cond_Zopp].
  pose proof (shl_align_spec m1 e1 (Z.min e1 e2)) as [_ H1].
  pose proof (shl_align_spec m2 e2 (Z.min e1 e2)) as [_ H2].
  rewrite H1, H2.
  replace (Z.min e1 (Z.min e1 e2)) with (Z.min e1 e2) by lia.
  replace (Z.min e2 (Z.min e1 e2)) with (Z.min e1 e2) by lia.
  reflexivity.
Qed.

Lemma rne_exact (m n : Z) : 0 < n -> rne (m * 2 ^ n) n = m.
Proof.
  intros Hn. unfold rne.
  assert (0 < 2 ^ n) by (apply Z.pow_pos_nonneg; lia).
  rewrite Z.mod_mul, Z.div_mul by lia.
  assert (E : (2 * 0 ?= 2 ^ n) = Lt) by (apply Z.compare_lt_iff; lia).
  now rewrite E.
Qed.

(** Converting an integral float to an integer and back gives it again. *)
Lemma binary_normalize_integral (mx : positive) (ex : Z) :
  bounded prec emax mx ex = true -> 0 <= ex ->
  binary_normalize prec emax (Z.shiftl (Z.pos mx) ex) 0 false
  = S754_finite false mx ex.
Proof.
  intros Hb Hex. apply bounded_canonical in Hb as [Hc He].
  assert (Hd : Z.pos (digits2_pos mx) = 53) by lia.
  rewrite Z.shiftl_mul_pow2 by lia.
  assert (Hp : 0 < 2 ^ ex) by (apply Z.pow_pos_nonneg; lia).
  destruct (Z.pos mx * 2 ^ ex) as [|M|M] eqn:EM; try lia.
  rewrite binary_normalize_pos.
  rewrite (digits2_pos_shift mx M ex) by lia.
  rewrite Hd, fexp_64.
  replace (Z.max (53 + ex + 0 - 53) (-1074)) with ex by lia.
  assert (Hr : round_mantissa (Z.pos M) 0 ex = Z.pos mx).
  { unfold round_mantissa. destruct (Z.leb_spec ex 0).
    - replace ex with 0 in * by lia. change (2 ^ 0) with 1 in EM.
      rewrite Z.sub_diag. change (2 ^ 0) with 1. lia.
    - rewrite <- EM. replace (ex - 0) with ex by lia. apply rne_exact. lia. }
  rewrite Hr. unfold finish.
  pose proof (digits2_pos_bounds mx) as [_ Hhi]. rewrite Hd in Hhi.
  destruct (Z.eqb_spec (Z.pos mx) (2 ^ 53)); [lia|].
  destruct (Z.leb_spec ex 971); [reflexivity | lia].
Qed.

Lemma pow2_pos (k : Z) : 0 <= k -> 0 < 2 ^ k.
Proof. intros; apply Z.pow_pos_nonneg; lia. Qed.

Lemma pow2_lt_inv (a b : Z) : 2 ^ a < 2 ^ b -> 0 <= b -> a < b.
Proof.
  intros H Hb. destruct (Z.lt_ge_cases a b) as [|Hge]; [assumption|].
  assert (2 ^ b <= 2 ^ a) by (apply Z.pow_le_mono_r; lia). lia.
Qed.

(** The number of binary digits of a positive number below [2^k]. *)
Lemma digits2_pos_le (m : positive) (k : Z) :
  0 <= k -> Z.pos m < 2 ^ k -> Z.pos (digits2_pos m) <= k.
Proof.
  intros Hk Hm. pose proof (digits2_pos_bounds m) as [Hlo _].
  assert (2 ^ (Z.pos (digits2_pos m) - 1) < 2 ^ k) by lia.
  apply pow2_lt_inv in H; lia.
Qed.

Lemma sub_floor_small (mx t mt : positive) (ex : Z) :
  bounded prec emax mx ex = true -> ex < 0 ->
  Z.pos t = Z.pos mx / 2 ^ (- ex) ->
  Z.pos mt = Z.pos t * 2 ^ (53 - Z.pos (digits2_pos t)) ->
  small_sf (SF64sub (S754_finite false mx ex)
              (S754_finite false mt (Z.pos (digits2_pos t) - 53))).
Proof.
  intros Hb Hex Ht Hmt. apply bounded_canonical in Hb as [Hc He].
  set (d := Z.pos (digits2_pos t)) in *. set (et := d - 53).
  assert (HP : 0 < 2 ^ (- ex)) by (apply pow2_pos; lia).
  pose proof (Z.div_mod (Z.pos mx) (2 ^ (- ex)) ltac:(lia)) as Hdm.
  pose proof (Z.mod_pos_bound (Z.pos mx) (2 ^ (- ex)) HP) as Hrho.
  rewrite <- Ht in Hdm.
  set (rho := Z.pos mx mod 2 ^ (- ex)) in *.
  pose proof (digits2_pos_bounds mx) as [_ Hmx].
  assert (Hmx53 : Z.pos mx < 2 ^ 53).
  { eapply Z.lt_le_trans; [exact Hmx|]. apply Z.pow_le_mono_r; lia. }
  assert (Hex52 : -52 <= ex).
  { assert (2 ^ (- ex) < 2 ^ 53) by nia. apply pow2_lt_inv in H; lia. }
  pose proof (digits2_pos_bounds t) as [Htlo Hthi]. fold d in Htlo, Hthi.
  assert (Hd1 : 1 <= d) by (unfold d; lia).
  assert (Hdle : d <= 53 + ex).
  { assert (E53 : 2 ^ 53 = 2 ^ (53 + ex) * 2 ^ (- ex))
      by (rewrite <- Z.pow_add_r by lia; f_equal; lia).
    assert (Z.pos t < 2 ^ (53 + ex)) by nia.
    assert (2 ^ (d - 1) < 2 ^ (53 + ex)) by lia.
    apply pow2_lt_inv in H0; lia. }
  rewrite SF64sub_pos. fold et.
  replace (Z.min ex et) with et by (unfold et; lia).
  rewrite Z.sub_diag. change (2 ^ 0) with 1. rewrite Z.mul_1_r.
  assert (HQ : 0 < 2 ^ (ex - et)) by (apply pow2_pos; unfold et; lia).
  assert (Hmt' : Z.pos mt = Z.pos t * 2 ^ (- ex) * 2 ^ (ex - et)).
  { rewrite Hmt, <- Z.mul_assoc, <- Z.pow_add_r by (unfold et; lia).
    do 2 f_equal. unfold et. lia. }
  assert (HD : Z.pos mx * 2 ^ (ex - et) - Z.pos mt = rho * 2 ^ (ex - et)).
  { rewrite Hmt', Hdm. ring. }
  rewrite HD.
  destruct (Z.eq_dec rho 0) as [Hz|Hnz].
  { rewrite Hz. left. exists false. reflexivity. }
  destruct rho as [|rp|rp] eqn:Erho; try lia.
  destruct (Z.pos rp * 2 ^ (ex - et)) as [|Dp|Dp] eqn:ED; try lia.
  rewrite binary_normalize_pos.
  rewrite (digits2_pos_shift rp Dp (ex - et) ltac:(unfold et; lia) (eq_sym ED)).
  set (dr := Z.pos (digits2_pos rp)).
  assert (Hdr : 1 <= dr <= - ex).
  { split; [unfold dr; lia|]. apply digits2_pos_le; lia. }
  replace (dr + (ex - et) + et) with (dr + ex) by lia.
  rewrite fexp_64. set (e0 := Z.max (dr + ex - 53) (-1074)).
  assert (He0 : e0 <= -53 /\ dr + ex - 53 <= e0 /\ e0 < et)
    by (unfold e0, et; lia).
  unfold round_mantissa. destruct (Z.leb_spec e0 et) as [_|]; [|lia].
  rewrite <- ED, <- Z.mul_assoc, <- Z.pow_add_r by lia.
  replace (ex - et + (et - e0)) with (ex - e0) by lia.
  pose proof (digits2_pos_bounds rp) as [_ Hrhi]. fold dr in Hrhi.
  assert (Hq : 0 < 2 ^ (ex - e0)) by (apply pow2_pos; lia).
  assert (Hmf53 : Z.pos rp * 2 ^ (ex - e0) < 2 ^ 53).
  { eapply Z.lt_le_trans; [apply Z.mul_lt_mono_pos_r; [exact Hq | exact Hrhi]|].
    rewrite <- Z.pow_add_r by lia. apply Z.pow_le_mono_r; lia. }
  assert (Hmf1 : Z.pos rp * 2 ^ (ex - e0) < 2 ^ (- e0)).
  { replace (- e0) with (- ex + (ex - e0)) by lia. rewrite Z.pow_add_r by lia.
    apply Z.mul_lt_mono_pos_r; lia. }
  destruct (finish_finite false (Z.pos rp * 2 ^ (ex - e0)) e0 ltac:(lia) ltac:(lia))
    as [m' [e' [Hf [[Hm' He']|[Hcarry _]]]]]; [|lia].
  rewrite Hf. right. exists m', e'. subst e'. rewrite Hm'.
  split; [reflexivity|]. split; [lia | exact Hmf1].
Qed.

Lemma mul_1000_small (f : spec_float) :
  small_sf f -> millis_sf (SF64mul f (S754_finite false 8796093022208000 (-43))).
Proof.
  intros [[s ->]|[mf [ef [-> [Hef Hmf]]]]].
  - left. exists (xorb s false). reflexivity.
  - unfold SF64mul, SFmul. cbn [xorb].
    rewrite binary_round_aux_exact.
    set (M := (mf * 8796093022208000)%positive).
    set (E := ef + -43).
    assert (HM : Z.pos M = Z.pos mf * (1000 * 2 ^ 43)) by (unfold M; lia).
    assert (Hlt : Z.pos M < 1000 * 2 ^ (- E)).
    { rewrite HM. replace (- E) with (- ef + 43) by (unfold E; lia).
      rewrite Z.pow_add_r by lia.
      assert (0 < 2 ^ 43) by (apply pow2_pos; lia). nia. }
    assert (HdM : Z.pos (digits2_pos M) <= 10 - E).
    { apply digits2_pos_le; [unfold E; lia|].
      replace (10 - E) with (10 + - E) by lia. rewrite Z.pow_add_r by (unfold E; lia).
      change (2 ^ 10) with 1024.
      assert (0 < 2 ^ (- E)) by (apply pow2_pos; unfold E; lia). lia. }
    rewrite fexp_64.
    set (e1 := Z.max E (Z.max (Z.pos (digits2_pos M) + E - 53) (-1074))).
    assert (He1 : E <= e1 <= -43) by (unfold e1, E; lia).
    assert (Hp : 0 < 2 ^ (e1 - E)) by (apply pow2_pos; lia).
    assert (Hq : Z.pos M / 2 ^ (e1 - E) < 1000 * 2 ^ (- e1)).
    { apply Z.div_lt_upper_bound; [exact Hp|].
      replace (2 ^ (e1 - E) * (1000 * 2 ^ (- e1))) with (1000 * 2 ^ (- E)); [exact Hlt|].
      replace (- E) with (e1 - E + - e1) by lia. rewrite Z.pow_add_r by lia. ring. }
    pose proof (rne_bounds (Z.pos M) (e1 - E) ltac:(lia) ltac:(lia)) as Hb.
    pose proof (rne_nonneg (Z.pos M) (e1 - E) ltac:(lia) ltac:(lia)) as Hnn.
    set (m1 := rne (Z.pos M) (e1 - E)) in *.
    destruct (Z.eq_dec m1 0) as [Hz|Hnz].
    { rewrite Hz. left. exists false. reflexivity. }
    destruct (finish_finite false m1 e1 ltac:(lia) ltac:(lia))
      as [m' [e' [Hf [[Hm' He']|[Hc [Hm' He']]]]]]; rewrite Hf; right;
      exists m', e'; (split; [reflexivity|]); subst e'; rewrite Hm'.
    + split; lia.
    + split; [lia|].
      assert (E2 : 2 ^ (- e1) = 2 * 2 ^ (- (e1 + 1))).
      { replace (- e1) with (1 + - (e1 + 1)) by lia.
        rewrite Z.pow_add_r by lia. reflexivity. }
      change (2 ^ 53) with (2 * 2 ^ 52) in Hc. lia.
Qed.

(** ** The arithmetic of a timestamp *)

Lemma round_millis (y : float) :
  millis_sf (Prim2SF y) -> exists ms, round y = Ok ms /\ 0 <= ms <= 1000.
Proof.
  unfold round. intros [[s ->]|[m [e [-> [He Hm]]]]].
  - exists 0. split; [reflexivity | lia].
  - cbn [cond_Zopp]. destruct (Z.leb_spec 0 e) as [|_]; [lia|].
    assert (HP : 0 < 2 ^ (- e)) by (apply pow2_pos; lia).
    assert (Hh : 0 < 2 ^ (- e - 1)) by (apply pow2_pos; lia).
    pose proof (Z.div_mod (Z.pos m) (2 ^ (- e)) ltac:(lia)) as Hdm.
    pose proof (Z.mod_pos_bound (Z.pos m) (2 ^ (- e)) HP) as Hr.
    assert (Hq0 : 0 <= Z.pos m / 2 ^ (- e)) by (apply Z.div_pos; lia).
    set (q := Z.pos m / 2 ^ (- e)) in *.
    set (r := Z.pos m mod 2 ^ (- e)) in *.
    assert (Hq : r = 0 -> q <= 1000) by nia.
    assert (Hq' : 0 < r -> q <= 999) by nia.
    destruct (Z.compare_spec r (2 ^ (- e - 1))) as [Heq|Hlt|Hgt].
    + eexists; split; [reflexivity|]. destruct (Z.even q); lia.
    + eexists; split; [reflexivity|].
      destruct (Z.eq_dec r 0); [lia|]. assert (0 < r) by lia. lia.
    + eexists; split; [reflexivity|]. lia.
Qed.

Lemma float_of_int_0 : float_of_int 0 = Ok 0%float.
Proof. reflexivity. Qed.

Lemma float_of_int_finite (z : Z) (m : positive) (e : Z) :
  binary_normalize prec emax z 0 false = S754_finite false m e ->
  float_of_int z = Ok (SF2Prim (S754_finite false m e)).
Proof. unfold float_of_int. intros ->. reflexivity. Qed.

(** The fractional part that the formatters compute is a float in
    [0, 1). *)
Lemma fraction_small (x : float) :
  is_seconds x = true ->
  exists total flf,
    floor x = Ok total /\ 0 <= total /\ float_of_int total = Ok flf /\
    small_sf (Prim2SF (x - flf)%float).
Proof.
  intros Hx. unfold floor.
  destruct (is_seconds_cases x Hx) as [[s Hs]|[m [e [Hf Hb]]]].
  - rewrite Hs. exists 0, 0%float.
    repeat split; [lia | ].
    rewrite sub_spec, Hs. change (Prim2SF 0) with (S754_zero false).
    left. destruct s; eexists; reflexivity.
  - rewrite Hf. cbn [cond_Zopp].
    destruct (Z.le_gt_cases 0 e) as [He|He].
    + exists (Z.shiftl (Z.pos m) e), x.
      split; [reflexivity|].
      split; [apply Z.shiftl_nonneg; lia|].
      split.
      * rewrite (float_of_int_finite _ m e) by (apply binary_normalize_integral; assumption).
        rewrite <- Hf, SF2Prim_Prim2SF. reflexivity.
      * rewrite sub_spec, Hf, SF64sub_pos, Z.sub_diag.
        left. exists false. reflexivity.
    + rewrite Z.shiftl_div_pow2 by lia.
      assert (HP : 0 < 2 ^ (- e)) by (apply pow2_pos; lia).
      destruct (Z.pos m / 2 ^ (- e)) as [|t|t] eqn:Et.
      * exists 0, 0%float. repeat split; [lia|].
        rewrite sub_spec, Hf. change (Prim2SF 0) with (S754_zero false).
        cbn [SF64sub SFsub]. right. exists m, e.
        split; [reflexivity|]. split; [lia|].
        apply Z.div_small_iff in Et; lia.
      * assert (Ht53 : Z.pos t < 2 ^ 53).
        { apply bounded_canonical in Hb as [Hc _].
          pose proof (digits2_pos_bounds m) as [_ Hhi].
          assert (Z.pos m < 2 ^ 53)
            by (eapply Z.lt_le_trans; [exact Hhi | apply Z.pow_le_mono_r; lia]).
          rewrite <- Et. apply Z.div_lt_upper_bound; [lia|]. nia. }
        destruct (binary_normalize_small t Ht53) as [mt [Hn [Hmt Hbt]]].
        eexists _, _. split; [reflexivity|]. split; [lia|].
        split; [apply float_of_int_finite; exact Hn|].
        rewrite sub_spec, Hf, Prim2SF_SF2Prim by exact Hbt.
        apply sub_floor_small; [assumption | lia | now rewrite Et |].
        rewrite Hmt. f_equal. f_equal. lia.
      * pose proof (Z.div_pos (Z.pos m) (2 ^ (- e)) ltac:(lia) HP). lia.
Qed.

(** The parts of a timestamp: whole seconds and milliseconds. *)
Lemma timestamp_parts (x : float) :
  is_seconds x = true ->
  exists total flf ms,
    floor x = Ok total /\ 0 <= total /\ float_of_int total = Ok flf /\
    round ((x - flf) * 1000)%float = Ok ms /\ 0 <= ms <= 1000.
Proof.
  intros Hx.
  destruct (fraction_small x Hx) as [total [flf [Hfl [Ht [Hflf Hsmall]]]]].
  destruct (round_millis ((x - flf) * 1000)%float) as [ms [Hr Hms]].
  { rewrite mul_spec.
    change (Prim2SF 1000) with (S754_finite false 8796093022208000 (-43)).
    apply mul_1000_small, Hsmall. }
  exists total, flf, ms. auto.
Qed.

(** ** The fields of a timestamp *)

Lemma below_forallb (P : Z -> bool) (n : nat) (v : Z) :
  forallb (fun k => P (Z.of_nat k)) (seq 0 n) = true ->
  0 <= v < Z.of_nat n -> P v = true.
Proof.
  intros Hall Hv. rewrite forallb_forall in Hall.
  specialize (Hall (Z.to_nat v)). rewrite Z2Nat.id in Hall by lia.
  apply Hall, in_seq. lia.
Qed.

Lemma format_two_digits (v : Z) : 0 <= v < 60 -> format_0d 2 v = two_digits v.
Proof.
  intros Hv. apply String.eqb_eq.
  apply (below_forallb (fun v => String.eqb (format_0d 2 v) (two_digits v)) 60);
    [vm_compute; reflexivity | lia].
Qed.

Lemma format_millis (ms : Z) : 0 <= ms <= 1000 -> format_0d 3 ms = millis_field ms.
Proof.
  intros Hv. apply String.eqb_eq.
  apply (below_forallb (fun v => String.eqb (format_0d 3 v) (millis_field v)) 1001);
    [vm_compute; reflexivity | lia].
Qed.

Lemma str_int_length (h : Z) : 10 <= h -> (2 <= String.length (str_int h))%nat.
Proof.
  intros Hh. destruct h as [|p|p]; try lia.
  unfold str_int. cbn [Z.to_int NilZero.string_of_int].
  pose proof (DecimalPos.Unsigned.of_to p) as Hp.
  destruct (Pos.to_uint p) as [|u|u|u|u|u|u|u|u|u|u];
    [cbn in Hp; discriminate | ..];
    (destruct u; [cbn in Hp; first [discriminate Hp | injection Hp as Hp; lia] | ..]);
    cbn [NilZero.string_of_uint NilEmpty.string_of_uint String.length]; lia.
Qed.

Lemma format_hours (h : Z) : 0 <= h -> format_0d 2 h = hours_field h.
Proof.
  intros Hh. unfold hours_field. destruct (Z.ltb_spec h 10) as [Hlt|Hge].
  - apply String.eqb_eq.
    apply (below_forallb
             (fun v => String.eqb (format_0d 2 v) ("0" ++ str_int v)) 10);
      [vm_compute; reflexivity | lia].
  - unfold format_0d. destruct (Z.ltb_spec h 0) as [|_]; [lia|].
    rewrite Z.abs_eq by lia. pose proof (str_int_length h Hge) as Hl.
    cbn [String.length]. replace (2 - 0 - String.length (str_int h))%nat with O by lia.
    reflexivity.
Qed.

Lemma timestamp_clock (sep : string) (x : float) (total ms : Z) (flf : float) :
  floor x = Ok total -> 0 <= total -> float_of_int total = Ok flf ->
  round ((x - flf) * 1000)%float = Ok ms -> 0 <= ms <= 1000 ->
  timestamp sep x = Ok (clock sep total ms).
Proof.
  intros Hfl Ht Hflf Hr Hms. unfold timestamp, clock.
  rewrite Hfl. cbn [result_bind]. rewrite Hflf. cbn [result_bind].
  rewrite Hr. cbn [result_bind].
  rewrite format_hours by (apply Z.div_pos; lia).
  rewrite !format_two_digits by (apply Z.mod_pos_bound; lia).
  rewrite format_millis by exact Hms. reflexivity.
Qed.

Lemma floor_is_floor (x : float) (t : Z) : floor x = Ok t -> is_floor x t.
Proof.
  unfold floor, is_floor. destruct (Prim2SF x) as [s|s| |s m e]; try discriminate.
  - intros E. injection E as <-. reflexivity.
  - intros E. injection E as <-. cbv zeta.
    destruct (Z.leb_spec 0 e) as [He|He].
    + apply Z.shiftl_mul_pow2, He.
    + rewrite Z.shiftl_div_pow2 by lia.
      assert (HP : 0 < 2 ^ (- e)) by (apply pow2_pos; lia).
      pose proof (Z.div_mod (cond_Zopp s (Z.pos m)) (2 ^ (- e)) ltac:(lia)) as Hdm.
      pose proof (Z.mod_pos_bound (cond_Zopp s (Z.pos m)) (2 ^ (- e)) HP) as Hr.
      nia.
Qed.

Lemma round_nearest (y : float) (k : Z) : round y = Ok k -> nearest_integer y k.
Proof.
  unfold round, nearest_integer. destruct (Prim2SF y) as [s|s| |s m e]; try discriminate.
  - intros E. injection E as <-. reflexivity.
  - cbv zeta. destruct (Z.leb_spec 0 e) as [He|He].
    + intros E. injection E as <-. apply Z.shiftl_mul_pow2, He.
    + assert (HP : 0 < 2 ^ (- e)) by (apply pow2_pos; lia).
      assert (EP : 2 ^ (- e) = 2 * 2 ^ (- e - 1)).
      { replace (- e) with (1 + (- e - 1)) at 1 by lia.
        rewrite Z.pow_add_r by lia. reflexivity. }
      pose proof (Z.div_mod (cond_Zopp s (Z.pos m)) (2 ^ (- e)) ltac:(lia)) as Hdm.
      pose proof (Z.mod_pos_bound (cond_Zopp s (Z.pos m)) (2 ^ (- e)) HP) as Hr.
      set (z := cond_Zopp s (Z.pos m)) in *.
      set (q := z / 2 ^ (- e)) in *. set (r := z mod 2 ^ (- e)) in *.
      destruct (Z.compare_spec r (2 ^ (- e - 1))) as [Heq|Hlt|Hgt];
        intros E; injection E as <-; [destruct (Z.even q)| |]; lia.
Qed.

(** A number of seconds is always formatted. *)
Lemma timestamp_total (fmt : subtitle_format) (x : float) :
  is_seconds x = true -> exists t, format_timestamp fmt x = Ok t.
Proof.
  intros Hx.
  destruct (timestamp_parts x Hx) as [total [flf [ms [Hfl [Ht [Hflf [Hr Hms]]]]]]].
  destruct fmt; eexists; eapply timestamp_clock; eassumption.
Qed.

Lemma valid_times_format (fmt : subtitle_format) (s : segment) :
  valid_times s -> times_format fmt s.
Proof. intros [Hs He]. split; apply timestamp_total; assumption. Qed.

(** C3.  For every non-negative (finite) number of seconds, both
    formatters return [HH:MM:SS] followed by the separator of the format
    and the milliseconds: the hours are all the whole hours (two digits, or
    more when there are 100 hours or more), minutes and seconds have two
    digits, and the milliseconds are the fraction times 1000 rounded to the
    nearest integer, between 0 and 1000; a rounding to 1000 is written as
    the four digits [1000] after the unchanged seconds.  In particular 0.0
    gives [00:00:00.000] and [00:00:00,000], and 3661.5 gives
    [01:01:01.500]. *)
Theorem timestamp_format :
  (forall x : float,
     is_seconds x = true ->
     exists (total : Z) (flf : float) (ms : Z),
       floor x = Ok total /\ is_floor x total /\ 0 <= total /\
       float_of_int total = Ok flf /\
       round ((x - flf) * 1000)%float = Ok ms /\
       nearest_integer ((x - flf) * 1000)%float ms /\ 0 <= ms <= 1000 /\
       seconds_to_vtt_timestamp x = Ok (clock "." total ms) /\
       seconds_to_srt_timestamp x = Ok (clock "," total ms)) /\
  (forall sep total, clock sep total 1000
     = hours_field (total / 3600) ++ ":" ++ two_digits ((total / 60) mod 60) ++ ":"
       ++ two_digits (total mod 60) ++ sep ++ "1000") /\
  seconds_to_vtt_timestamp 0 = Ok "00:00:00.000" /\
  seconds_to_srt_timestamp 0 = Ok "00:00:00,000" /\
  seconds_to_vtt_timestamp 3661.5 = Ok "01:01:01.500" /\
  seconds_to_srt_timestamp 3661.5 = Ok "01:01:01,500" /\
  seconds_to_vtt_timestamp 360000.25 = Ok "100:00:00.250".
Proof.
  split; [|split; [reflexivity | repeat split; vm_compute; reflexivity]].
  intros x Hx.
  destruct (timestamp_parts x Hx) as [total [flf [ms [Hfl [Ht [Hflf [Hr Hms]]]]]]].
  exists total, flf, ms.
  split; [exact Hfl|]. split; [apply floor_is_floor, Hfl|].
  split; [exact Ht|]. split; [exact Hflf|]. split; [exact Hr|].
  split; [apply round_nearest, Hr|]. split; [exact Hms|].
  split; eapply timestamp_clock; eassumption.
Qed.

(** The float nearest to 0.9996 is a number of seconds whose fraction
    rounds to 1000 milliseconds: they are written after second 00. *)
Lemma timestamp_format_witness :
  is_seconds 0x1.ffcb923a29c78p-1 = true /\
  seconds_to_vtt_timestamp 0x1.ffcb923a29c78p-1 = Ok "00:00:00.1000" /\
  exists (total : Z) (flf : float) (ms : Z),
    floor 0x1.ffcb923a29c78p-1 = Ok total /\
    is_floor 0x1.ffcb923a29c78p-1 total /\ 0 <= total /\
    float_of_int total = Ok flf /\
    round ((0x1.ffcb923a29c78p-1 - flf) * 1000)%float = Ok ms /\
    nearest_integer ((0x1.ffcb923a29c78p-1 - flf) * 1000)%float ms /\
    0 <= ms <= 1000 /\
    seconds_to_vtt_timestamp 0x1.ffcb923a29c78p-1 = Ok (clock "." total ms) /\
    seconds_to_srt_timestamp 0x1.ffcb923a29c78p-1 = Ok (clock "," total ms).
Proof.
  split; [vm_compute; reflexivity|].
  split; [vm_compute; reflexivity|].
  apply (proj1 timestamp_format). vm_compute. reflexivity.
Defined.

(** ** The emitters *)

Lemma valid_times_all (fmt : subtitle_format) (segments : list segment) :
  Forall valid_times segments -> Forall (times_format fmt) segments.
Proof.
  induction 1 as [|s l Hs _ IH]; constructor;
    [apply valid_times_format, Hs | exact IH].
Qed.

Lemma translation_body_nonempty (s : segment) :
  strip (text s) <> "" -> translation_body s <> "".
Proof.
  intros Ht. unfold translation_body.
  destruct (translation s) as [t|]; [|exact Ht].
  destruct (truthy (strip t)) eqn:E; [apply truthy_true, E | exact Ht].
Qed.

(** C1.  The translation-track emitters write, for every segment, the
    trimmed translation when the translation is present and not empty
    after trimming, and the trimmed text otherwise; so the cue body is not
    empty when the trimmed text is not. *)
Theorem translation_track_fallback (segments : list segment) (path : string)
    (w : world) :
  Forall valid_times segments ->
  write_vtt_translation segments path w
  = (Ok tt, wrote path
              (header VTT
               ++ String.concat "" (map (cue VTT Translation) (enumerate 1 segments))) w) /\
  write_srt_translation segments path w
  = (Ok tt, wrote path
              (header SRT
               ++ String.concat "" (map (cue SRT Translation) (enumerate 1 segments))) w) /\
  forall s, In s segments ->
    (forall content,
       write_translation_body s content
       = (Ok tt, content ++ cue_body Translation s ++ NL ++ NL)) /\
    cue_body Translation s
    = match translation s with
      | Some t => if String.eqb (strip t) "" then strip (text s) else strip t
      | None => strip (text s)
      end /\
    (strip (text s) <> "" -> cue_body Translation s <> "").
Proof.
  intros Hall.
  pose proof (valid_times_all VTT segments Hall) as Hv.
  pose proof (valid_times_all SRT segments Hall) as Hs.
  split; [apply write_vtt_translation_spec, Hv|].
  split; [apply write_srt_translation_spec, Hs|].
  intros s _. split; [apply write_translation_body_spec|]. split.
  - cbn [cue_body]. unfold translation_body.
    destruct (translation s) as [t|]; [|reflexivity].
    destruct (strip t); reflexivity.
  - apply translation_body_nonempty.
Qed.

Lemma sample_segments_valid : Forall valid_times sample_segments.
Proof. repeat constructor; vm_compute; reflexivity. Qed.

Lemma translation_track_fallback_witness :
  Forall valid_times sample_segments /\
  write_vtt_translation sample_segments "out.en.vtt" empty_world
  = (Ok tt, wrote "out.en.vtt"
              (header VTT
               ++ String.concat ""
                    (map (cue VTT Translation) (enumerate 1 sample_segments)))
              empty_world).
Proof.
  split; [exact sample_segments_valid|].
  apply (translation_track_fallback sample_segments "out.en.vtt" empty_world
           sample_segments_valid).
Defined.

(** C2.  Each of the four text emitters writes the header of its format
    (the line [WEBVTT] and an empty line for WebVTT, nothing for SubRip)
    and then one cue per segment, in the order of the list, numbered
    1, 2, ..., N; a cue is its number, the line of the two timestamps with
    the separator of the format, and the body followed by an empty
    line. *)
Theorem emitters_structure (segments : list segment) (path : string) (w : world) :
  Forall valid_times segments ->
  write_vtt_original segments path w
  = (Ok tt, wrote path (track_text VTT Original segments) w) /\
  write_vtt_translation segments path w
  = (Ok tt, wrote path (track_text VTT Translation segments) w) /\
  write_srt_original segments path w
  = (Ok tt, wrote path (track_text SRT Original segments) w) /\
  write_srt_translation segments path w
  = (Ok tt, wrote path (track_text SRT Translation segments) w) /\
  (forall fmt trk,
     track_text fmt trk segments
     = header fmt ++ String.concat "" (map (cue fmt trk) (enumerate 1 segments))) /\
  (forall fmt trk i s,
     cue fmt trk (i, s)
     = str_int i ++ NL
       ++ text_of (timestamp (separator fmt) (start s)) ++ " --> "
       ++ text_of (timestamp (separator fmt) (end_ s)) ++ NL
       ++ cue_body trk s ++ NL ++ NL) /\
  length (enumerate 1 segments) = length segments /\
  map fst (enumerate 1 segments) = map Z.of_nat (seq 1 (length segments)) /\
  map snd (enumerate 1 segments) = segments.
Proof.
  intros Hall.
  pose proof (valid_times_all VTT segments Hall) as Hv.
  pose proof (valid_times_all SRT segments Hall) as Hs.
  split; [apply write_vtt_original_spec, Hv|].
  split; [apply write_vtt_translation_spec, Hv|].
  split; [apply write_srt_original_spec, Hs|].
  split; [apply write_srt_translation_spec, Hs|].
  split; [reflexivity|].
  split; [intros [] trk i s; reflexivity|].
  split; [apply enumerate_length|].
  split; [apply enumerate_numbers | apply enumerate_snd].
Qed.

Lemma emitters_structure_witness :
  Forall valid_times sample_segments /\
  write_vtt_original sample_segments "out.original.vtt" empty_world
  = (Ok tt, wrote "out.original.vtt" (track_text VTT Original sample_segments)
              empty_world) /\
  write_srt_original sample_segments "out.original.srt" empty_world
  = (Ok tt, wrote "out.original.srt" (track_text SRT Original sample_segments)
              empty_world).
Proof.
  split; [exact sample_segments_valid|].
  split; apply (emitters_structure sample_segments _ empty_world sample_segments_valid).
Defined.

(** The scenario of two segments: the original track tags each text with
    its language, the translation track falls back to the text of the
    second segment. *)
Example sample_tracks :
  track_text VTT Original sample_segments
  = "WEBVTT" ++ NL ++ NL
    ++ "1" ++ NL ++ "00:00:00.000 --> 00:00:02.000" ++ NL ++ "[es] Hola" ++ NL ++ NL
    ++ "2" ++ NL ++ "00:00:02.000 --> 00:00:04.000" ++ NL ++ "[fr] Bonjour" ++ NL ++ NL
  /\ track_text SRT Translation sample_segments
  = "1" ++ NL ++ "00:00:00,000 --> 00:00:02,000" ++ NL ++ "Hello" ++ NL ++ NL
    ++ "2" ++ NL ++ "00:00:02,000 --> 00:00:04,000" ++ NL ++ "Bonjour" ++ NL ++ NL.
Proof. split; vm_compute; reflexivity. Qed.

(** ** The language classifier *)

Section Classifier.
Context `{Externals}.

Lemma detect_lang_of_text_spec (seg_text : string) (w : world) :
  (forall e, detect seg_text = Raise e -> e = LangDetectException) ->
  detect_lang_of_text seg_text w
  = (Ok (classified (detect seg_text)),
     {| fs := fs w; log := log w ++ [EvDetect seg_text] |}).
Proof.
  intros Hd. unfold detect_lang_of_text, bind, try_except, emit, lift_result, ret.
  cbn [fs log]. destruct (detect seg_text) as [code|e] eqn:E; cbn [classified].
  - destruct (startswith code "pt"); [reflexivity|].
    destruct (startswith code "es"); reflexivity.
  - rewrite (Hd e eq_refl). reflexivity.
Qed.

(** C4.  On the empty text the classifier answers the empty string and
    does not call the detector (the world, with its log of calls, is
    unchanged).  On any other text it calls the detector once and answers
    [""] when detection fails, ["pt"] or ["es"] when the detected code
    starts with one of them, and the detected code otherwise; it never
    raises. *)
Theorem classifier_contract (seg_text : string) (w : world) :
  (forall t e, detect t = Raise e -> e = LangDetectException) ->
  (seg_text = "" -> classify_text seg_text w = (Ok "", w)) /\
  (seg_text <> "" ->
   classify_text seg_text w
   = (Ok match detect seg_text with
         | Ok code =>
             if startswith code "pt" then "pt"
             else if startswith code "es" then "es"
             else code
         | Raise _ => ""
         end,
      {| fs := fs w; log := log w ++ [EvDetect seg_text] |})) /\
  exists out w', classify_text seg_text w = (Ok out, w').
Proof.
  intros Hd. unfold classify_text.
  assert (Hne : seg_text <> "" ->
          (if truthy seg_text then detect_lang_of_text seg_text else ret "") w
          = (Ok (classified (detect seg_text)),
             {| fs := fs w; log := log w ++ [EvDetect seg_text] |})).
  { intros Hs. apply truthy_true in Hs. rewrite Hs.
    apply detect_lang_of_text_spec. intros e. apply Hd. }
  split; [intros ->; reflexivity|].
  split; [exact Hne|].
  destruct seg_text as [|c r]; [eexists _, _; reflexivity|].
  eexists _, _. apply Hne. discriminate.
Qed.

End Classifier.

Lemma sample_detect_contract (t : string) (e : exn) :
  @detect sample_externals t = Raise e -> e = LangDetectException.
Proof.
  cbn [detect sample_externals].
  repeat (match goal with |- context [String.eqb ?a ?b] => destruct (String.eqb a b) end;
          [discriminate|]).
  congruence.
Qed.

Lemma classifier_contract_witness :
  (forall t e, @detect sample_externals t = Raise e -> e = LangDetectException) /\
  classify_text "" sample_world = (Ok "", sample_world) /\
  classify_text "Bom dia" sample_world
  = (Ok "pt", {| fs := fs sample_world; log := [EvDetect "Bom dia"] |}) /\
  classify_text "zzz" sample_world
  = (Ok "", {| fs := fs sample_world; log := [EvDetect "zzz"] |}).
Proof.
  split; [exact sample_detect_contract|].
  split; [|split].
  - apply (proj1 (classifier_contract "" sample_world sample_detect_contract)).
    reflexivity.
  - apply (proj1 (proj2 (classifier_contract "Bom dia" sample_world
                           sample_detect_contract))).
    discriminate.
  - apply (proj1 (proj2 (classifier_contract "zzz" sample_world
                           sample_detect_contract))).
    discriminate.
Defined.

(** ** Rules for [runs] *)

Section Rules.
Context {A B : Type}.
Implicit Types (phi : event -> Prop) (E : exn -> Prop).

Lemma runs_ret phi (Q : A -> Prop) E (a : A) : Q a -> runs (ret a) phi Q E.
Proof. intros Ha w. exists []. cbn. rewrite app_nil_r. auto. Qed.

Lemma runs_raise phi (Q : A -> Prop) E (e : exn) : E e -> runs (raise e) phi Q E.
Proof. intros He w. exists []. cbn. rewrite app_nil_r. auto. Qed.

Lemma runs_lift_result phi (Q : A -> Prop) E (r : result A) :
  match r with Ok a => Q a | Raise e => E e end -> runs (lift_result r) phi Q E.
Proof. intros Hr w. exists []. cbn. rewrite app_nil_r. auto. Qed.

(** A computation that leaves the log alone. *)
Lemma runs_silent phi (Q : A -> Prop) E (m : M A) :
  (forall w, log (snd (m w)) = log w /\
             match fst (m w) with Ok a => Q a | Raise e => E e end) ->
  runs m phi Q E.
Proof.
  intros Hm w. destruct (Hm w) as [Hl Hr]. exists [].
  rewrite app_nil_r. auto.
Qed.

Lemma runs_bind phi (Q1 : A -> Prop) (Q : B -> Prop) E (m : M A) (k : A -> M B) :
  runs m phi Q1 E -> (forall a, Q1 a -> runs (k a) phi Q E) ->
  runs (bind m k) phi Q E.
Proof.
  intros Hm Hk w. unfold bind. destruct (Hm w) as [evs [Hl [Hphi Hr]]].
  destruct (m w) as [[a|e] w1]; cbn [fst snd] in *.
  - destruct (Hk a Hr w1) as [evs' [Hl' [Hphi' Hr']]].
    exists (evs ++ evs')%list. rewrite Hl', Hl, app_assoc.
    split; [reflexivity|]. split; [apply Forall_app; auto | exact Hr'].
  - exists evs. auto.
Qed.

Lemma runs_weaken phi phi' (Q Q' : A -> Prop) E E' (m : M A) :
  runs m phi Q E ->
  (forall ev, phi ev -> phi' ev) -> (forall a, Q a -> Q' a) ->
  (forall e, E e -> E' e) ->
  runs m phi' Q' E'.
Proof.
  intros Hm Hphi HQ HE w. destruct (Hm w) as [evs [Hl [Hf Hr]]].
  exists evs. split; [exact Hl|]. split.
  - clear Hl. induction Hf; constructor; auto.
  - destruct (fst (m w)); auto.
Qed.

Lemma runs_try_except phi (Q : A -> Prop) E E1 (m handler : M A)
    (catches : exn -> bool) :
  runs m phi Q E1 ->
  (forall e, E1 e -> catches e = true -> runs handler phi Q E) ->
  (forall e, E1 e -> catches e = false -> E e) ->
  runs (try_except m catches handler) phi Q E.
Proof.
  intros Hm Hh Hc w. unfold try_except. destruct (Hm w) as [evs [Hl [Hphi Hr]]].
  destruct (m w) as [[a|e] w1]; cbn [fst snd] in *.
  - exists evs. auto.
  - destruct (catches e) eqn:Ec.
    + destruct (Hh e Hr Ec w1) as [evs' [Hl' [Hphi' Hr']]].
      exists (evs ++ evs')%list. rewrite Hl', Hl, app_assoc.
      split; [reflexivity|]. split; [apply Forall_app; auto | exact Hr'].
    + exists evs. cbn [fst snd]. auto.
Qed.

Lemma runs_try_finally phi (Q : A -> Prop) E (m : M A) (fin : M unit) :
  runs m phi Q E -> runs fin phi anything E ->
  runs (try_finally m fin) phi Q E.
Proof.
  intros Hm Hf w. unfold try_finally. destruct (Hm w) as [evs [Hl [Hphi Hr]]].
  destruct (m w) as [r w1]; cbn [fst snd] in *.
  destruct (Hf w1) as [evs' [Hl' [Hphi' Hr']]].
  destruct (fin w1) as [[u|e] w2]; cbn [fst snd] in *;
    exists (evs ++ evs')%list; rewrite Hl', Hl, app_assoc;
    (split; [reflexivity|]); (split; [apply Forall_app; auto|]); assumption.
Qed.

End Rules.

Lemma runs_emit (phi : event -> Prop) (Q : unit -> Prop) (E : exn -> Prop)
    (ev : event) :
  phi ev -> Q tt -> runs (emit ev) phi Q E.
Proof. intros Hev HQ w. exists [ev]. cbn. auto. Qed.

Lemma runs_when (phi : event -> Prop) (Q : unit -> Prop) (E : exn -> Prop)
    (b : bool) (m : M unit) :
  (b = true -> runs m phi Q E) -> Q tt -> runs (when b m) phi Q E.
Proof.
  intros Hm HQ. destruct b; cbn [when]; [auto | apply runs_ret, HQ].
Qed.

Lemma runs_for_fold {A B : Type} (phi : event -> Prop) (Inv : B -> Prop)
    (E : exn -> Prop) (l : list A) (acc : B) (body : B -> A -> M B) :
  Inv acc ->
  (forall b a, Inv b -> In a l -> runs (body b a) phi Inv E) ->
  runs (for_fold l acc body) phi Inv E.
Proof.
  revert acc. induction l as [|x l IH]; intros acc Hacc Hbody; cbn [for_fold].
  - apply runs_ret, Hacc.
  - eapply runs_bind; [apply Hbody; [exact Hacc | now left]|].
    intros b Hb. apply IH; [exact Hb|]. intros b' a Hb' Ha.
    apply Hbody; [exact Hb' | now right].
Qed.

(** ** The steps of the script *)

Section Steps.
Context `{Externals}.
Implicit Types (phi : event -> Prop) (E : exn -> Prop).

Lemma runs_print phi (Q : unit -> Prop) E (m : message) :
  phi (EvPrint m) -> Q tt -> runs (print m) phi Q E.
Proof. apply runs_emit. Qed.

Lemma runs_os_path_exists phi E (path : string) :
  runs (os_path_exists path) phi anything E.
Proof. apply runs_silent. intros w. cbn. unfold anything. auto. Qed.

Lemma runs_create_file phi E (path : string) :
  runs (create_file path) phi anything E.
Proof. apply runs_silent. intros w. cbn. unfold anything. auto. Qed.

Lemma runs_os_remove phi (path : string) :
  phi (EvRemove path) -> runs (os_remove path) phi anything anything.
Proof.
  intros Hphi. unfold os_remove.
  eapply runs_bind; [apply runs_emit with (Q := anything); [exact Hphi | exact I]|].
  intros _ _. eapply runs_bind; [apply runs_os_path_exists|].
  intros ex _. destruct (ex && os_remove_ok path).
  - apply runs_silent. intros w. cbn. unfold anything. auto.
  - apply runs_raise. exact I.
Qed.

Lemma runs_remove_if_exists phi E (path : string) :
  phi (EvRemove path) -> runs (remove_if_exists path) phi anything E.
Proof.
  intros Hphi. unfold remove_if_exists.
  eapply runs_bind; [apply runs_os_path_exists|].
  intros ex _. destruct ex; [|apply runs_ret; exact I].
  eapply runs_try_except;
    [apply runs_os_remove, Hphi | intros; apply runs_ret; exact I | discriminate].
Qed.

Lemma runs_run_ffmpeg phi (input output : string) (range : option (float * float)) :
  phi (EvFfmpeg input output range) ->
  runs (run_ffmpeg input output range) phi
    (fun _ => exit_ok (ffmpeg input output range) = true)
    (fun e => e = CalledProcessError /\ exit_ok (ffmpeg input output range) = false).
Proof.
  intros Hphi. unfold run_ffmpeg.
  eapply runs_bind; [apply runs_emit with (Q := anything); [exact Hphi | exact I]|].
  intros _ _. eapply runs_bind.
  - apply runs_when with (Q := anything); [intros _; apply runs_create_file | exact I].
  - intros _ _. destruct (exit_ok _) eqn:Ex.
    + apply runs_ret. reflexivity.
    + apply runs_raise. auto.
Qed.

Lemma runs_call_transcribe phi (model_name audio : string)
    (language task : option string) :
  phi (EvTranscribe audio language task) ->
  runs (call_transcribe model_name audio language task) phi
    (fun res => model_transcribe model_name audio language task = Ok res)
    (fun e => model_transcribe model_name audio language task = Raise e).
Proof.
  intros Hphi. unfold call_transcribe.
  eapply runs_bind; [apply runs_emit with (Q := anything); [exact Hphi | exact I]|].
  intros _ _. apply runs_lift_result.
  destruct (model_transcribe _ _ _ _); reflexivity.
Qed.

Lemma runs_transcribe_segment_audio phi (model_name path : string)
    (language task : option string) (verbose_flag : bool) :
  phi (EvPrint (MsgWhisperCall language task)) ->
  phi (EvTranscribe path (option_if_true language) (option_if_true task)) ->
  runs (transcribe_segment_audio model_name path language task verbose_flag) phi
    (fun t => exists u, t = strip u)
    (fun e => model_transcribe model_name path (option_if_true language)
                (option_if_true task) = Raise e).
Proof.
  intros Hp Ht. unfold transcribe_segment_audio.
  eapply runs_bind.
  - apply runs_when with (Q := anything);
      [intros _; apply runs_print; [exact Hp | exact I] | exact I].
  - intros _ _. eapply runs_bind; [apply runs_call_transcribe, Ht|].
    intros res _. destruct (default [] (res_segments res));
      apply runs_ret; eexists; reflexivity.
Qed.

Lemma runs_detect_lang_of_text phi (seg_text : string) :
  phi (EvDetect seg_text) ->
  runs (detect_lang_of_text seg_text) phi
    (fun out => out = classified (detect seg_text))
    (fun e => detect seg_text = Raise e /\ e <> LangDetectException).
Proof.
  intros Hphi. unfold detect_lang_of_text.
  eapply runs_bind with
    (Q1 := fun d => match d with
                    | Some code => detect seg_text = Ok code
                    | None => detect seg_text = Raise LangDetectException
                    end).
  - eapply runs_try_except with (E1 := fun e => detect seg_text = Raise e).
    + eapply runs_bind;
        [apply runs_emit with (Q := anything); [exact Hphi | exact I]|].
      intros _ _. eapply runs_bind with (Q1 := fun c => detect seg_text = Ok c).
      * apply runs_lift_result. destruct (detect seg_text); reflexivity.
      * intros c Hc. apply runs_ret. exact Hc.
    + intros e He Hc. apply runs_ret. destruct e; try discriminate. exact He.
    + intros e He Hc. split; [exact He|]. intros ->. discriminate.
  - intros [code|] Hd; rewrite Hd; cbn [classified].
    + destruct (startswith code "pt"); [apply runs_ret; reflexivity|].
      destruct (startswith code "es"); apply runs_ret; reflexivity.
    + apply runs_ret. reflexivity.
Qed.

Lemma runs_refine_segment (args : Args) (td audio_file : string) (idx : Z)
    (seg_start seg_end : float) (chosen_lang seg_text : string) :
  runs (refine_segment args td audio_file idx seg_start seg_end chosen_lang seg_text)
    (refiner_event td idx)
    (fun t => t = seg_text \/ (t <> "" /\ exists u, t = strip u))
    (fun ex => exists a l t, model_transcribe (model args) a l t = Raise ex).
Proof.
  unfold refine_segment.
  eapply runs_bind.
  { apply runs_when with (Q := anything);
      [intros _; apply runs_print; exact I | exact I]. }
  intros _ _. apply runs_try_finally;
    [|apply runs_remove_if_exists; reflexivity].
  eapply runs_try_except with
    (E1 := fun ex => ex = CalledProcessError \/
                     exists a l t, model_transcribe (model args) a l t = Raise ex).
  - eapply runs_bind.
    + eapply runs_weaken;
        [apply runs_run_ffmpeg with (phi := refiner_event td idx); reflexivity
        | auto | intros a Ha; exact Ha | intros ex [-> _]; now left].
    + intros _ _. eapply runs_bind.
      * eapply runs_weaken;
          [apply runs_transcribe_segment_audio with (phi := refiner_event td idx);
             [exact I
             | unfold refiner_event;
               destruct (option_if_true (Some chosen_lang)); [exact I | reflexivity]]
          | auto | intros a Ha; exact Ha
          | intros ex Hex; right; do 3 eexists; exact Hex].
      * intros new_text [u Hu]. destruct (truthy new_text) eqn:Et.
        -- apply runs_ret. right. split; [apply truthy_true, Et | eauto].
        -- apply runs_ret. now left.
  - intros ex _ _. eapply runs_bind.
    + apply runs_when with (Q := anything);
        [intros _; apply runs_print; exact I | exact I].
    + intros _ _. apply runs_ret. now left.
  - intros ex [->|Hex] Hc; [discriminate | exact Hex].
Qed.

Lemma runs_translate_segment (args : Args) (td audio_file : string) (idx : Z)
    (seg_start seg_end : float) :
  runs (translate_segment args td audio_file idx seg_start seg_end)
    (translator_event td idx)
    (fun tr => match tr with
               | None => True
               | Some t => t <> "" /\ exists u, t = strip u
               end)
    (fun ex => exists a l t, model_transcribe (model args) a l t = Raise ex).
Proof.
  unfold translate_segment.
  eapply runs_bind.
  { apply runs_when with (Q := anything);
      [intros _; apply runs_print; exact I | exact I]. }
  intros _ _. apply runs_try_finally;
    [|apply runs_remove_if_exists; reflexivity].
  eapply runs_try_except with
    (E1 := fun ex => ex = CalledProcessError \/
                     exists a l t, model_transcribe (model args) a l t = Raise ex).
  - eapply runs_bind.
    + eapply runs_weaken;
        [apply runs_run_ffmpeg with (phi := translator_event td idx); reflexivity
        | auto | intros a Ha; exact Ha | intros ex [-> _]; now left].
    + intros _ _. eapply runs_bind.
      * eapply runs_weaken;
          [apply runs_transcribe_segment_audio with (phi := translator_event td idx);
             [exact I | reflexivity]
          | auto | intros a Ha; exact Ha
          | intros ex Hex; right; do 3 eexists; exact Hex].
      * intros trans_text [u Hu]. destruct (truthy trans_text) eqn:Et.
        -- apply runs_ret. split; [apply truthy_true, Et | eauto].
        -- apply runs_ret. exact I.
  - intros ex _ _. eapply runs_bind.
    + apply runs_when with (Q := anything);
        [intros _; apply runs_print; exact I | exact I].
    + intros _ _. apply runs_ret. exact I.
  - intros ex [->|Hex] Hc; [discriminate | exact Hex].
Qed.

Lemma runs_classify_text (seg_text : string) :
  runs (classify_text seg_text) classifier_event
    (fun out => out = classify seg_text)
    (fun e => detect seg_text = Raise e /\ e <> LangDetectException).
Proof.
  unfold classify_text, classify. destruct (truthy seg_text).
  - apply runs_detect_lang_of_text. exact I.
  - apply runs_ret. reflexivity.
Qed.

Lemma runs_process_segment (args : Args) (td audio_file : string)
    (overall_lang : option string) (idx : Z) (seg : raw_segment) :
  runs (process_segment args td audio_file overall_lang idx seg)
    (segment_event args td idx (segment_lang seg overall_lang))
    (enriched seg overall_lang)
    (tool_raised args (segment_text seg)).
Proof.
  unfold process_segment. fold (segment_text seg).
  eapply runs_bind.
  { eapply runs_weaken;
      [apply runs_classify_text | intros ev Hev; left; exact Hev
      | intros a Ha; exact Ha | intros ex Hex; left; exact Hex]. }
  intros detected ->. fold (segment_lang seg overall_lang).
  eapply runs_bind with (Q1 := anything).
  { destruct (refine_per_segment args && in_pt_es (segment_lang seg overall_lang))
      eqn:Egate; [|apply runs_ret; exact I].
    eapply runs_weaken;
      [apply runs_refine_segment
      | intros ev Hev; right; left; split; [exact Egate | exact Hev]
      | intros a Ha; exact I | intros ex Hex; right; exact Hex]. }
  intros seg_text' _.
  eapply runs_bind with
    (Q1 := fun tr => match tr with
                     | None => True
                     | Some t => t <> "" /\ exists u, t = strip u
                     end).
  { destruct (no_translate args) eqn:Ent; cbn [negb]; [apply runs_ret; exact I|].
    eapply runs_weaken;
      [apply runs_translate_segment
      | intros ev Hev; right; right; split; [exact Ent | exact Hev]
      | intros a Ha; exact Ha | intros ex Hex; right; exact Hex]. }
  intros tr Htr. apply runs_ret. unfold enriched, translation_ok. cbn.
  repeat split. destruct tr as [t|]; [|exact I].
  destruct Htr as [Hne [u ->]]. split; [exact Hne | apply strip_trimmed].
Qed.

End Steps.

(** ** Refinement gating *)

Lemma slices_differ (td : string) (idx : Z) :
  translate_slice td idx <> refine_slice td idx.
Proof.
  unfold translate_slice, refine_slice, path_join. intros E.
  repeat apply append_inv_head in E. discriminate E.
Qed.

Lemma translator_not_refiner (td : string) (idx : Z) (ev : event) :
  translator_event td idx ev -> ~ refiner_event td idx ev.
Proof.
  destruct ev as [m| | | | | | | |]; cbn; try tauto.
  - destruct m; cbn; try tauto.
    destruct language; [tauto|]. destruct task; tauto.
  - destruct range; [|tauto]. intros -> E. exact (slices_differ td idx E).
  - destruct language; [tauto|]. destruct task; tauto.
  - intros -> E. exact (slices_differ td idx E).
Qed.

Lemma classifier_not_refiner (td : string) (idx : Z) (ev : event) :
  classifier_event ev -> ~ refiner_event td idx ev.
Proof. destruct ev; cbn; tauto. Qed.

Section Gate.
Context `{Externals}.

(** C5.  When refinement is not enabled, or the language chosen for the
    segment is neither ["pt"] nor ["es"], processing the segment produces
    no event of the segment refiner: no extraction of its slice and no
    transcription with a forced language. *)
Theorem refinement_gate (args : Args) (td audio_file : string)
    (overall_lang : option string) (idx : Z) (seg : raw_segment) :
  refine_per_segment args = false \/ in_pt_es (segment_lang seg overall_lang) = false ->
  runs (process_segment args td audio_file overall_lang idx seg)
    (fun ev => ~ refiner_event td idx ev) anything anything.
Proof.
  intros Hgate.
  eapply runs_weaken; [apply runs_process_segment | | intros; exact I | intros; exact I].
  intros ev [Hc|[[Hg _]|[_ Ht]]].
  - apply classifier_not_refiner, Hc.
  - apply andb_true_iff in Hg as [Hr Hl]. destruct Hgate; congruence.
  - apply translator_not_refiner, Ht.
Qed.

End Gate.

(** The second sample segment is classified as French: it is not
    refined although refinement is enabled. *)
Lemma refinement_gate_witness :
  (refine_per_segment sample_args = false \/
   in_pt_es (segment_lang {| raw_start := Some 2%float; raw_end := None;
                             raw_text := Some "Bonjour" |} (Some "es")) = false) /\
  runs (process_segment sample_args "/tmp/td" "/tmp/td/extracted_audio.wav" (Some "es") 1
          {| raw_start := Some 2%float; raw_end := None; raw_text := Some "Bonjour" |})
    (fun ev => ~ refiner_event "/tmp/td" 1 ev) anything anything.
Proof.
  assert (Hgate : refine_per_segment sample_args = false \/
            in_pt_es (segment_lang {| raw_start := Some 2%float; raw_end := None;
                                      raw_text := Some "Bonjour" |} (Some "es")) = false)
    by (right; vm_compute; reflexivity).
  split; [exact Hgate|].
  apply (refinement_gate sample_args "/tmp/td" "/tmp/td/extracted_audio.wav"
           (Some "es") 1 _ Hgate).
Defined.

(** ** The codes of the classifier *)

Lemma classified_cases (d : result string) :
  classified d = "" \/ classified d = "pt" \/ classified d = "es" \/ d = Ok (classified d).
Proof.
  destruct d as [code|e]; cbn [classified]; [|now left].
  destruct (startswith code "pt"); [now right; left|].
  destruct (startswith code "es"); [now right; right; left|].
  now right; right; right.
Qed.

Lemma two_letters_pt_es : two_letters "pt" /\ two_letters "es".
Proof. split; eexists _, _; repeat split. Qed.

(** C8, as stated, fails: with a detector that answers [zh-cn] the
    classifier returns [zh-cn], which is neither empty nor a code of two
    letters. *)
Lemma classifier_output_zh_cn :
  @classify_text chinese_externals "ni hao" empty_world
  = (Ok "zh-cn", {| fs := ∅; log := [EvDetect "ni hao"] |}) /\
  "zh-cn" <> "" /\ ~ two_letters "zh-cn".
Proof.
  split; [reflexivity|]. split; [discriminate|].
  intros [a [b [E _]]]. discriminate E.
Qed.

Section Codes.
Context `{Externals}.

(** C8, amended.  The classifier returns the empty string, ["pt"],
    ["es"], or the code that the detector returned, unchanged; so it
    returns the empty string or a code of two letters whenever the
    detector returns codes of two letters.  The language of a segment
    record is such an answer or the overall language that whisper
    reported. *)
Theorem classifier_output_codes (seg_text : string) :
  runs (classify_text seg_text) anything
    (fun out => out = "" \/ out = "pt" \/ out = "es" \/ detect seg_text = Ok out)
    anything /\
  runs (classify_text seg_text) anything
    (fun out => (forall code, detect seg_text = Ok code -> two_letters code) ->
                out = "" \/ two_letters out)
    anything /\
  forall args td audio_file overall_lang idx seg,
    runs (process_segment args td audio_file overall_lang idx seg) anything
      (fun r => lang r = "" \/ lang r = "pt" \/ lang r = "es" \/
                detect (segment_text seg) = Ok (lang r) \/
                overall_lang = Some (lang r))
      anything.
Proof.
  assert (Hc : classify seg_text = "" \/ classify seg_text = "pt" \/
               classify seg_text = "es" \/ detect seg_text = Ok (classify seg_text)).
  { unfold classify. destruct (truthy seg_text); [apply classified_cases | now left]. }
  split; [|split].
  - eapply runs_weaken; [apply runs_classify_text | intros; exact I | | intros; exact I].
    intros out ->. exact Hc.
  - eapply runs_weaken; [apply runs_classify_text | intros; exact I | | intros; exact I].
    intros out -> Htwo.
    destruct Hc as [->|[->|[->|Hd]]];
      [now left | right; apply two_letters_pt_es | right; apply two_letters_pt_es
      | right; apply Htwo, Hd].
  - intros args td audio_file overall_lang idx seg.
    eapply runs_weaken; [apply runs_process_segment | intros; exact I | | intros; exact I].
    intros r [_ [_ [Hl _]]]. rewrite Hl. unfold segment_lang, choose_lang.
    destruct (truthy (classify (segment_text seg))).
    + unfold classify. destruct (truthy (segment_text seg)); [|now left].
      destruct (classified_cases (detect (segment_text seg))) as [E|[E|[E|E]]]; auto 6.
    + destruct overall_lang as [l|]; cbn; [|now left].
      destruct (truthy l); [now repeat right | now left].
Qed.

End Codes.

(** ** A missing input video *)

Section MissingVideo.
Context `{Externals}.

(** C9.  When the video path does not name an existing file, [main]
    prints its message and returns: no model is loaded, nothing is
    extracted, no file is written, and the exit status is 0. *)
Theorem missing_video_aborts (args : Args) (w : world) :
  video args ∉ fs w ->
  main args w
  = (Ok tt, {| fs := fs w; log := log w ++ [EvPrint (MsgVideoNotFound (video args))] |}) /\
  exit_status (fst (main args w)) = 0.
Proof.
  intros Hv.
  assert (E : main args w
              = (Ok tt, {| fs := fs w;
                           log := log w ++ [EvPrint (MsgVideoNotFound (video args))] |})).
  { unfold main, bind, os_path_exists. rewrite bool_decide_eq_false_2 by exact Hv.
    reflexivity. }
  rewrite E. split; reflexivity.
Qed.

End MissingVideo.

Lemma missing_video_aborts_witness :
  (video sample_args ∉ fs empty_world) /\
  main sample_args empty_world
  = (Ok tt, {| fs := ∅; log := [EvPrint (MsgVideoNotFound "talk.mp4")] |}) /\
  exit_status (fst (main sample_args empty_world)) = 0.
Proof.
  assert (Hv : video sample_args ∉ fs empty_world)
    by (apply (bool_decide_unpack _); vm_compute; exact I).
  split; [exact Hv|].
  apply (missing_video_aborts sample_args empty_world Hv).
Defined.

(** ** The translation field *)

Lemma segment_event_json_ok (args : Args) (td : string) (idx : Z) (chosen : string)
    (ev : event) :
  segment_event args td idx chosen ev -> json_ok ev.
Proof.
  destruct ev; cbn; try (intros; exact I).
  unfold segment_event. cbn. tauto.
Qed.

Lemma runs_with_open_w (phi : event -> Prop) (path : string) (body : SE string unit) :
  (forall content, phi (EvWrite path content)) ->
  runs (with_open_w path body) phi anything anything.
Proof.
  intros Hphi w. unfold with_open_w. destruct (body "") as [r content].
  exists [EvWrite path content]. cbn [fst snd log].
  split; [reflexivity|]. split; [repeat constructor; apply Hphi|].
  destruct r; exact I.
Qed.

Lemma runs_json_dump (phi : event -> Prop) (E : exn -> Prop) (path : string)
    (records : list segment) :
  phi (EvJsonDump path records) -> runs (json_dump path records) phi anything E.
Proof.
  intros Hphi w. exists [EvJsonDump path records]. cbn.
  split; [reflexivity|]. split; [repeat constructor; exact Hphi | exact I].
Qed.

Section Translation.
Context `{Externals}.

Lemma runs_process_segments (args : Args) (td audio_file : string)
    (overall_lang : option string) (base_segments : list raw_segment) :
  runs (process_segments args td audio_file overall_lang base_segments)
    json_ok (Forall translation_ok) anything.
Proof.
  unfold process_segments. apply runs_for_fold; [constructor|].
  intros processed [idx seg] Hinv _.
  eapply runs_bind.
  - eapply runs_weaken;
      [apply runs_process_segment | apply segment_event_json_ok
      | intros r Hr; exact Hr | intros; exact I].
  - intros r [_ [_ [_ Hr]]]. apply runs_ret.
    apply Forall_app. split; [exact Hinv | repeat constructor; exact Hr].
Qed.

Lemma runs_saved (b : bool) (path : string) :
  runs (when b (print (MsgSaved path))) json_ok anything anything.
Proof. apply runs_when; [intros _; apply runs_print; exact I | exact I]. Qed.

Lemma runs_write_outputs (args : Args) (audio_file : string) (processed : list segment) :
  Forall translation_ok processed ->
  runs (write_outputs args audio_file processed) json_ok anything anything.
Proof.
  intros Hok. unfold write_outputs.
  eapply runs_bind; [apply runs_with_open_w; intros; exact I|]. intros _ _.
  eapply runs_bind; [apply runs_saved|]. intros _ _.
  eapply runs_bind.
  { apply runs_when with (Q := anything); [intros _|exact I].
    eapply runs_bind; [apply runs_with_open_w; intros; exact I|]. intros _ _.
    apply runs_saved. }
  intros _ _.
  eapply runs_bind; [apply runs_with_open_w; intros; exact I|]. intros _ _.
  eapply runs_bind; [apply runs_saved|]. intros _ _.
  eapply runs_bind.
  { apply runs_when with (Q := anything); [intros _|exact I].
    eapply runs_bind; [apply runs_with_open_w; intros; exact I|]. intros _ _.
    apply runs_saved. }
  intros _ _.
  eapply runs_bind; [apply runs_json_dump with (E := anything); exact Hok|]. intros _ _.
  eapply runs_bind; [apply runs_saved|]. intros _ _.
  apply runs_when; [intros _|exact I].
  eapply runs_bind; [apply runs_emit with (Q := anything); exact I|]. intros _ _.
  eapply runs_bind.
  { apply runs_when with (Q := anything); [intros _; apply runs_create_file | exact I]. }
  intros _ _. apply runs_saved.
Qed.

Lemma runs_run_in (args : Args) (td : string) :
  runs (run_in args td) json_ok anything anything.
Proof.
  unfold run_in.
  eapply runs_bind.
  { apply runs_when with (Q := anything);
      [intros _; apply runs_print; exact I | exact I]. }
  intros _ _. eapply runs_bind.
  { eapply runs_weaken;
      [apply (runs_run_ffmpeg json_ok); exact I | auto | intros; exact I | intros; exact I]. }
  intros _ _. eapply runs_bind with (Q1 := anything).
  { unfold transcribe_full_audio. eapply runs_bind.
    - apply runs_when with (Q := anything);
        [intros _; apply runs_print; exact I | exact I].
    - intros _ _. eapply runs_bind.
      + eapply runs_weaken;
          [apply (runs_call_transcribe json_ok); exact I
          | auto | intros; exact I | intros; exact I].
      + intros res _. apply runs_ret. exact I. }
  intros full _. eapply runs_bind.
  { apply runs_when with (Q := anything);
      [intros _; apply runs_print; exact I | exact I]. }
  intros _ _. eapply runs_bind; [apply runs_process_segments|].
  intros processed Hok. apply runs_write_outputs, Hok.
Qed.

Lemma runs_main (args : Args) : runs (main args) json_ok anything anything.
Proof.
  unfold main. eapply runs_bind; [apply runs_os_path_exists|].
  intros isfile _. destruct (negb isfile); [apply runs_print; exact I|].
  eapply runs_bind.
  { apply runs_when with (Q := anything);
      [intros _; apply runs_print; exact I | exact I]. }
  intros _ _. eapply runs_bind; [apply runs_emit with (Q := anything); exact I|].
  intros _ _. destruct (whisper_load_model (model args)); [apply runs_raise; exact I|].
  eapply runs_bind.
  - unfold with_temporary_directory. apply runs_try_finally; [apply runs_run_in|].
    apply runs_silent. intros w. cbn. split; [reflexivity | exact I].
  - intros _ _. apply runs_when; [intros _; apply runs_print; exact I | exact I].
Qed.

(** C7.  The translation of every enriched record is absent or a
    non-empty string without leading or trailing whitespace: this holds
    for the record that the loop body builds, for the list handed to the
    emitters, and for the records of every JSON document that [main]
    writes. *)
Theorem translation_never_empty (args : Args) :
  (forall td audio_file overall_lang idx seg,
     runs (process_segment args td audio_file overall_lang idx seg) anything
       (fun r => translation r = None \/
                 exists t, translation r = Some t /\ t <> "" /\ trimmed t)
       anything) /\
  (forall td audio_file overall_lang base_segments,
     runs (process_segments args td audio_file overall_lang base_segments) anything
       (Forall translation_ok) anything) /\
  runs (main args)
    (fun ev => match ev with
               | EvJsonDump _ records => Forall translation_ok records
               | _ => True
               end)
    anything anything.
Proof.
  split; [|split].
  - intros. eapply runs_weaken;
      [apply runs_process_segment | intros; exact I | | intros; exact I].
    intros r [_ [_ [_ Hr]]]. unfold translation_ok in Hr.
    destruct (translation r) as [t|]; [right; eauto | now left].
  - intros. eapply runs_weaken;
      [apply runs_process_segments | intros; exact I | auto | intros; exact I].
  - apply runs_main.
Qed.

End Translation.

(** ** Failures of the slice extraction *)

Section Recovery.
Context `{Externals}.

(** The [finally] clause always returns and leaves no slice file behind,
    unless the removal itself failed. *)
Lemma remove_if_exists_removes (path : string) (w : world) :
  exists w', remove_if_exists path w = (Ok tt, w') /\
             (path ∉ fs w' \/ os_remove_ok path = false).
Proof.
  unfold remove_if_exists, bind, os_path_exists, try_except, os_remove, bind, emit,
    os_path_exists, raise, ret, any_exception. cbn [fs log].
  destruct (bool_decide (path ∈ fs w)) eqn:Ex.
  - destruct (os_remove_ok path) eqn:Eok; cbn [fs log]; rewrite Ex; cbn [andb].
    + eexists. split; [reflexivity|]. left. cbn [fs].
      apply not_elem_of_difference. right. apply elem_of_singleton. reflexivity.
    + eexists. split; [reflexivity|]. now right.
  - apply bool_decide_eq_false in Ex. eexists. split; [reflexivity|]. now left.
Qed.

Lemma try_finally_removes {A : Type} (body : M A) (path : string) (w : world) :
  let w' := snd (try_finally body (remove_if_exists path) w) in
  path ∉ fs w' \/ os_remove_ok path = false.
Proof.
  unfold try_finally. destruct (body w) as [r w1].
  destruct (remove_if_exists_removes path w1) as [w2 [E Hw2]].
  rewrite E. exact Hw2.
Qed.

Lemma refine_segment_removes (args : Args) (td audio_file : string) (idx : Z)
    (seg_start seg_end : float) (chosen_lang seg_text : string) (w : world) :
  let w' := snd (refine_segment args td audio_file idx seg_start seg_end
                   chosen_lang seg_text w) in
  refine_slice td idx ∉ fs w' \/ os_remove_ok (refine_slice td idx) = false.
Proof.
  unfold refine_segment, bind at 1.
  destruct (when (verbose args) _ w) as [[u|e] w0] eqn:Ew.
  - apply try_finally_removes.
  - destruct (verbose args); discriminate Ew.
Qed.

Lemma translate_segment_removes (args : Args) (td audio_file : string) (idx : Z)
    (seg_start seg_end : float) (w : world) :
  let w' := snd (translate_segment args td audio_file idx seg_start seg_end w) in
  translate_slice td idx ∉ fs w' \/ os_remove_ok (translate_slice td idx) = false.
Proof.
  unfold translate_segment, bind at 1.
  destruct (when (verbose args) _ w) as [[u|e] w0] eqn:Ew.
  - apply try_finally_removes.
  - destruct (verbose args); discriminate Ew.
Qed.

(** A failed extraction is caught: the refiner keeps the text. *)
Lemma refine_segment_failure (args : Args) (td audio_file : string) (idx : Z)
    (seg_start seg_end : float) (chosen_lang seg_text : string) (w : world) :
  exit_ok (ffmpeg audio_file (refine_slice td idx) (Some (seg_start, seg_end))) = false ->
  fst (refine_segment args td audio_file idx seg_start seg_end chosen_lang seg_text w)
  = Ok seg_text.
Proof.
  intros Hfail.
  unfold refine_segment, bind at 1.
  destruct (when (verbose args) _ w) as [[u|e] w0] eqn:Ew;
    [|destruct (verbose args); discriminate Ew].
  unfold try_finally.
  match goal with |- context [try_except ?m ?c ?h w0] =>
    assert (Hbody : fst (try_except m c h w0) = Ok seg_text) end.
  { unfold try_except, extract_audio_segment, run_ffmpeg, bind at 1 2 3, emit.
    rewrite Hfail.
    destruct (when (output_written _) _ _) as [[u'|e'] w1] eqn:Ec.
    - cbn [raise is_CalledProcessError].
      unfold bind. destruct (verbose args); reflexivity.
    - destruct (output_written _); discriminate Ec. }
  destruct (try_except _ _ _ w0) as [r w1]. cbn [fst] in Hbody. subst r.
  destruct (remove_if_exists_removes (refine_slice td idx) w1) as [w2 [E _]].
  rewrite E. reflexivity.
Qed.

(** A failed extraction is caught: the translation stays absent. *)
Lemma translate_segment_failure (args : Args) (td audio_file : string) (idx : Z)
    (seg_start seg_end : float) (w : world) :
  exit_ok (ffmpeg audio_file (translate_slice td idx) (Some (seg_start, seg_end))) = false ->
  fst (translate_segment args td audio_file idx seg_start seg_end w) = Ok None.
Proof.
  intros Hfail.
  unfold translate_segment, bind at 1.
  destruct (when (verbose args) _ w) as [[u|e] w0] eqn:Ew;
    [|destruct (verbose args); discriminate Ew].
  unfold try_finally.
  match goal with |- context [try_except ?m ?c ?h w0] =>
    assert (Hbody : fst (try_except m c h w0) = Ok None) end.
  { unfold try_except, extract_audio_segment, run_ffmpeg, bind at 1 2 3, emit.
    rewrite Hfail.
    destruct (when (output_written _) _ _) as [[u'|e'] w1] eqn:Ec.
    - cbn [raise is_CalledProcessError].
      unfold bind. destruct (verbose args); reflexivity.
    - destruct (output_written _); discriminate Ec. }
  destruct (try_except _ _ _ w0) as [r w1]. cbn [fst] in Hbody. subst r.
  destruct (remove_if_exists_removes (translate_slice td idx) w1) as [w2 [E _]].
  rewrite E. reflexivity.
Qed.

End Recovery.

(** ** A run completes *)

Section Completion.
Context `{Externals}.

Lemma write_outputs_returns (args : Args) (audio_file : string)
    (processed : list segment) (w : world) :
  Forall valid_times processed ->
  exists w' evs,
    write_outputs args audio_file processed w = (Ok tt, w') /\
    log w' = (log w ++ evs)%list /\ outputs_written args processed evs.
Proof.
  intros Hall.
  pose proof (valid_times_all VTT processed Hall) as Hv.
  pose proof (valid_times_all SRT processed Hall) as Hs.
  unfold write_outputs, outputs_written.
  destruct (verbose args), (no_translate args), (keep_audio args);
    cbn [when negb];
    unfold bind, print, emit, json_dump, create_file, ret, when.
  all: repeat first
         [ rewrite (write_vtt_original_spec processed _ _ Hv)
         | rewrite (write_vtt_translation_spec processed _ _ Hv)
         | rewrite (write_srt_original_spec processed _ _ Hs)
         | rewrite (write_srt_translation_spec processed _ _ Hs) ];
       unfold wrote; cbn [fs log].
  all: try destruct (cp_writes _ _); unfold ret; cbn [fs log].
  all: eexists _, _; (split; [reflexivity|]); cbn [log]; rewrite <- ?app_assoc;
       (split; [reflexivity|]); cbn [app].
  all: repeat split; try discriminate; intros; in_list.
Qed.

Lemma process_segment_returns (args : Args) (td audio_file : string)
    (overall_lang : option string) (idx : Z) (seg : raw_segment) (w : world) :
  detector_contract -> whisper_answers (model args) ->
  exists r w' evs,
    process_segment args td audio_file overall_lang idx seg w = (Ok r, w') /\
    enriched seg overall_lang r /\ log w' = (log w ++ evs)%list.
Proof.
  intros Hd Hw.
  destruct (runs_process_segment args td audio_file overall_lang idx seg w)
    as [evs [Hl [_ Hr]]].
  destruct (process_segment args td audio_file overall_lang idx seg w)
    as [[r|ex] w']; cbn [fst snd] in *.
  - exists r, w', evs. auto.
  - exfalso. destruct Hr as [[Hex Hne]|[a [l [t Hex]]]].
    + apply Hne. eapply Hd, Hex.
    + destruct (Hw a l t) as [res Hres]. congruence.
Qed.

Lemma process_segments_from (args : Args) (td audio_file : string)
    (overall_lang : option string) (base_segments : list raw_segment) :
  detector_contract -> whisper_answers (model args) ->
  forall (i : Z) (acc : list segment) (w : world),
  exists rs w' evs,
    for_fold (enumerate i base_segments) acc
      (fun processed '(idx, seg) =>
         seg_dict <- process_segment args td audio_file overall_lang idx seg ;;
         ret (processed ++ [seg_dict])%list) w
    = (Ok (acc ++ rs)%list, w') /\
    Forall2 (fun seg r => enriched seg overall_lang r) base_segments rs /\
    log w' = (log w ++ evs)%list.
Proof.
  intros Hd Hw. induction base_segments as [|seg l IH]; intros i acc w.
  - exists [], w, []. cbn. rewrite !app_nil_r. auto.
  - cbn [enumerate for_fold]. unfold bind at 1 2.
    destruct (process_segment_returns args td audio_file overall_lang i seg w Hd Hw)
      as [r [w1 [evs1 [E1 [Hr Hl1]]]]].
    rewrite E1. cbn [ret].
    destruct (IH (i + 1) (acc ++ [r])%list w1) as [rs [w2 [evs2 [E2 [Hrs Hl2]]]]].
    rewrite E2. exists (r :: rs), w2, (evs1 ++ evs2)%list.
    rewrite <- app_assoc. split; [reflexivity|].
    split; [constructor; assumption|].
    rewrite Hl2, Hl1, app_assoc. reflexivity.
Qed.

Lemma process_segments_returns (args : Args) (td audio_file : string)
    (overall_lang : option string) (base_segments : list raw_segment) (w : world) :
  detector_contract -> whisper_answers (model args) ->
  exists processed w' evs,
    process_segments args td audio_file overall_lang base_segments w
    = (Ok processed, w') /\
    Forall2 (fun seg r => enriched seg overall_lang r) base_segments processed /\
    log w' = (log w ++ evs)%list.
Proof.
  intros Hd Hw. unfold process_segments.
  destruct (process_segments_from args td audio_file overall_lang base_segments
              Hd Hw 0 [] w) as [rs [w' [evs [E [Hrs Hl]]]]].
  exists rs, w', evs. auto.
Qed.

Lemma enriched_valid_times (overall_lang : option string)
    (base_segments : list raw_segment) (processed : list segment) :
  Forall raw_times_valid base_segments ->
  Forall2 (fun seg r => enriched seg overall_lang r) base_segments processed ->
  Forall valid_times processed.
Proof.
  intros Hall H2. induction H2 as [|seg r l rs Hr _ IH]; [constructor|].
  inversion Hall as [|? ? [Hs He] Hl]; subst. constructor; [|apply IH, Hl].
  destruct Hr as [Es [Ee _]]. split; [rewrite Es | rewrite Ee]; assumption.
Qed.

Lemma outputs_written_app (args : Args) (processed : list segment)
    (before evs after : list event) :
  outputs_written args processed evs ->
  outputs_written args processed (before ++ evs ++ after)%list.
Proof.
  unfold outputs_written. intros [H1 [H2 [H3 H4]]].
  assert (Hin : forall ev, In ev evs -> In ev (before ++ evs ++ after)%list).
  { intros ev Hev. apply in_or_app. right. apply in_or_app. now left. }
  split; [apply Hin, H1|]. split; [apply Hin, H2|]. split; [|apply Hin, H4].
  intros Hnt. destruct (H3 Hnt) as [H5 H6]. split; apply Hin; assumption.
Qed.

Lemma when_print_returns (b : bool) (m : message) (w : world) :
  exists w' evs, when b (print m) w = (Ok tt, w') /\ log w' = (log w ++ evs)%list.
Proof.
  destruct b; cbn.
  - eexists _, _. split; reflexivity.
  - exists w, []. rewrite app_nil_r. split; reflexivity.
Qed.

Lemma run_ffmpeg_returns (input output : string) (range : option (float * float))
    (w : world) :
  exit_ok (ffmpeg input output range) = true ->
  exists w' evs, run_ffmpeg input output range w = (Ok tt, w') /\
                 log w' = (log w ++ evs)%list.
Proof.
  intros Hok. unfold run_ffmpeg, bind, emit, when, create_file, ret.
  rewrite Hok. destruct (output_written _); eexists _, _; split; reflexivity.
Qed.

Lemma transcribe_full_audio_returns (model_name audio_path : string)
    (verbose_flag : bool) (res : whisper_result) (w : world) :
  model_transcribe model_name audio_path None None = Ok res ->
  exists w' evs,
    transcribe_full_audio model_name audio_path verbose_flag w
    = (Ok (default [] (res_segments res), res_language res), w') /\
    log w' = (log w ++ evs)%list.
Proof.
  intros Hres. unfold transcribe_full_audio, call_transcribe, bind, emit, lift_result,
    when, print, emit, ret.
  rewrite Hres. destruct verbose_flag; eexists _, _; cbn [log];
    rewrite <- ?app_assoc; split; reflexivity.
Qed.

Lemma run_in_returns (args : Args) (td : string) (res : whisper_result) (w : world) :
  detector_contract -> whisper_answers (model args) ->
  exit_ok (ffmpeg (video args) (path_join td "extracted_audio.wav") None) = true ->
  model_transcribe (model args) (path_join td "extracted_audio.wav") None None = Ok res ->
  Forall raw_times_valid (default [] (res_segments res)) ->
  exists processed w' evs,
    run_in args td w = (Ok tt, w') /\
    Forall2 (fun seg r => enriched seg (res_language res) r)
      (default [] (res_segments res)) processed /\
    log w' = (log w ++ evs)%list /\ outputs_written args processed evs.
Proof.
  intros Hd Hw Hok Hres Htimes. unfold run_in.
  destruct (when_print_returns (verbose args)
              (MsgExtractingAudio (path_join td "extracted_audio.wav")) w)
    as [w1 [evs1 [E1 Hl1]]].
  unfold bind at 1. rewrite E1.
  destruct (run_ffmpeg_returns (video args) (path_join td "extracted_audio.wav") None w1 Hok)
    as [w2 [evs2 [E2 Hl2]]].
  unfold bind at 1. unfold extract_audio. rewrite E2.
  destruct (transcribe_full_audio_returns (model args)
              (path_join td "extracted_audio.wav") (verbose args) res w2 Hres)
    as [w3 [evs3 [E3 Hl3]]].
  unfold bind at 1. rewrite E3. cbn [fst snd].
  destruct (when_print_returns (verbose args)
              (MsgInitialSegments (length (default [] (res_segments res)))
                 (res_language res)) w3)
    as [w4 [evs4 [E4 Hl4]]].
  unfold bind at 1. rewrite E4.
  destruct (process_segments_returns args td (path_join td "extracted_audio.wav")
              (res_language res) (default [] (res_segments res)) w4 Hd Hw)
    as [processed [w5 [evs5 [E5 [Hrs Hl5]]]]].
  unfold bind at 1. rewrite E5.
  destruct (write_outputs_returns args (path_join td "extracted_audio.wav") processed w5
              (enriched_valid_times _ _ _ Htimes Hrs))
    as [w6 [evs6 [E6 [Hl6 Hout]]]].
  rewrite E6. exists processed, w6, ((evs1 ++ evs2 ++ evs3 ++ evs4 ++ evs5) ++ evs6 ++ [])%list.
  split; [reflexivity|]. split; [exact Hrs|]. split.
  - rewrite Hl6, Hl5, Hl4, Hl3, Hl2, Hl1, app_nil_r, <- !app_assoc. reflexivity.
  - apply outputs_written_app, Hout.
Qed.

Lemma main_returns (args : Args) (res : whisper_result) (w : world) :
  video args ∈ fs w ->
  whisper_load_model (model args) = None ->
  detector_contract -> whisper_answers (model args) ->
  exit_ok (ffmpeg (video args) (path_join tempdir "extracted_audio.wav") None) = true ->
  model_transcribe (model args) (path_join tempdir "extracted_audio.wav") None None
  = Ok res ->
  Forall raw_times_valid (default [] (res_segments res)) ->
  exists processed w' evs,
    main args w = (Ok tt, w') /\
    Forall2 (fun seg r => enriched seg (res_language res) r)
      (default [] (res_segments res)) processed /\
    log w' = (log w ++ evs)%list /\ outputs_written args processed evs.
Proof.
  intros Hv Hload Hd Hw Hok Hres Htimes. unfold main.
  unfold bind at 1. unfold os_path_exists at 1.
  rewrite bool_decide_eq_true_2 by exact Hv. cbn [negb].
  destruct (when_print_returns (verbose args) (MsgLoadingModel (model args)) w)
    as [w1 [evs1 [E1 Hl1]]].
  unfold bind at 1. rewrite E1. unfold bind at 1. unfold emit at 1. rewrite Hload.
  set (w2 := {| fs := fs w1; log := log w1 ++ [EvLoadModel (model args)] |}).
  destruct (run_in_returns args tempdir res w2 Hd Hw Hok Hres Htimes)
    as [processed [w3 [evs3 [E3 [Hrs [Hl3 Hout]]]]]].
  unfold bind at 1. unfold with_temporary_directory, try_finally. rewrite E3.
  set (w4 := {| fs := filter (fun p => is_under tempdir p = false) (fs w3);
                log := log w3 |}).
  destruct (when_print_returns (verbose args) MsgDone w4) as [w5 [evs5 [E5 Hl5]]].
  rewrite E5. exists processed, w5, ((evs1 ++ [EvLoadModel (model args)]) ++ evs3 ++ evs5)%list.
  split; [reflexivity|]. split; [exact Hrs|]. split.
  - rewrite Hl5. unfold w4. cbn [log]. rewrite Hl3. unfold w2. cbn [log].
    rewrite Hl1, <- !app_assoc. reflexivity.
  - apply outputs_written_app, Hout.
Qed.

(** C6.  Assume the run reaches the loop (the video exists, the model
    loads, the audio of the whole video is extracted and transcribed into
    segments with valid times) and that the detector and whisper do not
    raise.  Then, whatever slice extractions fail:
    - a refinement whose extraction fails returns the text unchanged, and
      a translation whose extraction fails returns no translation;
    - after either step the slice file is gone, unless its removal failed
      (which is ignored);
    - the processing of every segment returns a record: the failure does
      not leave the loop body;
    - [main] returns, with one record per raw segment, in order, and
      writes every final file. *)
Theorem extraction_failure_recovery (args : Args) (res : whisper_result) (w : world) :
  video args ∈ fs w ->
  whisper_load_model (model args) = None ->
  detector_contract ->
  whisper_answers (model args) ->
  exit_ok (ffmpeg (video args) (path_join tempdir "extracted_audio.wav") None) = true ->
  model_transcribe (model args) (path_join tempdir "extracted_audio.wav") None None
  = Ok res ->
  Forall raw_times_valid (default [] (res_segments res)) ->
  (forall td audio_file idx seg_start seg_end chosen_lang seg_text w0,
     exit_ok (ffmpeg audio_file (refine_slice td idx) (Some (seg_start, seg_end))) = false ->
     fst (refine_segment args td audio_file idx seg_start seg_end chosen_lang seg_text w0)
     = Ok seg_text) /\
  (forall td audio_file idx seg_start seg_end w0,
     exit_ok (ffmpeg audio_file (translate_slice td idx) (Some (seg_start, seg_end))) = false ->
     fst (translate_segment args td audio_file idx seg_start seg_end w0) = Ok None) /\
  (forall td audio_file idx seg_start seg_end chosen_lang seg_text w0,
     let w1 := snd (refine_segment args td audio_file idx seg_start seg_end
                      chosen_lang seg_text w0) in
     refine_slice td idx ∉ fs w1 \/ os_remove_ok (refine_slice td idx) = false) /\
  (forall td audio_file idx seg_start seg_end w0,
     let w1 := snd (translate_segment args td audio_file idx seg_start seg_end w0) in
     translate_slice td idx ∉ fs w1 \/ os_remove_ok (translate_slice td idx) = false) /\
  (forall td audio_file overall_lang idx seg w0,
     exists r w1,
       process_segment args td audio_file overall_lang idx seg w0 = (Ok r, w1) /\
       enriched seg overall_lang r) /\
  exists processed w' evs,
    main args w = (Ok tt, w') /\
    length processed = length (default [] (res_segments res)) /\
    Forall2 (fun seg r => enriched seg (res_language res) r)
      (default [] (res_segments res)) processed /\
    log w' = (log w ++ evs)%list /\
    outputs_written args processed evs.
Proof.
  intros Hv Hload Hd Hw Hok Hres Htimes.
  split; [intros; now apply refine_segment_failure|].
  split; [intros; now apply translate_segment_failure|].
  split; [intros; apply refine_segment_removes|].
  split; [intros; apply translate_segment_removes|].
  split.
  - intros td audio_file overall_lang idx seg w0.
    destruct (process_segment_returns args td audio_file overall_lang idx seg w0 Hd Hw)
      as [r [w1 [evs [E [Hr _]]]]].
    exists r, w1. auto.
  - destruct (main_returns args res w Hv Hload Hd Hw Hok Hres Htimes)
      as [processed [w' [evs [E [Hrs [Hl Hout]]]]]].
    exists processed, w', evs. split; [exact E|].
    split; [symmetry; eapply Forall2_length; exact Hrs|]. auto.
Qed.

End Completion.

Lemma sample_whisper_answers : @whisper_answers sample_externals (model sample_args).
Proof.
  intros audio language task. cbn [model_transcribe sample_externals].
  destruct (String.eqb audio _); eexists; reflexivity.
Qed.

Lemma sample_raw_times_valid :
  Forall raw_times_valid (default [] (res_segments sample_result)).
Proof. repeat constructor; vm_compute; reflexivity. Qed.

(** The sample run: the extraction of the translation slice of the second
    segment fails, the run completes and writes every file. *)
Lemma extraction_failure_recovery_witness :
  (video sample_args ∈ fs sample_world) /\
  whisper_load_model (model sample_args) = None /\
  @detector_contract sample_externals /\
  @whisper_answers sample_externals (model sample_args) /\
  exit_ok (ffmpeg (video sample_args) (path_join tempdir "extracted_audio.wav") None)
  = true /\
  model_transcribe (model sample_args) (path_join tempdir "extracted_audio.wav") None None
  = Ok sample_result /\
  Forall raw_times_valid (default [] (res_segments sample_result)) /\
  exit_ok (ffmpeg "/tmp/td/extracted_audio.wav" (translate_slice "/tmp/td" 1)
             (Some (2%float, 2.5%float))) = false /\
  fst (translate_segment sample_args "/tmp/td" "/tmp/td/extracted_audio.wav" 1
         2%float 2.5%float sample_world) = Ok None /\
  exists processed w' evs,
    main sample_args sample_world = (Ok tt, w') /\
    length processed = 2%nat /\
    log w' = evs /\ outputs_written sample_args processed evs.
Proof.
  assert (Hv : video sample_args ∈ fs sample_world)
    by (apply (bool_decide_unpack _); vm_compute; exact I).
  assert (Hfail : exit_ok (ffmpeg "/tmp/td/extracted_audio.wav"
                             (translate_slice "/tmp/td" 1)
                             (Some (2%float, 2.5%float))) = false)
    by (vm_compute; reflexivity).
  pose proof (extraction_failure_recovery sample_args sample_result sample_world
                Hv eq_refl sample_detect_contract sample_whisper_answers eq_refl eq_refl
                sample_raw_times_valid) as [_ [Htr [_ [_ [_ Hrun]]]]].
  do 8 (split; [first [exact Hv | reflexivity | exact sample_detect_contract
                        | exact sample_whisper_answers | exact sample_raw_times_valid
                        | exact Hfail]|]).
  split; [apply Htr, Hfail|].
  destruct Hrun as [processed [w' [evs [E [Hlen [_ [Hl Hout]]]]]]].
  exists processed, w', evs. auto.
Defined.

(** The interactions of the sample run, in order.  The first segment is
    Spanish: it is refined and translated.  The second is French: it is not
    refined, and the extraction of its translation slice fails, after
    which the slice is removed and the run goes on to write the five
    files. *)
Example sample_run :
  fst (main sample_args sample_world) = Ok tt /\
  log (snd (main sample_args sample_world))
  = [ EvLoadModel "small";
      EvFfmpeg "talk.mp4" "/tmp/td/extracted_audio.wav" None;
      EvTranscribe "/tmp/td/extracted_audio.wav" None None;
      EvDetect "Hola";
      EvFfmpeg "/tmp/td/extracted_audio.wav" "/tmp/td/segment_1.wav"
        (Some (0, 2)%float);
      EvTranscribe "/tmp/td/segment_1.wav" (Some "es") None;
      EvRemove "/tmp/td/segment_1.wav";
      EvFfmpeg "/tmp/td/extracted_audio.wav" "/tmp/td/segment_1_t.wav"
        (Some (0, 2)%float);
      EvTranscribe "/tmp/td/segment_1_t.wav" None (Some "translate");
      EvRemove "/tmp/td/segment_1_t.wav";
      EvDetect "Bonjour";
      EvFfmpeg "/tmp/td/extracted_audio.wav" "/tmp/td/segment_2_t.wav"
        (Some (2, 2.5)%float);
      EvRemove "/tmp/td/segment_2_t.wav";
      EvWrite "out.original.vtt" (track_text VTT Original sample_processed);
      EvWrite "out.en.vtt" (track_text VTT Translation sample_processed);
      EvWrite "out.original.srt" (track_text SRT Original sample_processed);
      EvWrite "out.en.srt" (track_text SRT Translation sample_processed);
      EvJsonDump "out.json" sample_processed ] /\
  elements (fs (snd (main sample_args sample_world)))
  = [ "out.original.srt"; "out.original.vtt"; "out.en.srt"; "out.en.vtt";
      "out.json"; "talk.mp4" ].
Proof. repeat split; vm_compute; reflexivity. Qed.

(** ** Adding half a second *)

Lemma SF64add_pos (m1 m2 : positive) (e1 e2 : Z) :
  SF64add (S754_finite false m1 e1) (S754_finite false m2 e2)
  = binary_normalize prec emax
      (Z.pos m1 * 2 ^ (e1 - Z.min e1 e2) + Z.pos m2 * 2 ^ (e2 - Z.min e1 e2))
      (Z.min e1 e2) false.
Proof.
  unfold SF64add, SFadd. cbn [cond_Zopp].
  pose proof (shl_align_spec m1 e1 (Z.min e1 e2)) as [_ H1].
  pose proof (shl_align_spec m2 e2 (Z.min e1 e2)) as [_ H2].
  rewrite H1, H2.
  replace (Z.min e1 (Z.min e1 e2)) with (Z.min e1 e2) by lia.
  replace (Z.min e2 (Z.min e1 e2)) with (Z.min e1 e2) by lia.
  reflexivity.
Qed.

(** Comparing two positive floats in canonical form compares their
    values. *)
Lemma SFltb_canonical (m1 m2 : positive) (e1 e2 k : Z) :
  bounded prec emax m1 e1 = true -> bounded prec emax m2 e2 = true ->
  k <= e1 -> k <= e2 ->
  Z.pos m1 * 2 ^ (e1 - k) < Z.pos m2 * 2 ^ (e2 - k) ->
  SFltb (S754_finite false m1 e1) (S754_finite false m2 e2) = true.
Proof.
  intros Hb1 Hb2 Hk1 Hk2 Hlt.
  apply bounded_canonical in Hb1 as [Hc1 _]. apply bounded_canonical in Hb2 as [Hc2 _].
  unfold SFltb, SFcompare.
  destruct (Z.compare_spec e1 e2) as [Heq|Hlt12|Hgt12]; [|reflexivity|exfalso].
  - subst e2. assert (0 < 2 ^ (e1 - k)) by (apply pow2_pos; lia).
    assert (Hm : Z.pos m1 < Z.pos m2) by nia.
    rewrite Pos.compare_cont_spec. cbn [Pos.switch_Eq].
    apply Pos.compare_lt_iff in Hm. now rewrite Hm.
  - pose proof (digits2_pos_bounds m1) as [Hlo1 _].
    pose proof (digits2_pos_bounds m2) as [_ Hhi2].
    assert (Hd1 : Z.pos (digits2_pos m1) = 53) by lia.
    rewrite Hd1 in Hlo1. change (2 ^ (53 - 1)) with (2 ^ 52) in Hlo1.
    assert (Hm2 : Z.pos m2 < 2 ^ 53)
      by (eapply Z.lt_le_trans; [exact Hhi2 | apply Z.pow_le_mono_r; lia]).
    assert (Hp : 0 < 2 ^ (e2 - k)) by (apply pow2_pos; lia).
    assert (E : 2 ^ (e1 - k) = 2 ^ (e1 - e2) * 2 ^ (e2 - k))
      by (rewrite <- Z.pow_add_r by lia; f_equal; lia).
    assert (H2 : 2 <= 2 ^ (e1 - e2)).
    { change 2 with (2 ^ 1) at 1. apply Z.pow_le_mono_r; lia. }
    rewrite E in Hlt. change (2 ^ 53) with (2 * 2 ^ 52) in Hm2. nia.
Qed.

(** Rounding [X + 2^h] on a grid of step [2^n] that is not coarser than
    [2^(h+1)] gives more than [X]. *)
Lemma rne_add_half (X h n : Z) :
  0 < X -> 0 <= h -> 0 < n <= h + 1 ->
  (n = h + 1 -> X < 2 ^ (52 + n) <= X + 2 ^ h) ->
  X < rne (X + 2 ^ h) n * 2 ^ n.
Proof.
  intros HX Hh Hn Htie.
  assert (HP : 0 < 2 ^ n) by (apply pow2_pos; lia).
  assert (HH : 0 < 2 ^ h) by (apply pow2_pos; lia).
  assert (HPH : 2 ^ n <= 2 * 2 ^ h).
  { replace (2 * 2 ^ h) with (2 ^ (h + 1)) by (rewrite Z.pow_add_r by lia; lia).
    apply Z.pow_le_mono_r; lia. }
  pose proof (Z.div_mod (X + 2 ^ h) (2 ^ n) ltac:(lia)) as Hdm.
  pose proof (Z.mod_pos_bound (X + 2 ^ h) (2 ^ n) HP) as Hrem.
  unfold rne.
  set (q := (X + 2 ^ h) / 2 ^ n) in *. set (r := (X + 2 ^ h) mod 2 ^ n) in *.
  destruct (Z.compare_spec (2 * r) (2 ^ n)) as [Heq|Hlt|Hgt]; [|nia|nia].
  destruct (Z.eq_dec n (h + 1)) as [En|En].
  - exfalso. destruct (Htie En) as [Hx52 HS52].
    assert (E52 : 2 ^ (52 + n) = 2 ^ 52 * 2 ^ n) by (rewrite Z.pow_add_r by lia; lia).
    assert (EH : 2 * 2 ^ h = 2 ^ n)
      by (rewrite En, Z.pow_add_r by lia; lia).
    assert (Hq : 2 ^ 52 <= q) by nia.
    nia.
  - assert (HPH' : 2 ^ n <= 2 ^ h) by (apply Z.pow_le_mono_r; lia).
    destruct (Z.even q); nia.
Qed.

(** Below [2^52] seconds, half a second later is later. *)
Lemma add_half_greater (x : float) :
  is_seconds x = true -> (x <? 0x1p52)%float = true ->
  (x <? x + 0.5)%float = true.
Proof.
  intros Hx H52. rewrite ltb_spec in *. rewrite add_spec.
  pose proof (Prim2SF_valid (x + 0.5)%float) as Hvalid. rewrite add_spec in Hvalid.
  change (Prim2SF 0.5) with (S754_finite false 4503599627370496 (-53)) in *.
  change (Prim2SF 0x1p52) with (S754_finite false 4503599627370496 0) in H52.
  destruct (is_seconds_cases x Hx) as [[s Hs]|[m [e [Hf Hb]]]].
  { rewrite Hs. destruct s; reflexivity. }
  rewrite Hf in *.
  pose proof (bounded_canonical m e Hb) as [Hc He971].
  pose proof (digits2_pos_bounds m) as [Hmlo Hmhi].
  assert (He : e < 0).
  { unfold SFltb, SFcompare in H52.
    destruct (Z.compare_spec e 0) as [E0|Hlt|Hgt]; [|exact Hlt|discriminate].
    exfalso. subst e.
    assert (Hd : Z.pos (digits2_pos m) = 53) by lia.
    rewrite Hd in Hmlo. change (2 ^ (53 - 1)) with 4503599627370496 in Hmlo.
    rewrite Pos.compare_cont_spec in H52. cbn [Pos.switch_Eq] in H52.
    destruct (Pos.compare_spec m 4503599627370496) as [?|Hlt|?]; try discriminate.
    apply Pos2Z.pos_lt_pos in Hlt. lia. }
  assert (Hm53 : Z.pos m < 2 ^ 53)
    by (eapply Z.lt_le_trans; [exact Hmhi | apply Z.pow_le_mono_r; lia]).
  rewrite SF64add_pos in *.
  set (ez := Z.min e (-53)) in *.
  assert (Hez : ez <= e /\ ez <= -53) by (unfold ez; lia).
  set (X := Z.pos m * 2 ^ (e - ez)) in *.
  assert (EH : 4503599627370496 * 2 ^ (-53 - ez) = 2 ^ (-1 - ez)).
  { change 4503599627370496 with (2 ^ 52). rewrite <- Z.pow_add_r by lia.
    f_equal. lia. }
  rewrite EH in *.
  assert (HX : 0 < X) by (unfold X; apply Z.mul_pos_pos; [lia | apply pow2_pos; lia]).
  assert (HH : 0 < 2 ^ (-1 - ez)) by (apply pow2_pos; lia).
  assert (HX52 : X < 2 ^ (52 - ez)).
  { unfold X. replace (52 - ez) with (53 + (-1 - ez)) by lia.
    rewrite Z.pow_add_r by lia.
    assert (2 ^ (e - ez) <= 2 ^ (-1 - ez)) by (apply Z.pow_le_mono_r; lia).
    assert (0 < 2 ^ (e - ez)) by (apply pow2_pos; lia). nia. }
  assert (HH52 : 2 ^ (-1 - ez) <= 2 ^ (52 - ez)) by (apply Z.pow_le_mono_r; lia).
  destruct (X + 2 ^ (-1 - ez)) as [|Sp|Sp] eqn:ES; try lia.
  rewrite binary_normalize_pos in *. rewrite fexp_64 in *.
  set (dS := Z.pos (digits2_pos Sp)) in *.
  pose proof (digits2_pos_bounds Sp) as [HSlo HShi]. fold dS in HSlo, HShi.
  assert (HdS : dS <= 53 - ez).
  { apply digits2_pos_le; [lia|].
    replace (53 - ez) with (1 + (52 - ez)) by lia. rewrite Z.pow_add_r by lia. lia. }
  set (e0 := Z.max (dS + ez - 53) (-1074)) in *.
  assert (He0 : e0 <= 0) by (unfold e0; lia).
  set (k := Z.min ez e0).
  assert (Hm1 : Z.pos m * 2 ^ (e - k)
                < round_mantissa (Z.pos Sp) ez e0 * 2 ^ (e0 - k)).
  { unfold round_mantissa. destruct (Z.leb_spec e0 ez) as [Hle|Hgt].
    - replace k with e0 by (unfold k; lia). rewrite Z.sub_diag, Z.mul_1_r.
      replace (e - e0) with ((e - ez) + (ez - e0)) by lia.
      rewrite Z.pow_add_r, Z.mul_assoc by lia. fold X.
      apply Z.mul_lt_mono_pos_r; [apply pow2_pos; lia | lia].
    - replace k with ez by (unfold k; lia). fold X. rewrite <- ES.
      apply rne_add_half; [exact HX | lia | lia |].
      intros En. replace (52 + (e0 - ez)) with (52 - ez) by lia.
      split; [exact HX52|]. rewrite ES.
      eapply Z.le_trans; [|exact HSlo]. apply Z.pow_le_mono_r; [lia|].
      unfold e0 in En. lia. }
  assert (Hpos : 0 < round_mantissa (Z.pos Sp) ez e0).
  { assert (0 < 2 ^ (e0 - k)) by (apply pow2_pos; unfold k; lia).
    assert (0 < Z.pos m * 2 ^ (e - k))
      by (apply Z.mul_pos_pos; [lia | apply pow2_pos; unfold k; lia]).
    nia. }
  destruct (finish_finite false (round_mantissa (Z.pos Sp) ez e0) e0 Hpos ltac:(lia))
    as [m' [e' [Hfin Hrel]]].
  rewrite Hfin in *. cbn [valid_binary] in Hvalid.
  apply (SFltb_canonical m m' e e' k Hb Hvalid);
    [unfold k; lia | destruct Hrel as [[_ ->]|[_ [_ ->]]]; unfold k; lia |].
  destruct Hrel as [[-> ->]|[Hc53 [Hm' ->]]]; [exact Hm1|].
  rewrite Hm'. rewrite Hc53 in Hm1.
  replace (e0 + 1 - k) with (1 + (e0 - k)) by lia.
  rewrite Z.pow_add_r by (unfold k; lia).
  change (2 ^ 53) with (2 ^ 52 * 2 ^ 1) in Hm1. lia.
Qed.

(** ** The times of a record *)

(** C10, as stated, fails: for a segment without an end that starts at
    [2^52] seconds, [start + 0.5] is rounded to [start], so the end is not
    after the start. *)
Lemma end_not_after_start :
  raw_end late_segment = None /\
  segment_start late_segment = 0x1p52%float /\
  segment_end late_segment = segment_start late_segment /\
  (segment_start late_segment <? segment_end late_segment)%float = false.
Proof. repeat split; vm_compute; reflexivity. Qed.

Section Times.
Context `{Externals}.

(** C10, amended.  The record of a raw segment starts at the start of the
    segment, or at 0.0 when it has none, and ends at its end, or at the
    float sum [start + 0.5] when it has none.  When the end was absent and
    the start is a number of seconds below [2^52], the end is after the
    start. *)
Theorem default_times (seg : raw_segment) :
  segment_start seg = match raw_start seg with Some s => s | None => 0%float end /\
  segment_end seg
  = match raw_end seg with
    | Some e => e
    | None => (segment_start seg + 0.5)%float
    end /\
  (forall args td audio_file overall_lang idx,
     runs (process_segment args td audio_file overall_lang idx seg) anything
       (fun r => start r = segment_start seg /\ end_ r = segment_end seg) anything) /\
  (raw_end seg = None ->
   is_seconds (segment_start seg) = true ->
   (segment_start seg <? 0x1p52)%float = true ->
   (segment_start seg <? segment_end seg)%float = true).
Proof.
  split; [unfold segment_start; destruct (raw_start seg); reflexivity|].
  split; [unfold segment_end; destruct (raw_end seg); reflexivity|].
  split.
  - intros. eapply runs_weaken;
      [apply runs_process_segment | intros; exact I | | intros; exact I].
    intros r [Hs [He _]]. auto.
  - intros Hnone Hsec H52. unfold segment_end. rewrite Hnone. cbn [default].
    apply add_half_greater; assumption.
Qed.

End Times.

(** The second sample segment has no end: its record ends half a second
    after its start. *)
Lemma default_times_witness :
  raw_end {| raw_start := Some 2%float; raw_end := None; raw_text := Some "Bonjour" |}
  = None /\
  is_seconds 2 = true /\ (2 <? 0x1p52)%float = true /\
  (segment_start {| raw_start := Some 2%float; raw_end := None;
                    raw_text := Some "Bonjour" |}
   <? segment_end {| raw_start := Some 2%float; raw_end := None;
                     raw_text := Some "Bonjour" |})%float = true.
Proof.
  split; [reflexivity|].
  split; [vm_compute; reflexivity|].
  split; [vm_compute; reflexivity|].
  apply (proj2 (proj2 (proj2 (default_times
           {| raw_start := Some 2%float; raw_end := None;
              raw_text := Some "Bonjour" |}))));
    [reflexivity | vm_compute; reflexivity | vm_compute; reflexivity].
Defined.

(** * Further properties *)

(** ** The formatters on any float *)

Lemma finish_sign (s : bool) (m1 e1 : Z) :
  finish s m1 e1 = with_sign s (finish false m1 e1).
Proof.
  unfold finish. destruct m1 as [|p|p]; [reflexivity| |reflexivity].
  destruct (Z.pos p =? 2 ^ 53);
    [destruct (e1 + 1 <=? 971) | destruct (e1 <=? 971)]; reflexivity.
Qed.

Lemma binary_round_sign (s : bool) (m : positive) (e : Z) :
  binary_round prec emax s m e = with_sign s (binary_round prec emax false m e).
Proof. rewrite !binary_round_exact. apply finish_sign. Qed.

(** Converting a negative integer above [-2^53]: exact. *)
Lemma binary_normalize_small_neg (t : positive) :
  Z.pos t < 2 ^ 53 ->
  exists mt, let et := Z.pos (digits2_pos t) - 53 in
    binary_normalize prec emax (Z.neg t) 0 false = S754_finite true mt et /\
    Z.pos mt = Z.pos t * 2 ^ (- et) /\
    bounded prec emax mt et = true.
Proof.
  intros Ht. destruct (binary_normalize_small t Ht) as [mt [Hn [Hmt Hb]]].
  exists mt. cbn zeta in *. split; [|auto].
  cbn [binary_normalize] in *. rewrite binary_round_sign, Hn. reflexivity.
Qed.

Lemma binary_normalize_integral_neg (mx : positive) (ex : Z) :
  bounded prec emax mx ex = true -> 0 <= ex ->
  binary_normalize prec emax (Z.shiftl (Z.neg mx) ex) 0 false
  = S754_finite true mx ex.
Proof.
  intros Hb Hex. pose proof (binary_normalize_integral mx ex Hb Hex) as Hp.
  rewrite Z.shiftl_mul_pow2 in * by lia.
  assert (Hpos : 0 < 2 ^ ex) by (apply pow2_pos; lia).
  destruct (Z.pos mx * 2 ^ ex) as [|M|M] eqn:EM; try lia.
  replace (Z.neg mx * 2 ^ ex) with (Z.neg M) by lia.
  cbn [binary_normalize] in *. rewrite binary_round_sign, Hp. reflexivity.
Qed.

Lemma SF64sub_neg (m1 m2 : positive) (e1 e2 : Z) :
  SF64sub (S754_finite true m1 e1) (S754_finite true m2 e2)
  = binary_normalize prec emax
      (Z.pos m2 * 2 ^ (e2 - Z.min e1 e2) - Z.pos m1 * 2 ^ (e1 - Z.min e1 e2))
      (Z.min e1 e2) false.
Proof.
  unfold SF64sub, SFsub. cbn [cond_Zopp].
  pose proof (shl_align_spec m1 e1 (Z.min e1 e2)) as [_ H1].
  pose proof (shl_align_spec m2 e2 (Z.min e1 e2)) as [_ H2].
  rewrite H1, H2.
  replace (Z.min e1 (Z.min e1 e2)) with (Z.min e1 e2) by lia.
  replace (Z.min e2 (Z.min e1 e2)) with (Z.min e1 e2) by lia.
  f_equal. lia.
Qed.

(** Rounding does not go beyond a number of the grid. *)
Lemma rne_le (m c n : Z) : 0 <= m -> 0 <= n -> m <= c * 2 ^ n -> rne m n <= c.
Proof.
  intros Hm Hn Hle. assert (Hp : 0 < 2 ^ n) by (apply pow2_pos; lia).
  destruct (Z.eq_dec m (c * 2 ^ n)) as [->|Hne].
  - destruct (Z.eq_dec n 0) as [->|Hn0].
    + rewrite rne_0. change (2 ^ 0) with 1. lia.
    + rewrite rne_exact by lia. lia.
  - pose proof (rne_bounds m n Hm Hn) as [_ Hb].
    assert (m / 2 ^ n < c) by (apply Z.div_lt_upper_bound; lia). lia.
Qed.

Lemma mul_1000_unit (f : spec_float) :
  unit_sf f -> millis_sf (SF64mul f (S754_finite false 8796093022208000 (-43))).
Proof.
  intros [[s ->]|[mf [ef [-> [Hef Hmf]]]]].
  - left. exists (xorb s false). reflexivity.
  - unfold SF64mul, SFmul. cbn [xorb].
    rewrite binary_round_aux_exact.
    set (M := (mf * 8796093022208000)%positive).
    set (E := ef + -43).
    assert (HM : Z.pos M = Z.pos mf * (1000 * 2 ^ 43)) by (unfold M; lia).
    assert (Hle : Z.pos M <= 1000 * 2 ^ (- E)).
    { rewrite HM. replace (- E) with (- ef + 43) by (unfold E; lia).
      rewrite Z.pow_add_r by lia.
      assert (0 < 2 ^ 43) by (apply pow2_pos; lia). nia. }
    assert (HdM : Z.pos (digits2_pos M) <= 11 - E).
    { apply digits2_pos_le; [unfold E; lia|].
      replace (11 - E) with (11 + - E) by lia. rewrite Z.pow_add_r by (unfold E; lia).
      change (2 ^ 11) with 2048.
      assert (0 < 2 ^ (- E)) by (apply pow2_pos; unfold E; lia). lia. }
    rewrite fexp_64.
    set (e1 := Z.max E (Z.max (Z.pos (digits2_pos M) + E - 53) (-1074))).
    assert (He1 : E <= e1 <= -42) by (unfold e1, E; lia).
    assert (Hp : 0 < 2 ^ (e1 - E)) by (apply pow2_pos; lia).
    assert (Hq : rne (Z.pos M) (e1 - E) <= 1000 * 2 ^ (- e1)).
    { apply rne_le; [lia | lia |].
      replace (1000 * 2 ^ (- e1) * 2 ^ (e1 - E)) with (1000 * 2 ^ (- E)); [exact Hle|].
      replace (- E) with (- e1 + (e1 - E)) by lia. rewrite Z.pow_add_r by lia. ring. }
    pose proof (rne_nonneg (Z.pos M) (e1 - E) ltac:(lia) ltac:(lia)) as Hnn.
    set (m1 := rne (Z.pos M) (e1 - E)) in *.
    destruct (Z.eq_dec m1 0) as [Hz|Hnz].
    { rewrite Hz. left. exists false. reflexivity. }
    destruct (finish_finite false m1 e1 ltac:(lia) ltac:(lia))
      as [m' [e' [Hf [[Hm' He']|[Hc [Hm' He']]]]]]; rewrite Hf; right;
      exists m', e'; (split; [reflexivity|]); subst e'; rewrite Hm'.
    + split; lia.
    + split; [lia|].
      assert (E2 : 2 ^ (- e1) = 2 * 2 ^ (- (e1 + 1))).
      { replace (- e1) with (1 + - (e1 + 1)) by lia.
        rewrite Z.pow_add_r by lia. reflexivity. }
      change (2 ^ 53) with (2 * 2 ^ 52) in Hc. lia.
Qed.

Lemma sub_floor_unit (mx t mt : positive) (ex : Z) :
  bounded prec emax mx ex = true -> ex < 0 ->
  Z.neg t = Z.neg mx / 2 ^ (- ex) -> Z.pos t < 2 ^ 53 ->
  Z.pos mt = Z.pos t * 2 ^ (53 - Z.pos (digits2_pos t)) ->
  unit_sf (SF64sub (S754_finite true mx ex)
             (S754_finite true mt (Z.pos (digits2_pos t) - 53))).
Proof.
  intros Hb Hex Ht Ht53 Hmt. apply bounded_canonical in Hb as [Hc He].
  assert (Hd53 : Z.pos (digits2_pos t) <= 53) by (apply digits2_pos_le; lia).
  set (d := Z.pos (digits2_pos t)) in *. set (et := d - 53).
  assert (HP : 0 < 2 ^ (- ex)) by (apply pow2_pos; lia).
  pose proof (Z.div_mod (Z.neg mx) (2 ^ (- ex)) ltac:(lia)) as Hdm.
  pose proof (Z.mod_pos_bound (Z.neg mx) (2 ^ (- ex)) HP) as Hrho.
  rewrite <- Ht in Hdm. clear Ht.
  set (rho := Z.neg mx mod 2 ^ (- ex)) in *. clearbody rho.
  assert (HtP : Z.pos t * 2 ^ (- ex) = Z.pos mx + rho).
  { change (Z.neg t) with (- Z.pos t) in Hdm.
    change (Z.neg mx) with (- Z.pos mx) in Hdm.
    rewrite Z.mul_opp_r in Hdm. lia. }
  pose proof (digits2_pos_bounds mx) as [Hmxlo Hmx].
  pose proof (digits2_pos_bounds t) as [Htlo Hthi]. fold d in Htlo, Hthi.
  assert (Hd1 : 1 <= d) by (unfold d; lia).
  assert (Hdge : ex <= et).
  { unfold et. destruct (Z.le_gt_cases (53 + ex) 1) as [|Hbig]; [lia|].
    assert (Hdx : Z.pos (digits2_pos mx) = 53) by lia.
    rewrite Hdx in Hmxlo. change (53 - 1) with 52 in Hmxlo.
    assert (E52 : 2 ^ 52 = 2 ^ (52 + ex) * 2 ^ (- ex))
      by (rewrite <- Z.pow_add_r by lia; f_equal; lia).
    assert (0 < 2 ^ (52 + ex)) by (apply pow2_pos; lia).
    assert (Hge : 2 ^ (52 + ex) <= Z.pos t) by nia.
    assert (Hlt : 2 ^ (52 + ex) < 2 ^ d) by lia.
    apply pow2_lt_inv in Hlt; lia. }
  rewrite SF64sub_neg. fold et.
  replace (Z.min ex et) with ex by lia.
  rewrite Z.sub_diag. change (2 ^ 0) with 1. rewrite Z.mul_1_r.
  assert (HD : Z.pos mt * 2 ^ (et - ex) - Z.pos mx = rho).
  { rewrite Hmt, <- Z.mul_assoc, <- Z.pow_add_r by (unfold et; lia).
    replace (53 - d + (et - ex)) with (- ex) by (unfold et; lia). lia. }
  rewrite HD.
  destruct rho as [|rp|rp] eqn:Erho; [left; exists false; reflexivity | | lia].
  rewrite binary_normalize_pos.
  set (dr := Z.pos (digits2_pos rp)).
  assert (Hdr : 1 <= dr <= - ex).
  { split; [unfold dr; lia|]. apply digits2_pos_le; lia. }
  rewrite fexp_64. set (e0 := Z.max (dr + ex - 53) (-1074)).
  assert (He0 : e0 <= -53) by (unfold e0; lia).
  pose proof (digits2_pos_bounds rp) as [Hrlo Hrhi]. fold dr in Hrlo, Hrhi.
  assert (Hm1 : 0 < round_mantissa (Z.pos rp) ex e0 <= 2 ^ (- e0)).
  { unfold round_mantissa. destruct (Z.leb_spec e0 ex) as [Hle|Hgt].
    - assert (0 < 2 ^ (ex - e0)) by (apply pow2_pos; lia).
      split; [lia|].
      replace (- e0) with (- ex + (ex - e0)) by lia. rewrite Z.pow_add_r by lia.
      apply Z.mul_le_mono_nonneg_r; lia.
    - assert (En : e0 - ex = dr - 53) by (unfold e0 in *; lia).
      assert (Hn : 0 < 2 ^ (e0 - ex)) by (apply pow2_pos; lia).
      split.
      + pose proof (rne_bounds (Z.pos rp) (e0 - ex) ltac:(lia) ltac:(lia)) as [Hlo _].
        assert (2 ^ 52 <= Z.pos rp / 2 ^ (e0 - ex)).
        { apply Z.div_le_lower_bound; [exact Hn|].
          rewrite <- Z.pow_add_r by lia.
          replace (e0 - ex + 52) with (dr - 1) by lia. exact Hrlo. }
        assert (0 < 2 ^ 52) by (apply pow2_pos; lia). lia.
      + apply rne_le; [lia | lia |].
        rewrite <- Z.pow_add_r by lia.
        replace (- e0 + (e0 - ex)) with (- ex) by lia. lia. }
  set (m1 := round_mantissa (Z.pos rp) ex e0) in *.
  destruct (finish_finite false m1 e0 ltac:(lia) ltac:(lia))
    as [m' [e' [Hf [[Hm' He']|[Hcarry [Hm' He']]]]]]; rewrite Hf; right;
    exists m', e'; (split; [reflexivity|]); subst e'; rewrite Hm'.
  - split; lia.
  - split; [lia|]. apply Z.pow_le_mono_r; lia.
Qed.

Lemma float_of_int_signed (z : Z) (s : bool) (m : positive) (e : Z) :
  binary_normalize prec emax z 0 false = S754_finite s m e ->
  float_of_int z = Ok (SF2Prim (S754_finite s m e)).
Proof. unfold float_of_int. intros ->. reflexivity. Qed.

(** The fractional part of a negative number is a float in [0, 1]. *)
Lemma fraction_unit_negative (x : float) (m : positive) (e : Z) :
  Prim2SF x = S754_finite true m e ->
  exists total flf,
    floor x = Ok total /\ total < 0 /\ float_of_int total = Ok flf /\
    unit_sf (Prim2SF (x - flf)%float).
Proof.
  intros Hf. unfold floor. rewrite Hf.
  change (cond_Zopp true (Z.pos m)) with (Z.neg m).
  pose proof (Prim2SF_valid x) as Hb. rewrite Hf in Hb. cbn in Hb.
  destruct (Z.le_gt_cases 0 e) as [He|He].
  - exists (Z.shiftl (Z.neg m) e), x.
    split; [reflexivity|]. split.
    { rewrite Z.shiftl_mul_pow2 by lia.
      assert (0 < 2 ^ e) by (apply pow2_pos; lia). lia. }
    split.
    + rewrite (float_of_int_signed _ true m e)
        by (apply binary_normalize_integral_neg; assumption).
      rewrite <- Hf, SF2Prim_Prim2SF. reflexivity.
    + rewrite sub_spec, Hf, SF64sub_neg, Z.sub_diag.
      left. exists false. reflexivity.
  - rewrite Z.shiftl_div_pow2 by lia.
    assert (HP : 0 < 2 ^ (- e)) by (apply pow2_pos; lia).
    assert (Hneg : Z.neg m / 2 ^ (- e) < 0) by (apply Z.div_lt_upper_bound; lia).
    destruct (Z.neg m / 2 ^ (- e)) as [|t|t] eqn:Et; [lia | lia |].
    assert (Ht53 : Z.pos t < 2 ^ 53).
    { apply bounded_canonical in Hb as [Hc _].
      pose proof (digits2_pos_bounds m) as [_ Hhi].
      assert (Hm53 : Z.pos m < 2 ^ 53)
        by (eapply Z.lt_le_trans; [exact Hhi | apply Z.pow_le_mono_r; lia]).
      pose proof (Z.div_mod (Z.neg m) (2 ^ (- e)) ltac:(lia)) as Hdm.
      pose proof (Z.mod_pos_bound (Z.neg m) (2 ^ (- e)) HP) as Hr.
      rewrite Et in Hdm.
      assert (Hp2 : 2 <= 2 ^ (- e)).
      { change 2 with (2 ^ 1) at 1. apply Z.pow_le_mono_r; lia. }
      change (2 ^ 53) with 9007199254740992 in *. nia. }
    destruct (binary_normalize_small_neg t Ht53) as [mt [Hn [Hmt Hbt]]].
    eexists _, _. split; [reflexivity|]. split; [lia|].
    split; [apply float_of_int_signed; exact Hn|].
    rewrite sub_spec, Hf, Prim2SF_SF2Prim by exact Hbt.
    apply sub_floor_unit; [assumption | lia | now rewrite Et | exact Ht53 |].
    rewrite Hmt. f_equal. f_equal. lia.
Qed.

Lemma SFeqb_refl_finite (s : bool) (m : positive) (e : Z) :
  SFeqb (S754_finite s m e) (S754_finite s m e) = true.
Proof.
  unfold SFeqb, SFcompare. rewrite Z.compare_refl, Pos.compare_cont_refl.
  destruct s; reflexivity.
Qed.

Lemma is_nan_spec (x : float) : is_nan x = true <-> Prim2SF x = S754_nan.
Proof.
  unfold is_nan. rewrite FloatAxioms.eqb_spec.
  destruct (Prim2SF x) as [s|s| |s m e]; try rewrite SFeqb_refl_finite;
    try (destruct s); cbn; split; congruence.
Qed.

Lemma is_infinity_spec (x : float) :
  is_infinity x = true <-> exists s, Prim2SF x = S754_infinity s.
Proof.
  unfold is_infinity. rewrite FloatAxioms.eqb_spec, FloatAxioms.abs_spec.
  change (Prim2SF infinity) with (S754_infinity false).
  destruct (Prim2SF x) as [s|s| |s m e]; cbn; split;
    try discriminate; try (intros [? ?]; discriminate); eauto.
Qed.

Lemma is_finite_spec (x : float) :
  is_finite x = true <->
  (exists s, Prim2SF x = S754_zero s) \/ (exists s m e, Prim2SF x = S754_finite s m e).
Proof.
  unfold is_finite. rewrite negb_true_iff, orb_false_iff.
  rewrite <- !not_true_iff_false, is_nan_spec, is_infinity_spec.
  destruct (Prim2SF x) as [s|s| |s m e]; split.
  - eauto.
  - intros _. split; [discriminate | intros [? ?]; discriminate].
  - intros [_ Hi]. exfalso. apply Hi. eauto.
  - intros [[? ?]|[? [? [? ?]]]]; discriminate.
  - intros [Hn _]. exfalso. now apply Hn.
  - intros [[? ?]|[? [? [? ?]]]]; discriminate.
  - eauto 6.
  - intros _. split; [discriminate | intros [? ?]; discriminate].
Qed.

Lemma nonnegative_is_seconds (x : float) :
  (exists s, Prim2SF x = S754_zero s) \/ (exists m e, Prim2SF x = S754_finite false m e) ->
  is_seconds x = true.
Proof.
  unfold is_seconds. rewrite leb_spec, ltb_spec.
  change (Prim2SF 0) with (S754_zero false).
  change (Prim2SF infinity) with (S754_infinity false).
  intros [[s ->]|[m [e ->]]]; reflexivity.
Qed.

Lemma negative_spec (x : float) :
  (x <? 0)%float = true <->
  (exists m e, Prim2SF x = S754_finite true m e) \/ Prim2SF x = S754_infinity true.
Proof.
  rewrite ltb_spec. change (Prim2SF 0) with (S754_zero false).
  destruct (Prim2SF x) as [s|s| |s m e]; cbn; split.
  - discriminate.
  - intros [[? [? ?]]|?]; discriminate.
  - destruct s; [auto | discriminate].
  - intros [[? [? ?]]|E]; [discriminate | injection E as ->; reflexivity].
  - discriminate.
  - intros [[? [? ?]]|?]; discriminate.
  - destruct s; [eauto | discriminate].
  - intros [[? [? E]]|?]; [injection E as -> _ _; reflexivity | discriminate].
Qed.

(** The parts of the timestamp of a finite float. *)
Lemma timestamp_parts_finite (x : float) :
  is_finite x = true ->
  exists total flf ms,
    floor x = Ok total /\ float_of_int total = Ok flf /\
    round ((x - flf) * 1000)%float = Ok ms /\ 0 <= ms <= 1000 /\
    ((x <? 0)%float = true -> total < 0).
Proof.
  intros Hx. apply is_finite_spec in Hx.
  assert (Hcases : is_seconds x = true \/ exists m e, Prim2SF x = S754_finite true m e).
  { destruct Hx as [Hz|[[|] [m [e Hf]]]]; [left | right | left]; eauto;
      apply nonnegative_is_seconds; eauto. }
  destruct Hcases as [Hs|[m [e Hf]]].
  - destruct (timestamp_parts x Hs) as [total [flf [ms [H1 [H2 [H3 [H4 H5]]]]]]].
    exists total, flf, ms. repeat split; try assumption; try lia.
    intros Hneg. exfalso. apply negative_spec in Hneg.
    destruct (is_seconds_cases x Hs) as [[s E]|[m [e [E _]]]];
      destruct Hneg as [[? [? E']]|E']; congruence.
  - destruct (fraction_unit_negative x m e Hf) as [total [flf [H1 [H2 [H3 H4]]]]].
    destruct (round_millis ((x - flf) * 1000)%float) as [ms [Hr Hms]].
    { rewrite mul_spec.
      change (Prim2SF 1000) with (S754_finite false 8796093022208000 (-43)).
      apply mul_1000_unit, H4. }
    exists total, flf, ms. auto.
Qed.

(** The string of a timestamp, whatever the sign of the whole seconds. *)
Lemma timestamp_fields (sep : string) (x : float) (total ms : Z) (flf : float) :
  floor x = Ok total -> float_of_int total = Ok flf ->
  round ((x - flf) * 1000)%float = Ok ms -> 0 <= ms <= 1000 ->
  timestamp sep x
  = Ok (format_0d 2 (total / 3600) ++ ":" ++ two_digits ((total / 60) mod 60) ++ ":"
        ++ two_digits (total mod 60) ++ sep ++ millis_field ms).
Proof.
  intros Hfl Hflf Hr Hms. unfold timestamp. rewrite Hfl. cbn [result_bind].
  rewrite Hflf. cbn [result_bind]. rewrite Hr. cbn [result_bind].
  rewrite (format_two_digits ((total / 60) mod 60)) by (apply Z.mod_pos_bound; lia).
  rewrite (format_two_digits (total mod 60)) by (apply Z.mod_pos_bound; lia).
  rewrite (format_millis ms Hms). reflexivity.
Qed.

(** X1.  The formatters on every float: [ValueError] for a NaN,
    [OverflowError] for an infinity, and a string for every finite number.
    The string has the whole hours of the floor of the number, two digits
    for the minutes and the seconds, and the milliseconds from 0 to 1000; a
    negative number is not rejected, it is written with negative hours. *)
Theorem timestamp_defined (fmt : subtitle_format) (x : float) :
  (is_nan x = true -> format_timestamp fmt x = Raise ValueError) /\
  (is_infinity x = true -> format_timestamp fmt x = Raise OverflowError) /\
  (is_finite x = true ->
   exists total ms,
     floor x = Ok total /\ 0 <= ms <= 1000 /\
     format_timestamp fmt x
     = Ok (format_0d 2 (total / 3600) ++ ":" ++ two_digits ((total / 60) mod 60) ++ ":"
           ++ two_digits (total mod 60) ++ separator fmt ++ millis_field ms) /\
     ((x <? 0)%float = true ->
      total < 0 /\ exists digits, format_0d 2 (total / 3600) = String "-" digits)).
Proof.
  assert (E : format_timestamp fmt x = timestamp (separator fmt) x)
    by (destruct fmt; reflexivity).
  rewrite E. split; [|split].
  - intros Hn. apply is_nan_spec in Hn. unfold timestamp, floor. now rewrite Hn.
  - intros Hi. apply is_infinity_spec in Hi as [s Hi]. unfold timestamp, floor.
    now rewrite Hi.
  - intros Hf.
    destruct (timestamp_parts_finite x Hf) as [total [flf [ms [H1 [H2 [H3 [H4 H5]]]]]]].
    exists total, ms. split; [exact H1|]. split; [exact H4|]. split.
    + apply (timestamp_fields _ x total ms flf); assumption.
    + intros Hneg. specialize (H5 Hneg). split; [exact H5|].
      unfold format_0d.
      assert (Hh : total / 3600 < 0) by (apply Z.div_lt_upper_bound; lia).
      apply Z.ltb_lt in Hh. rewrite Hh. cbn. eauto.
Qed.

Lemma timestamp_defined_witness :
  is_finite (-0.5) = true /\ (-0.5 <? 0)%float = true /\
  seconds_to_vtt_timestamp (-0.5) = Ok "-1:59:59.500" /\
  exists total ms,
    floor (-0.5) = Ok total /\ 0 <= ms <= 1000 /\
    format_timestamp VTT (-0.5)
    = Ok (format_0d 2 (total / 3600) ++ ":" ++ two_digits ((total / 60) mod 60) ++ ":"
          ++ two_digits (total mod 60) ++ separator VTT ++ millis_field ms) /\
    ((-0.5 <? 0)%float = true ->
     total < 0 /\ exists digits, format_0d 2 (total / 3600) = String "-" digits).
Proof.
  split; [reflexivity|]. split; [reflexivity|]. split; [reflexivity|].
  apply (proj2 (proj2 (timestamp_defined VTT (-0.5)))). reflexivity.
Defined.

(** ** Whole seconds *)

Lemma SF64sub_diag (m : positive) (e : Z) :
  SF64sub (S754_finite false m e) (S754_finite false m e) = S754_zero false.
Proof. rewrite SF64sub_pos, Z.sub_diag. reflexivity. Qed.

(** X2.  A whole number of seconds below [2^53], as a float, is formatted
    with exactly that number of seconds and no milliseconds. *)
Theorem whole_seconds (n : Z) :
  0 <= n < 2 ^ 53 ->
  exists x,
    float_of_int n = Ok x /\ is_seconds x = true /\ floor x = Ok n /\
    seconds_to_vtt_timestamp x = Ok (clock "." n 0) /\
    seconds_to_srt_timestamp x = Ok (clock "," n 0) /\
    millis_field 0 = "000".
Proof.
  intros [Hlo Hhi].
  assert (Hparts : exists x, float_of_int n = Ok x /\ is_seconds x = true /\
                             floor x = Ok n /\ round ((x - x) * 1000)%float = Ok 0).
  { destruct n as [|t|t]; [| |lia].
    - exists 0%float. repeat split; reflexivity.
    - destruct (binary_normalize_small t Hhi) as [mt [Hn [Hmt Hb]]].
      set (et := Z.pos (digits2_pos t) - 53) in *.
      exists (SF2Prim (S754_finite false mt et)).
      assert (Hx : Prim2SF (SF2Prim (S754_finite false mt et)) = S754_finite false mt et)
        by (apply Prim2SF_SF2Prim; exact Hb).
      split; [apply float_of_int_finite, Hn|]. split; [|split].
      + unfold is_seconds. rewrite leb_spec, ltb_spec, Hx. reflexivity.
      + unfold floor. rewrite Hx. cbn [cond_Zopp]. f_equal.
        pose proof (digits2_pos_bounds t) as [Hdlo _].
        assert (Hd : Z.pos (digits2_pos t) <= 53) by (apply digits2_pos_le; lia).
        assert (Het : et <= 0) by (unfold et; lia).
        destruct (Z.eq_dec et 0) as [E0|Hne].
        * rewrite E0 in *. cbn in Hmt. rewrite Z.shiftl_0_r. lia.
        * rewrite Z.shiftl_div_pow2 by lia. rewrite Hmt.
          apply Z.div_mul. apply Z.pow_nonzero; lia.
      + unfold round. rewrite mul_spec, sub_spec, Hx, SF64sub_diag. reflexivity. }
  destruct Hparts as [x [H1 [H2 [H3 H4]]]].
  exists x. repeat split; try assumption;
    apply (timestamp_clock _ x n 0 x); try assumption; lia.
Qed.

Lemma whole_seconds_witness :
  0 <= 3661 < 2 ^ 53 /\
  exists x,
    float_of_int 3661 = Ok x /\ is_seconds x = true /\ floor x = Ok 3661 /\
    seconds_to_vtt_timestamp x = Ok (clock "." 3661 0) /\
    seconds_to_srt_timestamp x = Ok (clock "," 3661 0) /\
    millis_field 0 = "000".
Proof. split; [lia | apply (whole_seconds 3661); lia]. Defined.

(** ** Emitters that fail *)

Lemma timestamp_raises (sep : string) (x : float) (e : exn) :
  timestamp sep x = Raise e -> e = ValueError \/ e = OverflowError.
Proof.
  unfold timestamp, floor, float_of_int, round, result_bind.
  destruct (Prim2SF x); try (intros [= <-]; auto);
    destruct (binary_normalize _ _ _ _ _); try (intros [= <-]; auto);
    match goal with |- context [Prim2SF ?y] => destruct (Prim2SF y) end;
    try (intros [= <-]; auto); try discriminate;
    repeat match goal with
           | |- context [if ?b then _ else _] => destruct b
           | |- context [match ?c with Eq => _ | Lt => _ | Gt => _ end] => destruct c
           end; discriminate.
Qed.

Lemma write_cue_head_raises (sep : string) (i : Z) (s : segment) (content : string) :
  raises_of_timestamp (fst (write_cue_head (timestamp sep) i s content)).
Proof.
  unfold write_cue_head, bind, f_write, lift_result.
  destruct (timestamp sep (start s)) eqn:E1; cbn [fst];
    [|eapply timestamp_raises, E1].
  destruct (timestamp sep (end_ s)) eqn:E2; cbn [fst];
    [exact I | eapply timestamp_raises, E2].
Qed.

Lemma cues_raise (sep : string) (body : segment -> SE string unit)
    (l : list (Z * segment)) (content : string) :
  (forall s c, exists c', body s c = (Ok tt, c')) ->
  raises_of_timestamp
    (fst (for_each l (fun '(i, s) => write_cue_head (timestamp sep) i s ;; body s) content)).
Proof.
  intros Hbody. revert content. induction l as [|[i s] l IH]; intros content;
    cbn [for_each]; [exact I|].
  unfold bind at 1. unfold bind at 1.
  pose proof (write_cue_head_raises sep i s content) as Hh.
  destruct (write_cue_head (timestamp sep) i s content) as [[u|e] c1]; cbn [fst] in *;
    [|exact Hh].
  destruct (Hbody s c1) as [c2 ->]. apply IH.
Qed.

Lemma enumerate_app {A : Type} (l1 l2 : list A) (i : Z) :
  enumerate i (l1 ++ l2) = (enumerate i l1 ++ enumerate (i + Z.of_nat (length l1)) l2)%list.
Proof.
  revert i. induction l1 as [|x l1 IH]; intros i; cbn [enumerate app length].
  - now rewrite Z.add_0_r.
  - rewrite IH. do 3 f_equal. lia.
Qed.

Lemma for_each_app {S A : Type} (l1 l2 : list A) (body : A -> SE S unit) (s : S) :
  for_each (l1 ++ l2) body s = (for_each l1 body ;; for_each l2 body) s.
Proof.
  revert s. induction l1 as [|x l1 IH]; intros s; cbn [for_each app].
  - reflexivity.
  - unfold bind. destruct (body x s) as [[u|e] s1]; [|reflexivity].
    rewrite IH. reflexivity.
Qed.

Lemma write_cue_head_fails (fmt : subtitle_format) (i : Z) (s : segment) (e : exn)
    (content : string) :
  times_error fmt s = Some e ->
  write_cue_head (format_timestamp fmt) i s content
  = (Raise e, content ++ str_int i ++ NL).
Proof.
  unfold times_error, write_cue_head, bind, f_write, lift_result.
  destruct (format_timestamp fmt (start s)); [|intros [= ->]; reflexivity].
  destruct (format_timestamp fmt (end_ s)); [discriminate | intros [= ->]; reflexivity].
Qed.

Lemma for_each_cues_fail (fmt : subtitle_format) (trk : track)
    (body : segment -> SE string unit) (good rest : list segment) (bad : segment)
    (e : exn) (content : string) :
  (forall s' c, body s' c = (Ok tt, c ++ cue_body trk s' ++ NL ++ NL)) ->
  Forall (times_format fmt) good -> times_error fmt bad = Some e ->
  for_each (enumerate 1 (good ++ bad :: rest))
    (fun '(i, s) => write_cue_head (format_timestamp fmt) i s ;; body s) content
  = (Raise e,
     content ++ String.concat "" (map (cue fmt trk) (enumerate 1 good))
     ++ str_int (Z.of_nat (length good) + 1) ++ NL).
Proof.
  intros Hbody Hgood Hbad. rewrite enumerate_app, for_each_app. unfold bind at 1.
  rewrite (for_each_cues fmt trk body _ _ Hbody) by (now rewrite enumerate_snd).
  cbn [enumerate for_each]. unfold bind at 1. unfold bind at 1.
  rewrite (write_cue_head_fails fmt _ bad e _ Hbad).
  rewrite (Z.add_comm 1), append_assoc. reflexivity.
Qed.

Lemma emitter_fails (fmt : subtitle_format) (trk : track) (good rest : list segment)
    (bad : segment) (e : exn) (path : string) (w : world) :
  Forall (times_format fmt) good -> times_error fmt bad = Some e ->
  emitter fmt trk (good ++ bad :: rest) path w
  = (Raise e,
     wrote path (track_text fmt trk good
                 ++ str_int (Z.of_nat (length good) + 1) ++ NL) w).
Proof.
  intros Hgood Hbad. unfold track_text.
  destruct fmt, trk; cbn [emitter header];
    unfold write_vtt_original, write_vtt_translation, write_srt_original,
      write_srt_translation, with_open_w, wrote.
  - unfold bind at 1. unfold f_write at 1.
    rewrite (for_each_cues_fail VTT Original write_original_body _ _ _ e
               _ write_original_body_spec Hgood Hbad).
    cbn [String.append]. rewrite !append_assoc. reflexivity.
  - unfold bind at 1. unfold f_write at 1.
    rewrite (for_each_cues_fail VTT Translation write_translation_body _ _ _ e
               _ write_translation_body_spec Hgood Hbad).
    cbn [String.append]. rewrite !append_assoc. reflexivity.
  - rewrite (for_each_cues_fail SRT Original write_original_body _ _ _ e
               _ write_original_body_spec Hgood Hbad). reflexivity.
  - rewrite (for_each_cues_fail SRT Translation write_translation_body _ _ _ e
               _ write_translation_body_spec Hgood Hbad). reflexivity.
Qed.

(** X3.  An emitter that meets a segment whose start or end cannot be
    formatted raises the exception of the formatter and leaves a truncated
    file: the header, the cues of the segments before it, and the line of
    the sequence number of the failing cue. *)
Theorem emitter_partial_file (fmt : subtitle_format) (trk : track)
    (good rest : list segment) (bad : segment) (e : exn) (path : string) (w : world) :
  Forall (times_format fmt) good ->
  times_error fmt bad = Some e ->
  emitter fmt trk (good ++ bad :: rest) path w
  = (Raise e,
     wrote path (track_text fmt trk good
                 ++ str_int (Z.of_nat (length good) + 1) ++ NL) w) /\
  (e = ValueError \/ e = OverflowError).
Proof.
  intros Hgood Hbad. split; [apply emitter_fails; assumption|].
  unfold times_error in Hbad.
  assert (E : forall x, format_timestamp fmt x = timestamp (separator fmt) x)
    by (destruct fmt; reflexivity).
  rewrite !E in Hbad.
  destruct (timestamp _ (start bad)) eqn:E1.
  - destruct (timestamp _ (end_ bad)) eqn:E2; [discriminate|].
    injection Hbad as <-. eapply timestamp_raises, E2.
  - injection Hbad as <-. eapply timestamp_raises, E1.
Qed.

Lemma emitter_partial_file_witness :
  Forall (times_format VTT) [ {| start := 0; end_ := 2; lang := "es"; text := "Hola";
                                 translation := Some "Hello" |} ] /\
  times_error VTT nan_segment = Some ValueError /\
  emitter VTT Original
    ([ {| start := 0; end_ := 2; lang := "es"; text := "Hola";
          translation := Some "Hello" |} ] ++ nan_segment :: sample_segments)
    "out.original.vtt" empty_world
  = (Raise ValueError,
     wrote "out.original.vtt"
       ("WEBVTT" ++ NL ++ NL
        ++ "1" ++ NL ++ "00:00:00.000 --> 00:00:02.000" ++ NL ++ "[es] Hola" ++ NL ++ NL
        ++ "2" ++ NL) empty_world).
Proof.
  assert (Hgood : Forall (times_format VTT)
                    [ {| start := 0; end_ := 2; lang := "es"; text := "Hola";
                         translation := Some "Hello" |} ])
    by (repeat constructor; eexists; vm_compute; reflexivity).
  split; [exact Hgood|]. split; [reflexivity|].
  exact (proj1 (emitter_partial_file VTT Original _ sample_segments nan_segment ValueError
                  "out.original.vtt" empty_world Hgood eq_refl)).
Defined.

(** ** Blank strings *)

Lemma lstrip_blank (s : string) : blank s = true -> lstrip s = "".
Proof.
  induction s as [|c s IH]; cbn; [reflexivity|].
  intros Hb. apply andb_true_iff in Hb as [Hc Hs]. rewrite Hc. exact (IH Hs).
Qed.

Lemma rstrip_blank (s : string) : rstrip s = "" <-> blank s = true.
Proof.
  induction s as [|c s IH]; cbn; [tauto|].
  destruct (rstrip s) as [|d r] eqn:Er.
  - destruct (is_space c); cbn; [tauto|]. split; discriminate.
  - split; [discriminate|]. intros Hb. apply andb_true_iff in Hb as [_ Hs].
    apply IH in Hs. discriminate.
Qed.

Lemma blank_lstrip (s : string) : blank (lstrip s) = blank s.
Proof.
  induction s as [|c s IH]; cbn; [reflexivity|].
  destruct (is_space c) eqn:Ec; cbn; [exact IH | now rewrite Ec].
Qed.

(** Stripping gives the empty string exactly for blank strings. *)
Lemma strip_blank (s : string) : strip s = "" <-> blank s = true.
Proof. unfold strip. rewrite rstrip_blank, blank_lstrip. tauto. Qed.

Lemma lstrip_id (s : string) :
  (forall c r, s = String c r -> is_space c = false) -> lstrip s = s.
Proof.
  destruct s as [|c s]; cbn; [reflexivity|]. intros Hc.
  now rewrite (Hc c s eq_refl).
Qed.

Lemma rstrip_id (s : string) :
  (forall r c, s = r ++ String c "" -> is_space c = false) -> rstrip s = s.
Proof.
  induction s as [|c s IH]; cbn; [reflexivity|]. intros Hl.
  destruct s as [|d s'].
  - cbn. now rewrite (Hl "" c eq_refl).
  - rewrite IH; [reflexivity|]. intros r x E. apply (Hl (String c r) x).
    cbn. now rewrite E.
Qed.

(** Stripping a trimmed string changes nothing. *)
Lemma strip_id (s : string) : trimmed s -> strip s = s.
Proof.
  intros [Hf Hl]. unfold strip. rewrite (lstrip_id s Hf). apply rstrip_id, Hl.
Qed.

Lemma strip_idempotent (s : string) : strip (strip s) = strip s.
Proof. apply strip_id, strip_trimmed. Qed.

Lemma blank_join (l : list string) :
  forallb blank l = true -> blank (join " " l) = true.
Proof.
  induction l as [|x l IH]; cbn [forallb join]; [reflexivity|].
  intros Hb. apply andb_true_iff in Hb as [Hx Hl].
  destruct l as [|y l']; [exact Hx|].
  specialize (IH Hl). clear Hl. revert IH. generalize (join " " (y :: l')).
  intros t Ht. induction x as [|c x IHx]; cbn in *; [exact Ht|].
  apply andb_true_iff in Hx as [Hc Hx]. rewrite Hc. cbn. apply IHx, Hx.
Qed.

Lemma blank_append (s t : string) : blank (s ++ t) = blank s && blank t.
Proof.
  induction s as [|c s IH]; cbn; [reflexivity|]. rewrite IH. now rewrite andb_assoc.
Qed.

Lemma join_blank (l : list string) :
  blank (join " " l) = true -> forallb blank l = true.
Proof.
  induction l as [|x l IH]; cbn [forallb join]; [reflexivity|].
  destruct l as [|y l'].
  - intros ->. reflexivity.
  - rewrite !blank_append. cbn [blank is_space]. intros Hb.
    apply andb_true_iff in Hb as [Hx Hb]. rewrite Hx. cbn [andb].
    apply IH. cbn in Hb. exact Hb.
Qed.

Lemma blank_strip (s : string) : blank (strip s) = blank s.
Proof.
  destruct (blank s) eqn:Eb.
  - apply strip_blank in Eb. now rewrite Eb.
  - destruct (blank (strip s)) eqn:Es; [|reflexivity].
    rewrite <- strip_blank, strip_idempotent, strip_blank in Es. congruence.
Qed.

Lemma forallb_blank_strip {A : Type} (f : A -> string) (l : list A) :
  forallb blank (map (fun a => strip (f a)) l) = forallb (fun a => blank (f a)) l.
Proof.
  induction l as [|a l IH]; cbn; [reflexivity|]. now rewrite IH, blank_strip.
Qed.

(** ** The answers of whisper *)

Lemma answer_text_trimmed (res : whisper_result) : trimmed (answer_text res).
Proof. unfold answer_text. destruct (default [] _); apply strip_trimmed. Qed.

(** The text of an answer is empty exactly for a blank answer. *)
Lemma answer_text_blank (res : whisper_result) :
  truthy (answer_text res) = negb (blank_answer res).
Proof.
  unfold answer_text, blank_answer.
  destruct (default [] (res_segments res)) as [|s segs].
  - destruct (blank _) eqn:Eb.
    + apply strip_blank in Eb. now rewrite Eb.
    + destruct (strip _) eqn:Es; [|reflexivity].
      apply strip_blank in Es. congruence.
  - set (l := s :: segs).
    assert (E : forallb (fun s => blank (default "" (raw_text s))) l
                = blank (join " " (map (fun s => strip (default "" (raw_text s))) l))).
    { destruct (blank (join _ _)) eqn:Eb.
      - apply join_blank in Eb. now rewrite forallb_blank_strip in Eb.
      - destruct (forallb _ l) eqn:Ef; [|reflexivity].
        rewrite <- Eb. symmetry. apply blank_join. now rewrite forallb_blank_strip. }
    rewrite E. destruct (blank _) eqn:Eb.
    + apply strip_blank in Eb. now rewrite Eb.
    + destruct (strip _) eqn:Es; [|reflexivity].
      apply strip_blank in Es. congruence.
Qed.

Lemma when_print_outcome (b : bool) (m : message) (w : world) :
  exists w1, when b (print m) w = (Ok tt, w1) /\ fs w1 = fs w /\
             log w1 = (log w ++ printed b m)%list.
Proof.
  destruct b; cbn; eexists; (split; [reflexivity|]); cbn;
    rewrite ?app_nil_r; auto.
Qed.

Section Outcomes.
Context `{Externals}.

Lemma run_ffmpeg_outcome (input output : string) (range : option (float * float))
    (w : world) :
  exists w1,
    run_ffmpeg input output range w
    = ((if exit_ok (ffmpeg input output range) then Ok tt else Raise CalledProcessError), w1)
    /\ log w1 = (log w ++ [EvFfmpeg input output range])%list.
Proof.
  unfold run_ffmpeg, bind, emit, when, create_file, ret, raise.
  destruct (output_written _), (exit_ok _); eexists; split; reflexivity.
Qed.

Lemma transcribe_segment_audio_outcome (model_name path : string)
    (language task : option string) (verbose_flag : bool) (w : world) :
  exists w1,
    transcribe_segment_audio model_name path language task verbose_flag w
    = (match model_transcribe model_name path (option_if_true language)
               (option_if_true task) with
       | Ok res => Ok (answer_text res)
       | Raise e => Raise e
       end, w1) /\
    fs w1 = fs w /\
    log w1 = (log w ++ printed verbose_flag (MsgWhisperCall language task)
              ++ [EvTranscribe path (option_if_true language) (option_if_true task)])%list.
Proof.
  unfold transcribe_segment_audio. unfold bind at 1.
  destruct (when_print_outcome verbose_flag (MsgWhisperCall language task) w)
    as [w0 [-> [Hfs Hlog]]].
  unfold call_transcribe, bind, emit, lift_result, answer_text.
  destruct (model_transcribe _ _ _ _) as [res|e].
  - destruct (default [] (res_segments res)); eexists; (split; [reflexivity|]);
      cbn [fs log]; rewrite Hlog, <- app_assoc; auto.
  - eexists; (split; [reflexivity|]); cbn [fs log]; rewrite Hlog, <- app_assoc; auto.
Qed.

Lemma finally_remove_fst {A : Type} (body : M A) (path : string) (w : world) :
  fst (try_finally body (remove_if_exists path) w) = fst (body w).
Proof.
  unfold try_finally. destruct (body w) as [r w1].
  destruct (remove_if_exists_removes path w1) as [w2 [-> _]]. reflexivity.
Qed.

(** X4.  [transcribe_segment_audio] calls whisper once, with a language
    and a task only when they are not empty, and changes no file.  The
    text it returns is trimmed; it is the joined texts of the segments of
    the answer when there is one, and the top-level text otherwise; it is
    empty exactly when that text is blank.  An exception of whisper is
    raised again. *)
Theorem segment_audio_text (model_name path : string) (language task : option string)
    (verbose_flag : bool) (w : world) :
  (exists w1,
     transcribe_segment_audio model_name path language task verbose_flag w
     = (match model_transcribe model_name path (option_if_true language)
                (option_if_true task) with
        | Ok res => Ok (answer_text res)
        | Raise e => Raise e
        end, w1) /\
     fs w1 = fs w /\
     log w1 = (log w ++ printed verbose_flag (MsgWhisperCall language task)
               ++ [EvTranscribe path (option_if_true language)
                     (option_if_true task)])%list) /\
  option_if_true (Some "") = None /\ option_if_true None = None /\
  (forall l, l <> "" -> option_if_true (Some l) = Some l) /\
  (forall res,
     trimmed (answer_text res) /\
     (answer_text res = "" <-> blank_answer res = true) /\
     (forall s segs, default [] (res_segments res) = s :: segs ->
        answer_text res
        = strip (join " " (map (fun r => strip (default "" (raw_text r))) (s :: segs))) /\
        blank_answer res = forallb (fun r => blank (default "" (raw_text r))) (s :: segs)) /\
     (default [] (res_segments res) = [] ->
        answer_text res = strip (default "" (res_text res)) /\
        blank_answer res = blank (default "" (res_text res)))).
Proof.
  split; [apply transcribe_segment_audio_outcome|].
  split; [reflexivity|]. split; [reflexivity|]. split.
  { intros [|c l] Hl; [contradiction | reflexivity]. }
  intros res. split; [apply answer_text_trimmed|]. split; [|split].
  - pose proof (answer_text_blank res) as Hb. rewrite <- truthy_false.
    destruct (blank_answer res), (truthy (answer_text res));
      cbn in Hb; split; congruence.
  - intros s segs E. unfold answer_text, blank_answer. rewrite E. auto.
  - intros E. unfold answer_text, blank_answer. rewrite E. auto.
Qed.

(** X5.  The outcome of the refiner and of the translator of a segment
    depends only on the exit status of ffmpeg and on the answer of whisper
    for the slice: a failed extraction, a blank answer and a
    [CalledProcessError] of whisper keep the text (leave the translation
    absent), another exception of whisper is raised again, and any other
    answer gives its text. *)
Theorem slice_steps_outcome (args : Args) (td audio_file : string) (idx : Z)
    (seg_start seg_end : float) (chosen_lang seg_text : string) (w : world) :
  fst (refine_segment args td audio_file idx seg_start seg_end chosen_lang seg_text w)
  = (if exit_ok (ffmpeg audio_file (refine_slice td idx) (Some (seg_start, seg_end)))
     then match model_transcribe (model args) (refine_slice td idx)
                  (option_if_true (Some chosen_lang)) None with
          | Ok res => Ok (if blank_answer res then seg_text else answer_text res)
          | Raise CalledProcessError => Ok seg_text
          | Raise e => Raise e
          end
     else Ok seg_text) /\
  fst (translate_segment args td audio_file idx seg_start seg_end w)
  = (if exit_ok (ffmpeg audio_file (translate_slice td idx) (Some (seg_start, seg_end)))
     then match model_transcribe (model args) (translate_slice td idx) None
                  (Some "translate") with
          | Ok res => Ok (if blank_answer res then None else Some (answer_text res))
          | Raise CalledProcessError => Ok None
          | Raise e => Raise e
          end
     else Ok None).
Proof.
  split.
  - unfold refine_segment. unfold bind at 1.
    destruct (when_print_outcome (verbose args)
                (MsgRefining (idx + 1) seg_start seg_end chosen_lang) w) as [w0 [-> _]].
    rewrite finally_remove_fst. unfold try_except, extract_audio_segment.
    unfold bind at 1.
    destruct (run_ffmpeg_outcome audio_file (refine_slice td idx)
                (Some (seg_start, seg_end)) w0) as [w1 [-> _]].
    destruct (exit_ok _).
    + unfold bind at 1.
      destruct (transcribe_segment_audio_outcome (model args) (refine_slice td idx)
                  (Some chosen_lang) None (verbose args) w1) as [w2 [-> _]].
      change (option_if_true None) with (@None string).
      destruct (model_transcribe _ _ _ _) as [res|e].
      * rewrite answer_text_blank. destruct (blank_answer res); reflexivity.
      * destruct e; cbn [is_CalledProcessError]; try reflexivity.
        unfold bind.
        destruct (when_print_outcome (verbose args) MsgRefineExtractFailed w2)
          as [w3 [-> _]]. reflexivity.
    + cbn [is_CalledProcessError]. unfold bind.
      destruct (when_print_outcome (verbose args) MsgRefineExtractFailed w1)
        as [w3 [-> _]]. reflexivity.
  - unfold translate_segment. unfold bind at 1.
    destruct (when_print_outcome (verbose args) (MsgTranslating (idx + 1)) w)
      as [w0 [-> _]].
    rewrite finally_remove_fst. unfold try_except, extract_audio_segment.
    unfold bind at 1.
    destruct (run_ffmpeg_outcome audio_file (translate_slice td idx)
                (Some (seg_start, seg_end)) w0) as [w1 [-> _]].
    destruct (exit_ok _).
    + unfold bind at 1.
      destruct (transcribe_segment_audio_outcome (model args) (translate_slice td idx)
                  None (Some "translate") (verbose args) w1) as [w2 [-> _]].
      change (option_if_true None) with (@None string).
      change (option_if_true (Some "translate")) with (Some "translate").
      destruct (model_transcribe _ _ _ _) as [res|e].
      * rewrite answer_text_blank. destruct (blank_answer res); reflexivity.
      * destruct e; cbn [is_CalledProcessError]; try reflexivity.
        unfold bind.
        destruct (when_print_outcome (verbose args) MsgTranslateExtractFailed w2)
          as [w3 [-> _]]. reflexivity.
    + cbn [is_CalledProcessError]. unfold bind.
      destruct (when_print_outcome (verbose args) MsgTranslateExtractFailed w1)
        as [w3 [-> _]]. reflexivity.
Qed.

End Outcomes.

(** An answer with two segments: their trimmed texts are joined, and the
    top-level text is not used. *)
Lemma segment_audio_text_witness :
  default [] (res_segments
                {| res_segments :=
                     Some [ {| raw_start := None; raw_end := None;
                               raw_text := Some " Hello " |};
                            {| raw_start := None; raw_end := None;
                               raw_text := Some "world" |} ];
                   res_text := Some "unused"; res_language := None |})
  = [ {| raw_start := None; raw_end := None; raw_text := Some " Hello " |};
      {| raw_start := None; raw_end := None; raw_text := Some "world" |} ] /\
  answer_text
    {| res_segments :=
         Some [ {| raw_start := None; raw_end := None; raw_text := Some " Hello " |};
                {| raw_start := None; raw_end := None; raw_text := Some "world" |} ];
       res_text := Some "unused"; res_language := None |}
  = "Hello world".
Proof.
  split; [reflexivity|].
  destruct (segment_audio_text "small" "/tmp/td/segment_1.wav" None None false
              empty_world) as [_ [_ [_ [_ Hres]]]].
  destruct (Hres {| res_segments :=
                      Some [ {| raw_start := None; raw_end := None;
                                raw_text := Some " Hello " |};
                             {| raw_start := None; raw_end := None;
                                raw_text := Some "world" |} ];
                    res_text := Some "unused"; res_language := None |})
    as [_ [_ [Hsegs _]]].
  rewrite (proj1 (Hsegs _ _ eq_refl)). reflexivity.
Defined.

(** ** The events of a run *)

Lemma enumerate_ge {A : Type} (l : list A) (k i : Z) (x : A) :
  In (i, x) (enumerate k l) -> k <= i.
Proof.
  revert k. induction l as [|y l IH]; intros k; cbn [enumerate In]; [tauto|].
  intros [E|Hin]; [injection E as <- _; lia | apply IH in Hin; lia].
Qed.

Lemma in_pt_es_truthy (code : string) : in_pt_es code = true -> truthy code = true.
Proof. destruct code; [discriminate | reflexivity]. Qed.

Lemma runs_emitter (phi : event -> Prop) (path : string) (body : SE string unit) :
  (forall content, phi (EvWrite path content)) ->
  raises_of_timestamp (fst (body "")) ->
  runs (with_open_w path body) phi anything (fun e => e = ValueError \/ e = OverflowError).
Proof.
  intros Hphi Hr w. unfold with_open_w. destruct (body "") as [r content].
  exists [EvWrite path content]. cbn [fst snd log] in *.
  split; [reflexivity|]. split; [repeat constructor; apply Hphi|].
  destruct r; [exact I | exact Hr].
Qed.

Lemma original_body_returns (s : segment) (c : string) :
  exists c', write_original_body s c = (Ok tt, c').
Proof. rewrite write_original_body_spec. eauto. Qed.

Lemma translation_body_returns (s : segment) (c : string) :
  exists c', write_translation_body s c = (Ok tt, c').
Proof. rewrite write_translation_body_spec. eauto. Qed.

Section RunSteps.
Context `{Externals}.

Lemma runs_write_vtt_original (phi : event -> Prop) (segments : list segment)
    (path : string) :
  (forall content, phi (EvWrite path content)) ->
  runs (write_vtt_original segments path) phi anything
    (fun e => e = ValueError \/ e = OverflowError).
Proof.
  intros Hphi. apply runs_emitter; [exact Hphi|].
  unfold bind at 1. unfold f_write at 1.
  apply cues_raise, original_body_returns.
Qed.

Lemma runs_write_vtt_translation (phi : event -> Prop) (segments : list segment)
    (path : string) :
  (forall content, phi (EvWrite path content)) ->
  runs (write_vtt_translation segments path) phi anything
    (fun e => e = ValueError \/ e = OverflowError).
Proof.
  intros Hphi. apply runs_emitter; [exact Hphi|].
  unfold bind at 1. unfold f_write at 1.
  apply cues_raise, translation_body_returns.
Qed.

Lemma runs_write_srt_original (phi : event -> Prop) (segments : list segment)
    (path : string) :
  (forall content, phi (EvWrite path content)) ->
  runs (write_srt_original segments path) phi anything
    (fun e => e = ValueError \/ e = OverflowError).
Proof.
  intros Hphi. apply runs_emitter; [exact Hphi|].
  apply cues_raise, original_body_returns.
Qed.

Lemma runs_write_srt_translation (phi : event -> Prop) (segments : list segment)
    (path : string) :
  (forall content, phi (EvWrite path content)) ->
  runs (write_srt_translation segments path) phi anything
    (fun e => e = ValueError \/ e = OverflowError).
Proof.
  intros Hphi. apply runs_emitter; [exact Hphi|].
  apply cues_raise, translation_body_returns.
Qed.

Lemma runs_when_print (phi : event -> Prop) (E : exn -> Prop) (b : bool) (m : message) :
  (b = true -> phi (EvPrint m)) -> runs (when b (print m)) phi anything E.
Proof.
  intros Hm. apply runs_when; [|exact I].
  intros Hb. apply runs_print; [exact (Hm Hb) | exact I].
Qed.

Lemma runs_segment_audio (phi : event -> Prop) (model_name path : string)
    (language task : option string) (verbose_flag : bool) :
  (verbose_flag = true -> phi (EvPrint (MsgWhisperCall language task))) ->
  phi (EvTranscribe path (option_if_true language) (option_if_true task)) ->
  runs (transcribe_segment_audio model_name path language task verbose_flag) phi
    (fun t => exists u, t = strip u)
    (fun e => model_transcribe model_name path (option_if_true language)
                (option_if_true task) = Raise e).
Proof.
  intros Hp Ht. unfold transcribe_segment_audio.
  eapply runs_bind; [apply runs_when_print, Hp|].
  intros _ _. eapply runs_bind; [apply runs_call_transcribe, Ht|].
  intros res _. destruct (default [] (res_segments res));
    apply runs_ret; eexists; reflexivity.
Qed.

(** The refiner of a run. *)
Lemma run_refine_segment (args : Args) (idx : Z) (seg_start seg_end : float)
    (chosen_lang seg_text : string) :
  0 <= idx -> refine_per_segment args = true -> in_pt_es chosen_lang = true ->
  trimmed seg_text ->
  runs (refine_segment args tempdir extracted_audio idx seg_start seg_end
          chosen_lang seg_text)
    (run_event args)
    trimmed
    (fun ex => exists a l t, model_transcribe (model args) a l t = Raise ex).
Proof.
  intros Hidx Href Hlang Htext.
  assert (Hslice : run_slice args (refine_slice tempdir idx))
    by (left; split; [exact Href | exists idx; auto]).
  unfold refine_segment.
  eapply runs_bind; [apply runs_when_print; intros Hv; exact Hv|].
  intros _ _. apply runs_try_finally;
    [|apply runs_remove_if_exists; exact Hslice].
  eapply runs_try_except with
    (E1 := fun ex => ex = CalledProcessError \/
                     exists a l t, model_transcribe (model args) a l t = Raise ex).
  - eapply runs_bind.
    + eapply runs_weaken;
        [apply runs_run_ffmpeg with (phi := run_event args); split; [reflexivity|exact Hslice]
        | auto | intros a Ha; exact Ha | intros ex [-> _]; now left].
    + intros _ _. eapply runs_bind.
      * eapply runs_weaken;
          [apply runs_segment_audio with (phi := run_event args);
             [intros Hv; exact Hv|]
          | auto | intros a Ha; exact Ha
          | intros ex Hex; right; do 3 eexists; exact Hex].
        unfold option_if_true, truthy_opt. rewrite (in_pt_es_truthy _ Hlang).
        cbn. split; [exact Href|]. split; [exact Hlang | exists idx; auto].
      * intros new_text [u Hu]. destruct (truthy new_text) eqn:Et.
        -- apply runs_ret. subst new_text. apply strip_trimmed.
        -- apply runs_ret. exact Htext.
  - intros ex _ _. eapply runs_bind; [apply runs_when_print; intros Hv; exact Hv|].
    intros _ _. apply runs_ret. exact Htext.
  - intros ex [->|Hex] Hc; [discriminate | exact Hex].
Qed.

(** The translator of a run. *)
Lemma run_translate_segment (args : Args) (idx : Z) (seg_start seg_end : float) :
  0 <= idx -> no_translate args = false ->
  runs (translate_segment args tempdir extracted_audio idx seg_start seg_end)
    (run_event args) anything
    (fun ex => exists a l t, model_transcribe (model args) a l t = Raise ex).
Proof.
  intros Hidx Hnt.
  assert (Hslice : run_slice args (translate_slice tempdir idx))
    by (right; split; [exact Hnt | exists idx; auto]).
  unfold translate_segment.
  eapply runs_bind; [apply runs_when_print; intros Hv; exact Hv|].
  intros _ _. apply runs_try_finally;
    [|apply runs_remove_if_exists; exact Hslice].
  eapply runs_try_except with
    (E1 := fun ex => ex = CalledProcessError \/
                     exists a l t, model_transcribe (model args) a l t = Raise ex).
  - eapply runs_bind.
    + eapply runs_weaken;
        [apply runs_run_ffmpeg with (phi := run_event args); split; [reflexivity|exact Hslice]
        | auto | intros a Ha; exact Ha | intros ex [-> _]; now left].
    + intros _ _. eapply runs_bind.
      * eapply runs_weaken;
          [apply runs_segment_audio with (phi := run_event args);
             [intros Hv; exact Hv|]
          | auto | intros a Ha; exact Ha
          | intros ex Hex; right; do 3 eexists; exact Hex].
        cbn. split; [exact Hnt|]. split; [reflexivity | exists idx; auto].
      * intros trans_text _. destruct (truthy trans_text); apply runs_ret; exact I.
  - intros ex _ _. eapply runs_bind; [apply runs_when_print; intros Hv; exact Hv|].
    intros _ _. apply runs_ret. exact I.
  - intros ex [->|Hex] Hc; [discriminate | exact Hex].
Qed.

(** The loop body of a run: beside its events, the text of the record is
    trimmed, and there is no translation with [--no-translate]. *)
Lemma run_process_segment (args : Args) (overall_lang : option string) (idx : Z)
    (seg : raw_segment) :
  0 <= idx ->
  runs (process_segment args tempdir extracted_audio overall_lang idx seg)
    (run_event args)
    (fun r => trimmed (text r) /\
              (no_translate args = true -> translation r = None))
    (run_exn args).
Proof.
  intros Hidx. unfold process_segment. fold (segment_text seg).
  eapply runs_bind with (Q1 := fun d => d = classify (segment_text seg)).
  { unfold classify_text, classify. destruct (truthy (segment_text seg)) eqn:Et.
    - eapply runs_weaken;
        [apply runs_detect_lang_of_text with (phi := run_event args)
        | auto | auto | intros ex Hex; right; right; right; left; eexists; exact Hex].
      split; [apply truthy_true, Et | apply strip_trimmed].
    - apply runs_ret. reflexivity. }
  intros detected ->. fold (segment_lang seg overall_lang).
  eapply runs_bind with (Q1 := trimmed).
  { destruct (refine_per_segment args && in_pt_es (segment_lang seg overall_lang))
      eqn:Egate; [|apply runs_ret; apply strip_trimmed].
    apply andb_true_iff in Egate. destruct Egate as [Href Hlang].
    eapply runs_weaken;
      [apply run_refine_segment; [exact Hidx | exact Href | exact Hlang
                                 | apply strip_trimmed]
      | auto | auto | intros ex Hex; right; right; left; exact Hex]. }
  intros seg_text' Htext.
  eapply runs_bind with (Q1 := fun tr => no_translate args = true -> tr = None).
  { destruct (no_translate args) eqn:Ent; cbn [negb]; [apply runs_ret; reflexivity|].
    eapply runs_weaken;
      [apply run_translate_segment; [exact Hidx | exact Ent]
      | auto | intros; discriminate | intros ex Hex; right; right; left; exact Hex]. }
  intros tr Htr. apply runs_ret. cbn. auto.
Qed.

Lemma run_process_segments (args : Args) (overall_lang : option string)
    (base_segments : list raw_segment) :
  runs (process_segments args tempdir extracted_audio overall_lang base_segments)
    (run_event args)
    (fun processed =>
       Forall (fun r => trimmed (text r)) processed /\
       (no_translate args = true -> Forall (fun r => translation r = None) processed))
    (run_exn args).
Proof.
  unfold process_segments. apply runs_for_fold; [split; constructor|].
  intros processed [idx seg] [Ht Hn] Hin. apply enumerate_ge in Hin.
  eapply runs_bind; [apply run_process_segment, Hin|].
  intros r [Hr1 Hr2]. apply runs_ret. split.
  - apply Forall_app. split; [exact Ht | constructor; [exact Hr1 | constructor]].
  - intros Hnt. apply Forall_app. split; [auto | constructor; [auto | constructor]].
Qed.

Lemma run_write_outputs (args : Args) (processed : list segment) :
  Forall (fun r => trimmed (text r)) processed ->
  (no_translate args = true -> Forall (fun r => translation r = None) processed) ->
  runs (write_outputs args extracted_audio processed) (run_event args) anything
    (fun e => e = ValueError \/ e = OverflowError).
Proof.
  intros Htext Hnone. unfold write_outputs.
  eapply runs_bind; [apply runs_write_vtt_original; intros; now left|]. intros _ _.
  eapply runs_bind; [apply runs_when_print; intros Hv; exact Hv|]. intros _ _.
  eapply runs_bind.
  { apply runs_when with (Q := anything); [intros Hnt|exact I].
    apply negb_true_iff in Hnt.
    eapply runs_bind; [apply runs_write_vtt_translation; intros; cbn; auto|].
    intros _ _. apply runs_when_print. intros Hv; exact Hv. }
  intros _ _.
  eapply runs_bind; [apply runs_write_srt_original; intros; right; now left|]. intros _ _.
  eapply runs_bind; [apply runs_when_print; intros Hv; exact Hv|]. intros _ _.
  eapply runs_bind.
  { apply runs_when with (Q := anything); [intros Hnt|exact I].
    apply negb_true_iff in Hnt.
    eapply runs_bind; [apply runs_write_srt_translation; intros; cbn; auto|].
    intros _ _. apply runs_when_print. intros Hv; exact Hv. }
  intros _ _.
  eapply runs_bind; [apply runs_json_dump with (E := fun e => e = ValueError \/ e = OverflowError);
                     split; [reflexivity | split; [exact Htext | exact Hnone]]|].
  intros _ _.
  eapply runs_bind; [apply runs_when_print; intros Hv; exact Hv|]. intros _ _.
  apply runs_when; [intros Hk|exact I].
  eapply runs_bind; [apply runs_emit with (Q := anything); [|exact I]|].
  { cbn. auto. }
  intros _ _.
  eapply runs_bind.
  { apply runs_when with (Q := anything); [intros _; apply runs_create_file | exact I]. }
  intros _ _. apply runs_when_print. intros Hv; exact Hv.
Qed.

Lemma run_run_in (args : Args) :
  runs (run_in args tempdir) (run_event args) anything (run_exn args).
Proof.
  unfold run_in. fold extracted_audio.
  eapply runs_bind; [apply runs_when_print; intros Hv; exact Hv|].
  intros _ _. eapply runs_bind.
  { eapply runs_weaken;
      [apply (runs_run_ffmpeg (run_event args)); split; reflexivity
      | auto | intros; exact I | intros ex [-> Hex]; right; left; auto]. }
  intros _ _. eapply runs_bind with (Q1 := anything).
  { unfold transcribe_full_audio.
    eapply runs_bind; [apply runs_when_print; intros Hv; exact Hv|].
    intros _ _. eapply runs_bind.
    - eapply runs_weaken;
        [apply (runs_call_transcribe (run_event args)); reflexivity
        | auto | intros; exact I | intros ex Hex; right; right; left; do 3 eexists; exact Hex].
    - intros res _. apply runs_ret. exact I. }
  intros full _.
  eapply runs_bind; [apply runs_when_print; intros Hv; exact Hv|].
  intros _ _. eapply runs_bind; [apply run_process_segments|].
  intros processed [Htext Hnone].
  eapply runs_weaken;
    [apply run_write_outputs; [exact Htext | exact Hnone]
    | auto | auto | intros ex Hex; unfold run_exn; tauto].
Qed.

Lemma main_video_found (args : Args) (w : world) :
  video args ∈ fs w -> main args w = main_found args w.
Proof.
  intros Hv. unfold main. unfold bind at 1. unfold os_path_exists.
  rewrite bool_decide_eq_true_2 by exact Hv. reflexivity.
Qed.

Lemma main_video_missing (args : Args) (w : world) :
  video args ∉ fs w ->
  main args w
  = (Ok tt, {| fs := fs w; log := log w ++ [EvPrint (MsgVideoNotFound (video args))] |}).
Proof.
  intros Hv. unfold main. unfold bind at 1. unfold os_path_exists.
  rewrite bool_decide_eq_false_2 by exact Hv. reflexivity.
Qed.

Lemma run_main_found (args : Args) :
  runs (main_found args) (run_event args) anything (run_exn args).
Proof.
  unfold main_found.
  eapply runs_bind; [apply runs_when_print; intros Hv; exact Hv|].
  intros _ _. eapply runs_bind; [apply runs_emit with (Q := anything); [reflexivity|exact I]|].
  intros _ _. destruct (whisper_load_model (model args)) eqn:Eload;
    [apply runs_raise; left; exact Eload|].
  eapply runs_bind.
  - unfold with_temporary_directory. apply runs_try_finally; [apply run_run_in|].
    apply runs_silent. intros w. cbn. split; [reflexivity | exact I].
  - intros _ _. apply runs_when_print. intros Hv; exact Hv.
Qed.

(** The events and the exceptions of a run: the report of a missing video,
    or those of a run on a video that was found. *)
Lemma run_main (args : Args) :
  runs (main args)
    (fun ev => ev = EvPrint (MsgVideoNotFound (video args)) \/ run_event args ev)
    anything (run_exn args).
Proof.
  intros w. destruct (decide (video args ∈ fs w)) as [Hv|Hv].
  - rewrite (main_video_found args w Hv).
    destruct (run_main_found args w) as [evs [Hl [Hphi Hr]]].
    exists evs. split; [exact Hl|]. split; [|exact Hr].
    eapply Forall_impl; [exact Hphi|]. intros ev Hev. right. exact Hev.
  - rewrite (main_video_missing args w Hv). eexists. cbn [fst snd log].
    split; [reflexivity|]. split; [|exact I]. constructor; [now left | constructor].
Qed.

(** X6.  The calls of the tools in a run: the model that is loaded is the
    one of the arguments; whisper transcribes the extracted audio without
    options, the slices of the refiner with the language ["pt"] or ["es"]
    and no task (only with [--refine-per-segment]), and the slices of the
    translator with the task ["translate"] and no language (only without
    [--no-translate]); the detector gets only non-empty trimmed texts. *)
Theorem tool_calls (args : Args) :
  runs (main args)
    (fun ev =>
       match ev with
       | EvLoadModel name => name = model args
       | EvTranscribe audio None None => audio = extracted_audio
       | EvTranscribe audio (Some l) None =>
           refine_per_segment args = true /\ (l = "pt" \/ l = "es") /\
           is_refine_slice audio
       | EvTranscribe audio None (Some t) =>
           no_translate args = false /\ t = "translate" /\ is_translate_slice audio
       | EvTranscribe _ (Some _) (Some _) => False
       | EvDetect t => t <> "" /\ trimmed t
       | _ => True
       end)
    anything anything.
Proof.
  eapply runs_weaken; [apply run_main | | intros; exact I | intros; exact I].
  intros ev [->|Hev]; [exact I|]. destruct ev; try exact I; try exact Hev.
  destruct language as [l|], task as [t|]; try exact Hev.
  destruct Hev as [Hr [Hl Hs]]. split; [exact Hr|]. split; [|exact Hs].
  unfold in_pt_es in Hl. apply orb_true_iff in Hl.
  destruct Hl as [Hl|Hl]; apply String.eqb_eq in Hl; auto.
Qed.

(** X7.  Without [--verbose], [main] prints one thing only: the report
    of a missing video, when the video is missing. *)
Theorem quiet_run (args : Args) (w : world) :
  verbose args = false ->
  exists evs,
    log (snd (main args w)) = (log w ++ evs)%list /\
    Forall (fun ev => forall m, ev = EvPrint m ->
                      m = MsgVideoNotFound (video args) /\ video args ∉ fs w) evs.
Proof.
  intros Hq. destruct (decide (video args ∈ fs w)) as [Hv|Hv].
  - rewrite (main_video_found args w Hv).
    destruct (run_main_found args w) as [evs [Hl [Hphi _]]].
    exists evs. split; [exact Hl|]. eapply Forall_impl; [exact Hphi|].
    intros ev Hev m ->. exfalso. destruct m; cbn in Hev; congruence.
  - rewrite (main_video_missing args w Hv). eexists. cbn [snd log].
    split; [reflexivity|]. constructor; [|constructor].
    intros m [= <-]. auto.
Qed.

(** X8.  With [--no-translate], whisper is never asked to translate, no
    slice of the translator is extracted or removed, only the two original
    tracks are written, and no record of the JSON document has a
    translation. *)
Theorem no_translate_run (args : Args) :
  no_translate args = true ->
  runs (main args)
    (fun ev =>
       match ev with
       | EvTranscribe _ _ task => task = None
       | EvFfmpeg _ output (Some _) => is_refine_slice output
       | EvRemove path => is_refine_slice path
       | EvWrite path _ =>
           path = out_prefix args ++ ".original.vtt" \/
           path = out_prefix args ++ ".original.srt"
       | EvJsonDump _ records => Forall (fun r => translation r = None) records
       | _ => True
       end)
    anything anything.
Proof.
  intros Hnt.
  eapply runs_weaken; [apply run_main | | intros; exact I | intros; exact I].
  intros ev [->|Hev]; [exact I|]. destruct ev; try exact I; cbn in Hev.
  - destruct range; [|exact I]. destruct Hev as [_ [[_ Hs]|[Hf _]]]; [exact Hs | congruence].
  - destruct language, task; try reflexivity; try contradiction.
    destruct Hev as [Hf _]. congruence.
  - destruct Hev as [[_ Hs]|[Hf _]]; [exact Hs | congruence].
  - destruct Hev as [Hp|[Hp|[Hf _]]]; [auto | auto | congruence].
  - destruct Hev as [_ [_ Hn]]. exact (Hn Hnt).
Qed.


End RunSteps.

(** The sample run prints nothing. *)
Lemma quiet_run_witness :
  verbose sample_args = false /\
  exists evs,
    log (snd (main sample_args sample_world)) = (log sample_world ++ evs)%list /\
    Forall (fun ev => forall m, ev = EvPrint m ->
                      m = MsgVideoNotFound (video sample_args) /\
                      video sample_args ∉ fs sample_world) evs.
Proof. split; [reflexivity | apply (quiet_run sample_args sample_world); reflexivity]. Defined.

Lemma no_translate_run_witness :
  no_translate original_only_args = true /\
  runs (main original_only_args)
    (fun ev =>
       match ev with
       | EvTranscribe _ _ task => task = None
       | EvFfmpeg _ output (Some _) => is_refine_slice output
       | EvRemove path => is_refine_slice path
       | EvWrite path _ =>
           path = out_prefix original_only_args ++ ".original.vtt" \/
           path = out_prefix original_only_args ++ ".original.srt"
       | EvJsonDump _ records => Forall (fun r => translation r = None) records
       | _ => True
       end)
    anything anything.
Proof. split; [reflexivity | apply (no_translate_run original_only_args); reflexivity]. Defined.

(** ** The slices of a segment *)

Section SliceSteps.
Context `{Externals}.

Lemma refine_segment_steps (phi : event -> Prop) (args : Args) (td audio_file : string)
    (idx : Z) (seg_start seg_end : float) (chosen_lang seg_text : string) :
  (forall m, phi (EvPrint m)) ->
  phi (EvFfmpeg audio_file (refine_slice td idx) (Some (seg_start, seg_end))) ->
  (forall l, phi (EvTranscribe (refine_slice td idx) l None)) ->
  phi (EvRemove (refine_slice td idx)) ->
  trimmed seg_text ->
  runs (refine_segment args td audio_file idx seg_start seg_end chosen_lang seg_text)
    phi trimmed anything.
Proof.
  intros Hp Hf Ht Hr Htext. unfold refine_segment.
  eapply runs_bind; [apply runs_when_print; intros _; apply Hp|].
  intros _ _. apply runs_try_finally; [|apply runs_remove_if_exists, Hr].
  eapply runs_try_except with (E1 := anything).
  - eapply runs_bind.
    + eapply runs_weaken; [apply (runs_run_ffmpeg phi), Hf | auto | | ];
        intros; exact I.
    + intros _ _. eapply runs_bind.
      * eapply runs_weaken;
          [apply (runs_segment_audio phi); [intros _; apply Hp | apply Ht]
          | auto | intros a Ha; exact Ha | intros; exact I].
      * intros new_text [u ->]. destruct (truthy (strip u));
          apply runs_ret; [apply strip_trimmed | exact Htext].
  - intros ex _ _. eapply runs_bind; [apply runs_when_print; intros _; apply Hp|].
    intros _ _. apply runs_ret, Htext.
  - intros; exact I.
Qed.

Lemma translate_segment_steps (phi : event -> Prop) (args : Args)
    (td audio_file : string) (idx : Z) (seg_start seg_end : float) :
  (forall m, phi (EvPrint m)) ->
  phi (EvFfmpeg audio_file (translate_slice td idx) (Some (seg_start, seg_end))) ->
  phi (EvTranscribe (translate_slice td idx) None (Some "translate")) ->
  phi (EvRemove (translate_slice td idx)) ->
  runs (translate_segment args td audio_file idx seg_start seg_end) phi anything anything.
Proof.
  intros Hp Hf Ht Hr. unfold translate_segment.
  eapply runs_bind; [apply runs_when_print; intros _; apply Hp|].
  intros _ _. apply runs_try_finally; [|apply runs_remove_if_exists, Hr].
  eapply runs_try_except with (E1 := anything).
  - eapply runs_bind.
    + eapply runs_weaken; [apply (runs_run_ffmpeg phi), Hf | auto | | ];
        intros; exact I.
    + intros _ _. eapply runs_bind.
      * eapply runs_weaken;
          [apply (runs_segment_audio phi); [intros _; apply Hp | exact Ht]
          | auto | intros a Ha; exact Ha | intros; exact I].
      * intros t _. destruct (truthy t); apply runs_ret; exact I.
  - intros ex _ _. eapply runs_bind; [apply runs_when_print; intros _; apply Hp|].
    intros _ _. apply runs_ret. exact I.
  - intros; exact I.
Qed.

Lemma process_segment_steps (args : Args) (td audio_file : string)
    (overall_lang : option string) (idx : Z) (seg : raw_segment) :
  runs (process_segment args td audio_file overall_lang idx seg)
    (slice_step td audio_file idx seg) (fun r => trimmed (text r)) anything.
Proof.
  unfold process_segment. fold (segment_text seg).
  eapply runs_bind with (Q1 := anything).
  { unfold classify_text. destruct (truthy (segment_text seg)); [|apply runs_ret; exact I].
    eapply runs_weaken;
      [apply (runs_detect_lang_of_text (slice_step td audio_file idx seg)); reflexivity
      | auto | intros; exact I | intros; exact I]. }
  intros detected _. eapply runs_bind with (Q1 := trimmed).
  { destruct (_ && _); [|apply runs_ret, strip_trimmed].
    apply refine_segment_steps; cbn; auto. apply strip_trimmed. }
  intros seg_text' Htext. eapply runs_bind with (Q1 := anything).
  { destruct (negb _); [|apply runs_ret; exact I].
    apply translate_segment_steps; cbn; auto. }
  intros tr _. apply runs_ret. exact Htext.
Qed.

(** X10.  The loop body of a segment extracts slices only from the audio
    file it is given, at the start and the end of the record, into the
    slice file of the refiner or of the translator of that segment; it
    transcribes and removes only these two files, and calls the detector
    only on the text of the segment.  It loads no model and writes no
    output. *)
Theorem segment_slices (args : Args) (td audio_file : string)
    (overall_lang : option string) (idx : Z) (seg : raw_segment) :
  runs (process_segment args td audio_file overall_lang idx seg)
    (fun ev =>
       match ev with
       | EvPrint _ => True
       | EvDetect t => t = segment_text seg
       | EvFfmpeg input output range =>
           input = audio_file /\ range = Some (segment_start seg, segment_end seg) /\
           (output = refine_slice td idx \/ output = translate_slice td idx)
       | EvTranscribe audio language task =>
           (audio = refine_slice td idx /\ task = None) \/
           (audio = translate_slice td idx /\ language = None /\ task = Some "translate")
       | EvRemove path => path = refine_slice td idx \/ path = translate_slice td idx
       | _ => False
       end)
    anything anything.
Proof.
  eapply runs_weaken; [apply process_segment_steps | | intros; exact I | auto].
  intros ev Hev. exact Hev.
Qed.

(** X11.  The text of every record is trimmed, whether it is the text of
    the raw segment or a refinement: the [strip] of the emitters changes
    nothing, so the original tracks show the text of the JSON document,
    after the language tag if there is one. *)
Theorem record_text_trimmed (args : Args) :
  (forall td audio_file overall_lang idx seg,
     runs (process_segment args td audio_file overall_lang idx seg) anything
       (fun r => trimmed (text r) /\ strip (text r) = text r /\
                 cue_body Original r
                 = if truthy (lang r) then "[" ++ lang r ++ "] " ++ text r
                   else text r)
       anything) /\
  runs (main args)
    (fun ev => match ev with
               | EvJsonDump _ records => Forall (fun r => strip (text r) = text r) records
               | _ => True
               end)
    anything anything.
Proof.
  split.
  - intros. eapply runs_weaken;
      [apply process_segment_steps | intros; exact I | | intros; exact I].
    intros r Hr. split; [exact Hr|]. split; [apply strip_id, Hr|].
    cbn [cue_body]. unfold original_body. now rewrite (strip_id _ Hr).
  - eapply runs_weaken; [apply run_main | | intros; exact I | intros; exact I].
    intros ev [->|Hev]; [exact I|]. destruct ev; try exact I.
    destruct Hev as [_ [Htext _]]. eapply Forall_impl; [exact Htext|].
    intros r Hr. apply strip_id, Hr.
Qed.

End SliceSteps.

(** ** The names of the slice files *)

(** [str(z)] determines [z]. *)
Lemma str_int_inj (a b : Z) : str_int a = str_int b -> a = b.
Proof.
  unfold str_int. intros E.
  assert (Hne : forall z, Z.to_int z <> Decimal.Pos Decimal.Nil /\
                          Z.to_int z <> Decimal.Neg Decimal.Nil).
  { intros z. split; intros Hz; pose proof (DecimalZ.of_to z) as Hof;
      rewrite Hz in Hof; cbn in Hof; subst z; discriminate Hz. }
  pose proof (NilZero.isi (Z.to_int a) (proj1 (Hne a)) (proj2 (Hne a))) as Ha.
  pose proof (NilZero.isi (Z.to_int b) (proj1 (Hne b)) (proj2 (Hne b))) as Hb.
  rewrite E in Ha. rewrite Ha in Hb. injection Hb as Hab.
  rewrite <- (DecimalZ.of_to a), <- (DecimalZ.of_to b). now rewrite Hab.
Qed.

Lemma string_of_uint_no_underscore (d : Decimal.uint) :
  no_underscore (NilEmpty.string_of_uint d) = true.
Proof. induction d; cbn; auto. Qed.

Lemma str_int_no_underscore (z : Z) : no_underscore (str_int z) = true.
Proof.
  unfold str_int, NilZero.string_of_int, NilZero.string_of_uint.
  destruct (Z.to_int z) as [d|d]; destruct d; cbn;
    try reflexivity; apply string_of_uint_no_underscore.
Qed.

Lemma length_append (s t : string) :
  String.length (s ++ t) = (String.length s + String.length t)%nat.
Proof. induction s as [|c s IH]; cbn; [reflexivity | now rewrite IH]. Qed.

Lemma append_inv_tail (s t u : string) : s ++ u = t ++ u -> s = t.
Proof.
  revert t. induction s as [|c s IH]; intros [|d t] E; cbn in E.
  - reflexivity.
  - apply (f_equal String.length) in E. cbn in E. rewrite length_append in E. lia.
  - apply (f_equal String.length) in E. cbn in E. rewrite length_append in E. lia.
  - injection E as -> E. f_equal. apply IH, E.
Qed.

Lemma suffixes_differ (a b : string) :
  no_underscore a = true -> a ++ ".wav" <> b ++ "_t.wav".
Proof.
  revert b. induction a as [|c a IH]; intros [|d b] Ha E; cbn in E.
  - discriminate E.
  - apply (f_equal String.length) in E. cbn in E. rewrite length_append in E.
    cbn in E. lia.
  - injection E as -> _. discriminate Ha.
  - injection E as _ E. cbn in Ha. apply andb_true_iff in Ha as [_ Ha].
    exact (IH b Ha E).
Qed.

(** X12.  The slice files of a run have different names: those of two
    segments differ, that of the refiner differs from that of the
    translator, and none is the extracted audio. *)
Theorem slice_names_distinct (td : string) (i j : Z) :
  (refine_slice td i = refine_slice td j -> i = j) /\
  (translate_slice td i = translate_slice td j -> i = j) /\
  refine_slice td i <> translate_slice td j /\
  refine_slice td i <> path_join td "extracted_audio.wav" /\
  translate_slice td i <> path_join td "extracted_audio.wav".
Proof.
  unfold refine_slice, translate_slice, path_join.
  repeat split; intros E; apply append_inv_head in E; cbn in E.
  - injection E as E. apply append_inv_tail, str_int_inj in E. lia.
  - injection E as E. apply append_inv_tail, str_int_inj in E. lia.
  - injection E as E. exact (suffixes_differ _ _ (str_int_no_underscore _) E).
  - discriminate E.
  - discriminate E.
Qed.

(** ** The files of a run *)

Section KeepsRules.
Context {A B : Type}.
Implicit Types (C R : string -> Prop).

Lemma keeps_still C R (m : M A) : (forall w, fs (snd (m w)) = fs w) -> keeps m C R.
Proof. intros Hm w p. rewrite Hm. auto. Qed.

Lemma keeps_ret C R (a : A) : keeps (ret a) C R.
Proof. apply keeps_still. reflexivity. Qed.

Lemma keeps_raise C R (e : exn) : keeps (raise e : M A) C R.
Proof. apply keeps_still. reflexivity. Qed.

Lemma keeps_lift_result C R (r : result A) : keeps (lift_result r) C R.
Proof. apply keeps_still. reflexivity. Qed.

Lemma keeps_bind C R (m : M A) (k : A -> M B) :
  keeps m C R -> (forall a, keeps (k a) C R) -> keeps (bind m k) C R.
Proof.
  intros Hm Hk w p. unfold bind. destruct (Hm w p) as [H1 H2].
  destruct (m w) as [[a|e] w1]; cbn [fst snd] in *; [|auto].
  destruct (Hk a w1 p) as [H3 H4]. split.
  - intros Hp. destruct (H3 Hp) as [Hp'|Hc]; auto.
  - intros Hp. destruct (H2 Hp) as [Hp'|Hr]; auto.
Qed.

Lemma keeps_weaken C C' R R' (m : M A) :
  keeps m C R -> (forall p, C p -> C' p) -> (forall p, R p -> R' p) -> keeps m C' R'.
Proof.
  intros Hm HC HR w p. destruct (Hm w p) as [H1 H2]. split; intros Hp.
  - destruct (H1 Hp); auto.
  - destruct (H2 Hp); auto.
Qed.

Lemma keeps_try_except C R (m handler : M A) (catches : exn -> bool) :
  keeps m C R -> keeps handler C R -> keeps (try_except m catches handler) C R.
Proof.
  intros Hm Hh w p. unfold try_except. destruct (Hm w p) as [H1 H2].
  destruct (m w) as [[a|e] w1]; cbn [fst snd] in *; [auto|].
  destruct (catches e); cbn [fst snd]; [|auto].
  destruct (Hh w1 p) as [H3 H4]. split; intros Hp.
  - destruct (H3 Hp) as [Hp'|Hc]; auto.
  - destruct (H2 Hp) as [Hp'|Hr]; auto.
Qed.

Lemma keeps_try_finally C R (m : M A) (fin : M unit) :
  keeps m C R -> keeps fin C R -> keeps (try_finally m fin) C R.
Proof.
  intros Hm Hf w p. unfold try_finally. destruct (Hm w p) as [H1 H2].
  destruct (m w) as [r w1]; cbn [fst snd] in *.
  destruct (Hf w1 p) as [H3 H4].
  destruct (fin w1) as [[u|e] w2]; cbn [fst snd] in *; split; intros Hp.
  - destruct (H3 Hp) as [Hp'|Hc]; auto.
  - destruct (H2 Hp) as [Hp'|Hr]; auto.
  - destruct (H3 Hp) as [Hp'|Hc]; auto.
  - destruct (H2 Hp) as [Hp'|Hr]; auto.
Qed.

End KeepsRules.

Lemma keeps_when (C R : string -> Prop) (b : bool) (m : M unit) :
  keeps m C R -> keeps (when b m) C R.
Proof. intros Hm. destruct b; [exact Hm | apply keeps_ret]. Qed.

Lemma keeps_for_fold {A B : Type} (C R : string -> Prop) (l : list A) (acc : B)
    (body : B -> A -> M B) :
  (forall b a, keeps (body b a) C R) -> keeps (for_fold l acc body) C R.
Proof.
  intros Hbody. revert acc. induction l as [|x l IH]; intros acc; cbn [for_fold].
  - apply keeps_ret.
  - apply keeps_bind; [apply Hbody | intros b; apply IH].
Qed.

Lemma keeps_emit (C R : string -> Prop) (ev : event) : keeps (emit ev) C R.
Proof. apply keeps_still. reflexivity. Qed.

Lemma keeps_print (C R : string -> Prop) (b : bool) (m : message) :
  keeps (when b (print m)) C R.
Proof. apply keeps_when, keeps_emit. Qed.

Lemma keeps_create_file (C R : string -> Prop) (path : string) :
  C path -> keeps (create_file path) C R.
Proof.
  intros Hc w p. cbn. split; [|intros Hp; left; apply elem_of_union; auto].
  intros Hp. apply elem_of_union in Hp. destruct Hp as [Hp|Hp]; [|auto].
  apply elem_of_singleton in Hp. subst p. auto.
Qed.

Lemma keeps_with_open_w (C R : string -> Prop) (path : string) (body : SE string unit) :
  C path -> keeps (with_open_w path body) C R.
Proof.
  intros Hc w p. unfold with_open_w. destruct (body "") as [r content]. cbn.
  split; [|intros Hp; left; apply elem_of_union; auto].
  intros Hp. apply elem_of_union in Hp. destruct Hp as [Hp|Hp]; [|auto].
  apply elem_of_singleton in Hp. subst p. auto.
Qed.

Lemma keeps_json_dump (C R : string -> Prop) (path : string) (records : list segment) :
  C path -> keeps (json_dump path records) C R.
Proof.
  intros Hc w p. cbn. split; [|intros Hp; left; apply elem_of_union; auto].
  intros Hp. apply elem_of_union in Hp. destruct Hp as [Hp|Hp]; [|auto].
  apply elem_of_singleton in Hp. subst p. auto.
Qed.

Lemma prefix_append (s t : string) : String.prefix s (s ++ t) = true.
Proof.
  induction s as [|c s IH]; cbn; [destruct t; reflexivity|].
  destruct (ascii_dec c c); [exact IH | congruence].
Qed.

Lemma is_under_path_join (dir name : string) : is_under dir (path_join dir name) = true.
Proof.
  unfold is_under, path_join.
  replace (dir ++ "/" ++ name) with ((dir ++ "/") ++ name)
    by (rewrite append_assoc; reflexivity).
  apply prefix_append.
Qed.

Lemma when_print_files (b : bool) (m : message) (w : world) :
  exists w1, when b (print m) w = (Ok tt, w1) /\ fs w1 = fs w.
Proof. destruct b; eexists; split; reflexivity. Qed.

Section KeepsSteps.
Context `{Externals}.
Implicit Types (C R : string -> Prop).

Lemma keeps_os_remove C R (path : string) : R path -> keeps (os_remove path) C R.
Proof.
  intros Hr. unfold os_remove. apply keeps_bind; [apply keeps_emit|].
  intros _. apply keeps_bind; [apply keeps_still; reflexivity|].
  intros ex. destruct (ex && os_remove_ok path); [|apply keeps_raise].
  intros w p. cbn. split.
  - intros Hp. apply elem_of_difference in Hp. tauto.
  - intros Hp. destruct (decide (p = path)) as [->|Hne]; [auto|].
    left. apply elem_of_difference. split; [exact Hp|].
    intros Hin. apply elem_of_singleton in Hin. contradiction.
Qed.

Lemma keeps_remove_if_exists C R (path : string) :
  R path -> keeps (remove_if_exists path) C R.
Proof.
  intros Hr. unfold remove_if_exists. apply keeps_bind; [apply keeps_still; reflexivity|].
  intros ex. destruct ex; [|apply keeps_ret].
  apply keeps_try_except; [apply keeps_os_remove, Hr | apply keeps_ret].
Qed.

Lemma keeps_run_ffmpeg C R (input output : string) (range : option (float * float)) :
  C output -> keeps (run_ffmpeg input output range) C R.
Proof.
  intros Hc. unfold run_ffmpeg. apply keeps_bind; [apply keeps_emit|].
  intros _. apply keeps_bind; [apply keeps_when, keeps_create_file, Hc|].
  intros _. destruct (exit_ok _); [apply keeps_ret | apply keeps_raise].
Qed.

Lemma keeps_call_transcribe C R (model_name audio : string) (language task : option string) :
  keeps (call_transcribe model_name audio language task) C R.
Proof.
  unfold call_transcribe. apply keeps_bind; [apply keeps_emit|].
  intros _. apply keeps_lift_result.
Qed.

Lemma keeps_transcribe_segment_audio C R (model_name path : string)
    (language task : option string) (verbose_flag : bool) :
  keeps (transcribe_segment_audio model_name path language task verbose_flag) C R.
Proof.
  unfold transcribe_segment_audio. apply keeps_bind; [apply keeps_print|].
  intros _. apply keeps_bind; [apply keeps_call_transcribe|].
  intros res. destruct (default [] (res_segments res)); apply keeps_ret.
Qed.

Lemma keeps_detect_lang_of_text C R (seg_text : string) :
  keeps (detect_lang_of_text seg_text) C R.
Proof.
  unfold detect_lang_of_text. apply keeps_bind.
  - apply keeps_try_except; [|apply keeps_ret].
    apply keeps_bind; [apply keeps_emit|]. intros _.
    apply keeps_bind; [apply keeps_lift_result | intros; apply keeps_ret].
  - intros [code|]; [|apply keeps_ret].
    destruct (startswith code "pt"); [apply keeps_ret|].
    destruct (startswith code "es"); apply keeps_ret.
Qed.

Lemma keeps_refine_segment C R (args : Args) (td audio_file : string) (idx : Z)
    (seg_start seg_end : float) (chosen_lang seg_text : string) :
  C (refine_slice td idx) -> R (refine_slice td idx) ->
  keeps (refine_segment args td audio_file idx seg_start seg_end chosen_lang seg_text) C R.
Proof.
  intros Hc Hr. unfold refine_segment. apply keeps_bind; [apply keeps_print|].
  intros _. apply keeps_try_finally; [|apply keeps_remove_if_exists, Hr].
  apply keeps_try_except.
  - apply keeps_bind; [apply keeps_run_ffmpeg, Hc|]. intros _.
    apply keeps_bind; [apply keeps_transcribe_segment_audio|].
    intros t. destruct (truthy t); apply keeps_ret.
  - apply keeps_bind; [apply keeps_print | intros; apply keeps_ret].
Qed.

Lemma keeps_translate_segment C R (args : Args) (td audio_file : string) (idx : Z)
    (seg_start seg_end : float) :
  C (translate_slice td idx) -> R (translate_slice td idx) ->
  keeps (translate_segment args td audio_file idx seg_start seg_end) C R.
Proof.
  intros Hc Hr. unfold translate_segment. apply keeps_bind; [apply keeps_print|].
  intros _. apply keeps_try_finally; [|apply keeps_remove_if_exists, Hr].
  apply keeps_try_except.
  - apply keeps_bind; [apply keeps_run_ffmpeg, Hc|]. intros _.
    apply keeps_bind; [apply keeps_transcribe_segment_audio|].
    intros t. destruct (truthy t); apply keeps_ret.
  - apply keeps_bind; [apply keeps_print | intros; apply keeps_ret].
Qed.

(** The loop creates and removes files only under [td]. *)
Lemma keeps_process_segment (args : Args) (td audio_file : string)
    (overall_lang : option string) (idx : Z) (seg : raw_segment) :
  keeps (process_segment args td audio_file overall_lang idx seg)
    (fun p => is_under td p = true) (fun p => is_under td p = true).
Proof.
  unfold process_segment. apply keeps_bind.
  { unfold classify_text. destruct (truthy _);
      [apply keeps_detect_lang_of_text | apply keeps_ret]. }
  intros detected. apply keeps_bind.
  { destruct (_ && _); [|apply keeps_ret].
    apply keeps_refine_segment; apply is_under_path_join. }
  intros t. apply keeps_bind; [|intros; apply keeps_ret].
  destruct (negb _); [|apply keeps_ret].
  apply keeps_translate_segment; apply is_under_path_join.
Qed.

Lemma keeps_process_segments (args : Args) (td audio_file : string)
    (overall_lang : option string) (base_segments : list raw_segment) :
  keeps (process_segments args td audio_file overall_lang base_segments)
    (fun p => is_under td p = true) (fun p => is_under td p = true).
Proof.
  unfold process_segments. apply keeps_for_fold. intros processed [idx seg].
  apply keeps_bind; [apply keeps_process_segment | intros; apply keeps_ret].
Qed.

Lemma keeps_write_outputs R (args : Args) (processed : list segment) :
  keeps (write_outputs args extracted_audio processed)
    (fun p => In p (output_paths args)) R.
Proof.
  unfold write_outputs, output_paths, required_outputs, kept_audio.
  destruct (no_translate args), (keep_audio args); cbn [when negb app];
    repeat first
      [ apply keeps_ret
      | apply keeps_print
      | apply keeps_emit
      | apply keeps_when
      | apply keeps_with_open_w; in_list
      | apply keeps_json_dump; in_list
      | apply keeps_create_file; in_list
      | apply keeps_bind; [|intros _] ].
Qed.

Lemma keeps_run_in (args : Args) :
  keeps (run_in args tempdir)
    (fun p => is_under tempdir p = true \/ In p (output_paths args))
    (fun p => is_under tempdir p = true).
Proof.
  unfold run_in. fold extracted_audio.
  apply keeps_bind; [apply keeps_print|]. intros _.
  apply keeps_bind; [apply keeps_run_ffmpeg; left; apply is_under_path_join|]. intros _.
  apply keeps_bind.
  { unfold transcribe_full_audio. apply keeps_bind; [apply keeps_print|]. intros _.
    apply keeps_bind; [apply keeps_call_transcribe | intros; apply keeps_ret]. }
  intros full. apply keeps_bind; [apply keeps_print|]. intros _.
  apply keeps_bind.
  - eapply keeps_weaken;
      [apply keeps_process_segments | intros q Hq; left; exact Hq | intros q Hq; exact Hq].
  - intros processed. eapply keeps_weaken;
      [apply keeps_write_outputs | intros q Hq; right; exact Hq | intros q Hq; exact Hq].
Qed.

(** After the block of the temporary directory, what is left is what was
    there outside of the directory, and written files outside of it. *)
Lemma temporary_directory_files (args : Args) (w : world) (p : string) :
  let w' := snd (with_temporary_directory (run_in args) w) in
  (p ∈ fs w' -> is_under tempdir p = false /\ (p ∈ fs w \/ In p (output_paths args))) /\
  (p ∈ fs w -> is_under tempdir p = false -> p ∈ fs w').
Proof.
  unfold with_temporary_directory, try_finally.
  destruct (keeps_run_in args w p) as [H1 H2].
  destruct (run_in args tempdir w) as [r w1]; cbn [fst snd fs] in *. split.
  - intros Hp. apply elem_of_filter in Hp. destruct Hp as [Hu Hp].
    split; [exact Hu|]. destruct (H1 Hp) as [Hw|[Hc|Hc]]; [auto | congruence | auto].
  - intros Hp Hu. apply elem_of_filter. split; [exact Hu|].
    destruct (H2 Hp) as [Hw|Hr]; [exact Hw | congruence].
Qed.

Lemma main_found_cases (args : Args) (w : world) :
  (exists e, whisper_load_model (model args) = Some e /\
             fs (snd (main_found args w)) = fs w) \/
  (whisper_load_model (model args) = None /\
   exists w1, fs w1 = fs w /\
     fs (snd (main_found args w))
     = fs (snd (with_temporary_directory (run_in args) w1))).
Proof.
  destruct (when_print_files (verbose args) (MsgLoadingModel (model args)) w)
    as [w0 [E E0]].
  destruct (whisper_load_model (model args)) as [e|] eqn:Eload; [left | right].
  - exists e. split; [reflexivity|].
    unfold main_found. rewrite Eload. unfold bind at 1. rewrite E. cbn. exact E0.
  - split; [reflexivity|].
    exists {| fs := fs w0; log := (log w0 ++ [EvLoadModel (model args)])%list |}.
    split; [exact E0|]. unfold main_found. rewrite Eload.
    unfold bind at 1. rewrite E. unfold bind at 1. unfold emit at 1. unfold bind.
    destruct (with_temporary_directory _ _) as [[u|e] w2]; cbn [fst snd]; [|reflexivity].
    destruct (when_print_files (verbose args) MsgDone w2) as [w3 [-> E3]]. exact E3.
Qed.

Lemma main_found_files (args : Args) (w : world) (p : string) :
  let w' := snd (main_found args w) in
  (p ∈ fs w' -> p ∈ fs w \/ In p (output_paths args)) /\
  (p ∈ fs w -> is_under tempdir p = false -> p ∈ fs w') /\
  (whisper_load_model (model args) = None -> p ∈ fs w' -> is_under tempdir p = false).
Proof.
  intros w'. subst w'.
  destruct (main_found_cases args w) as [[e [Hl ->]]|[Hl [w1 [E1 ->]]]].
  - split; [auto|]. split; [auto | congruence].
  - destruct (temporary_directory_files args w1 p) as [Ha Hb]. rewrite E1 in Ha, Hb.
    split; [|split]; [| exact Hb |]; intros; apply Ha; assumption.
Qed.

(** X13.  The files of a run: a file that exists after [main] existed
    before or is one of the outputs; a file outside of the temporary
    directory that existed before still exists; and once the video is
    found and the model is loaded, nothing is left under the temporary
    directory. *)
Theorem main_keeps_files (args : Args) (w : world) (p : string) :
  (p ∈ fs (snd (main args w)) -> p ∈ fs w \/ In p (output_paths args)) /\
  (p ∈ fs w -> is_under tempdir p = false -> p ∈ fs (snd (main args w))) /\
  (video args ∈ fs w -> whisper_load_model (model args) = None ->
   p ∈ fs (snd (main args w)) -> is_under tempdir p = false).
Proof.
  destruct (decide (video args ∈ fs w)) as [Hv|Hv].
  - rewrite (main_video_found args w Hv).
    destruct (main_found_files args w p) as [H1 [H2 H3]]. auto.
  - rewrite (main_video_missing args w Hv). cbn [snd fs].
    split; [auto|]. split; [auto | contradiction].
Qed.

End KeepsSteps.

(** The video of the sample run is still there after the run. *)
Lemma main_keeps_files_witness :
  ("talk.mp4" ∈ fs sample_world) /\ is_under tempdir "talk.mp4" = false /\
  "talk.mp4" ∈ fs (snd (main sample_args sample_world)).
Proof.
  assert (Hv : "talk.mp4" ∈ fs sample_world)
    by (apply (bool_decide_unpack _); vm_compute; exact I).
  split; [exact Hv|]. split; [reflexivity|].
  apply (proj1 (proj2 (main_keeps_files sample_args sample_world "talk.mp4")));
    [exact Hv | reflexivity].
Defined.

(** ** The files that a run leaves *)

Lemma bind_ok {S A B : Type} (m : SE S A) (k : A -> SE S B) (s s' : S) (b : B) :
  bind m k s = (Ok b, s') -> exists a s1, m s = (Ok a, s1) /\ k a s1 = (Ok b, s').
Proof.
  unfold bind. destruct (m s) as [[a|e] s1]; [eauto | discriminate].
Qed.

Lemma leaves_bind {A B : Type} (m : M A) (k : A -> M B) (P1 P2 P : string -> Prop) :
  leaves m P1 -> (forall a, leaves (k a) P2) ->
  (forall p, P p -> P1 p \/ P2 p) ->
  leaves (bind m k) P.
Proof.
  intros Hm Hk HP w. unfold bind. specialize (Hm w).
  destruct (m w) as [[a|e] w1]; cbn [fst snd] in *; [|exact I].
  specialize (Hk a w1). destruct (k a w1) as [[b|e] w2]; cbn [fst snd] in *; [|exact I].
  intros p [Hp|Hp]; [destruct (HP p Hp)|]; auto.
Qed.

Lemma leaves_still {A : Type} (m : M A) :
  (forall w, fs (snd (m w)) = fs w) -> leaves m (fun _ => False).
Proof.
  intros Hm w. destruct (fst (m w)); [|exact I]. intros p [[]|Hp]. now rewrite Hm.
Qed.

Lemma leaves_print (b : bool) (m : message) : leaves (when b (print m)) (fun _ => False).
Proof. apply leaves_still. intros w. destruct b; reflexivity. Qed.

Lemma leaves_with_open_w (path : string) (body : SE string unit) :
  leaves (with_open_w path body) (fun p => p = path).
Proof.
  intros w. unfold with_open_w. destruct (body "") as [[u|e] c]; cbn; [|exact I].
  intros p [->|Hp]; apply elem_of_union; [left; now apply elem_of_singleton | now right].
Qed.

Lemma leaves_json_dump (path : string) (records : list segment) :
  leaves (json_dump path records) (fun p => p = path).
Proof.
  intros w. cbn.
  intros p [->|Hp]; apply elem_of_union; [left; now apply elem_of_singleton | now right].
Qed.

Lemma leaves_weaken {A : Type} (m : M A) (P Q : string -> Prop) :
  leaves m P -> (forall p, Q p -> P p) -> leaves m Q.
Proof.
  intros Hm HQ w. specialize (Hm w). destruct (fst (m w)); [|exact I].
  intros p [Hp|Hp]; auto.
Qed.

Lemma leaves_when (b : bool) (m : M unit) (P : string -> Prop) :
  leaves m P -> leaves (when b m) (fun p => b = true /\ P p).
Proof.
  intros Hm. destruct b; cbn [when].
  - eapply leaves_weaken; [exact Hm | tauto].
  - intros w. cbn. intros p [[? _]|Hp]; [discriminate | exact Hp].
Qed.

Section OutputsExist.
Context `{Externals}.

Lemma leaves_write_outputs (args : Args) (audio_file : string)
    (processed : list segment) :
  leaves (write_outputs args audio_file processed)
    (fun p => In p (required_outputs args)).
Proof.
  unfold write_outputs, required_outputs.
  eapply leaves_bind with (P1 := fun p => p = out_prefix args ++ ".original.vtt")
    (P2 := fun p => In p ([out_prefix args ++ ".original.srt"; out_prefix args ++ ".json"]
                          ++ if no_translate args then []
                             else [out_prefix args ++ ".en.vtt";
                                   out_prefix args ++ ".en.srt"]));
    [apply leaves_with_open_w | intros _ | cbn; intuition auto].
  eapply leaves_bind with (P1 := fun _ => False);
    [apply leaves_print | intros _ | intros p Hp; right; exact Hp].
  eapply leaves_bind with
    (P1 := fun p => negb (no_translate args) = true /\ p = out_prefix args ++ ".en.vtt")
    (P2 := fun p => In p ([out_prefix args ++ ".original.srt"; out_prefix args ++ ".json"]
                          ++ if no_translate args then []
                             else [out_prefix args ++ ".en.srt"])).
  { apply leaves_when.
    eapply leaves_bind with (P2 := fun _ => False);
      [apply leaves_with_open_w | intros _; apply leaves_print | auto]. }
  2: { destruct (no_translate args); cbn; intuition auto. }
  intros _.
  eapply leaves_bind with (P1 := fun p => p = out_prefix args ++ ".original.srt")
    (P2 := fun p => In p ([out_prefix args ++ ".json"]
                          ++ if no_translate args then []
                             else [out_prefix args ++ ".en.srt"]));
    [apply leaves_with_open_w | intros _ | cbn; intuition auto].
  eapply leaves_bind with (P1 := fun _ => False);
    [apply leaves_print | intros _ | intros p Hp; right; exact Hp].
  eapply leaves_bind with
    (P1 := fun p => negb (no_translate args) = true /\ p = out_prefix args ++ ".en.srt")
    (P2 := fun p => p = out_prefix args ++ ".json").
  { apply leaves_when.
    eapply leaves_bind with (P2 := fun _ => False);
      [apply leaves_with_open_w | intros _; apply leaves_print | auto]. }
  2: { destruct (no_translate args); cbn; intuition auto. }
  intros _.
  eapply leaves_bind with (P2 := fun _ => False);
    [apply leaves_json_dump | intros _ | auto].
  eapply leaves_bind with (P1 := fun _ => False) (P2 := fun _ => False);
    [apply leaves_print | intros _ | auto].
  eapply leaves_weaken with (P := fun p => keep_audio args = true /\ False); [|intros p []].
  apply leaves_when.
  eapply leaves_bind with (P1 := fun _ => False) (P2 := fun _ => False);
    [apply leaves_still; reflexivity | intros _ | auto].
  eapply leaves_bind with (P1 := fun _ => False) (P2 := fun _ => False);
    [| intros _; apply leaves_print | auto].
  intros w. destruct (cp_writes _ _); cbn; intros p [[]|Hp]; [|exact Hp].
  apply elem_of_union. now right.
Qed.

(** When the block returns, it has written the required files. *)
Lemma run_in_outputs (args : Args) (td : string) (w w' : world) (p : string) :
  run_in args td w = (Ok tt, w') -> In p (required_outputs args) -> p ∈ fs w'.
Proof.
  unfold run_in. intros Hrun Hp.
  apply bind_ok in Hrun as [_ [w1 [_ Hrun]]].
  apply bind_ok in Hrun as [_ [w2 [_ Hrun]]].
  apply bind_ok in Hrun as [full [w3 [_ Hrun]]].
  apply bind_ok in Hrun as [_ [w4 [_ Hrun]]].
  apply bind_ok in Hrun as [processed [w5 [_ Hrun]]].
  pose proof (leaves_write_outputs args (path_join td "extracted_audio.wav") processed w5)
    as Hl.
  rewrite Hrun in Hl. cbn [fst snd] in Hl. apply Hl. now left.
Qed.

(** X14.  A run on an existing video that returns has left every required
    output file, unless the output prefix points into the temporary
    directory. *)
Theorem outputs_exist (args : Args) (w : world) (p : string) :
  video args ∈ fs w ->
  fst (main args w) = Ok tt ->
  In p (required_outputs args) ->
  is_under tempdir p = false ->
  p ∈ fs (snd (main args w)).
Proof.
  intros Hv Hok Hp Hout. rewrite (main_video_found args w Hv) in *.
  destruct (main_found args w) as [r w'] eqn:Em. cbn [fst snd] in *. subst r.
  unfold main_found in Em.
  apply bind_ok in Em as [_ [w1 [_ Em]]].
  apply bind_ok in Em as [_ [w2 [_ Em]]].
  destruct (whisper_load_model (model args)); [discriminate|].
  apply bind_ok in Em as [[] [w3 [Eblock Em]]].
  assert (Hfs : fs w' = fs w3).
  { destruct (when_print_outcome (verbose args) MsgDone w3) as [w4 [E4 [Hfs _]]].
    rewrite E4 in Em. injection Em as <-. exact Hfs. }
  rewrite Hfs. unfold with_temporary_directory, try_finally in Eblock.
  destruct (run_in args tempdir w2) as [[[]|e] w5] eqn:Erun; [|discriminate].
  injection Eblock as <-. cbn [fs]. apply elem_of_filter. split; [exact Hout|].
  eapply run_in_outputs; eassumption.
Qed.

End OutputsExist.

(** The JSON document of the sample run exists after the run. *)
Lemma outputs_exist_witness :
  (video sample_args ∈ fs sample_world) /\
  fst (main sample_args sample_world) = Ok tt /\
  In "out.json" (required_outputs sample_args) /\
  is_under tempdir "out.json" = false /\
  "out.json" ∈ fs (snd (main sample_args sample_world)).
Proof.
  assert (Hv : video sample_args ∈ fs sample_world)
    by (apply (bool_decide_unpack _); vm_compute; exact I).
  assert (Hok : fst (main sample_args sample_world) = Ok tt)
    by (vm_compute; reflexivity).
  assert (Hin : In "out.json" (required_outputs sample_args))
    by (vm_compute; auto).
  split; [exact Hv|]. split; [exact Hok|]. split; [exact Hin|]. split; [reflexivity|].
  exact (outputs_exist sample_args sample_world "out.json" Hv Hok Hin eq_refl).
Defined.

(** ** The outputs in their order *)

Section Outputs.
Context `{Externals}.

(** X15.  For records with valid times, [write_outputs] returns after
    exactly these interactions, in this order: the original WebVTT track,
    the English one, the original SubRip track, the English one (the
    English tracks only without [--no-translate]), the JSON document of the
    same records, and with [--keep-audio] the copy of the audio; each is
    followed by its report under [--verbose].  Afterwards the files are
    those that existed, the required outputs and the copy if it was
    made. *)
Theorem outputs_in_order (args : Args) (audio_file : string)
    (processed : list segment) (w : world) :
  Forall valid_times processed ->
  exists w',
    write_outputs args audio_file processed w = (Ok tt, w') /\
    log w' = (log w ++ outputs_log args audio_file processed)%list /\
    forall p, p ∈ fs w' <->
      p ∈ fs w \/ In p (required_outputs args) \/
      (keep_audio args = true /\ cp_writes audio_file (kept_audio args) = true /\
       p = kept_audio args).
Proof.
  intros Hall.
  pose proof (valid_times_all VTT processed Hall) as Hv.
  pose proof (valid_times_all SRT processed Hall) as Hs.
  unfold write_outputs, outputs_log, required_outputs, kept_audio, printed.
  destruct (verbose args), (no_translate args), (keep_audio args);
    cbn [when negb];
    unfold bind, print, emit, json_dump, create_file, ret, when.
  all: repeat first
         [ rewrite (write_vtt_original_spec processed _ _ Hv)
         | rewrite (write_vtt_translation_spec processed _ _ Hv)
         | rewrite (write_srt_original_spec processed _ _ Hs)
         | rewrite (write_srt_translation_spec processed _ _ Hs) ];
       unfold wrote; cbn [fs log].
  all: try destruct (cp_writes _ _) eqn:Ecp; unfold ret; cbn [fs log].
  all: eexists; (split; [reflexivity|]); cbn [log fs]; rewrite <- ?app_assoc;
       (split; [reflexivity|]).
  all: intros p; rewrite ?elem_of_union, ?elem_of_singleton; cbn [In app];
       intuition (subst; auto; try discriminate; try congruence).
Qed.

End Outputs.

Lemma outputs_in_order_witness :
  Forall valid_times sample_segments /\
  exists w',
    write_outputs sample_args "/tmp/td/extracted_audio.wav" sample_segments empty_world
    = (Ok tt, w') /\
    log w'
    = [ EvWrite "out.original.vtt" (track_text VTT Original sample_segments);
        EvWrite "out.en.vtt" (track_text VTT Translation sample_segments);
        EvWrite "out.original.srt" (track_text SRT Original sample_segments);
        EvWrite "out.en.srt" (track_text SRT Translation sample_segments);
        EvJsonDump "out.json" sample_segments ].
Proof.
  split; [exact sample_segments_valid|].
  destruct (outputs_in_order sample_args "/tmp/td/extracted_audio.wav" sample_segments
              empty_world sample_segments_valid) as [w' [E [Hl _]]].
  exists w'. split; [exact E | exact Hl].
Defined.

(** ** Runs without speech, and runs that end before the loop *)

Section WholeRun.
Context `{Externals}.

(** The outputs of a run without records. *)
Lemma write_outputs_nil (args : Args) (audio_file : string) (w : world) :
  exists w',
    write_outputs args audio_file [] w = (Ok tt, w') /\
    log w' = (log w ++ outputs_log args audio_file [])%list.
Proof.
  unfold write_outputs, outputs_log, kept_audio, printed.
  destruct (verbose args), (no_translate args), (keep_audio args);
    cbn [when negb];
    unfold bind, print, emit, json_dump, create_file, ret, when.
  all: rewrite ?(write_vtt_original_spec [] _ _ (List.Forall_nil _)),
         ?(write_vtt_translation_spec [] _ _ (List.Forall_nil _)),
         ?(write_srt_original_spec [] _ _ (List.Forall_nil _)),
         ?(write_srt_translation_spec [] _ _ (List.Forall_nil _));
       unfold wrote; cbn [fs log].
  all: try destruct (cp_writes _ _); unfold ret; cbn [fs log].
  all: eexists; (split; [reflexivity|]); cbn [log]; rewrite <- ?app_assoc; reflexivity.
Qed.

Lemma run_ffmpeg_world (input output : string) (range : option (float * float))
    (w : world) :
  exists w1,
    run_ffmpeg input output range w
    = ((if exit_ok (ffmpeg input output range) then Ok tt else Raise CalledProcessError), w1)
    /\ log w1 = (log w ++ [EvFfmpeg input output range])%list
    /\ forall p, p ∈ fs w1 <->
         p ∈ fs w \/ (output_written (ffmpeg input output range) = true /\ p = output).
Proof.
  unfold run_ffmpeg, bind, emit, when, create_file, ret, raise.
  destruct (output_written _), (exit_ok _); eexists; (split; [reflexivity|]);
    (split; [reflexivity|]); intros p; cbn [fs];
    rewrite ?elem_of_union, ?elem_of_singleton; intuition (auto; discriminate).
Qed.

Lemma transcribe_full_audio_outcome (model_name audio_path : string)
    (verbose_flag : bool) (w : world) :
  exists w1,
    transcribe_full_audio model_name audio_path verbose_flag w
    = (match model_transcribe model_name audio_path None None with
       | Ok res => Ok (default [] (res_segments res), res_language res)
       | Raise e => Raise e
       end, w1) /\
    fs w1 = fs w /\
    log w1 = (log w ++ printed verbose_flag MsgTranscribingFull
              ++ [EvTranscribe audio_path None None])%list.
Proof.
  unfold transcribe_full_audio. unfold bind at 1.
  destruct (when_print_outcome verbose_flag MsgTranscribingFull w)
    as [w0 [-> [Hfs Hlog]]].
  unfold call_transcribe, bind, emit, lift_result.
  destruct (model_transcribe _ _ _ _) as [res|e];
    eexists; (split; [reflexivity|]); cbn [fs log]; rewrite Hlog, <- app_assoc; auto.
Qed.

(** A model that does not load. *)
Lemma main_load_failure (args : Args) (w : world) (e : exn) :
  video args ∈ fs w -> whisper_load_model (model args) = Some e ->
  main args w
  = (Raise e,
     {| fs := fs w;
        log := log w ++ printed (verbose args) (MsgLoadingModel (model args))
               ++ [EvLoadModel (model args)] |}).
Proof.
  intros Hv Hload. rewrite (main_video_found args w Hv). unfold main_found.
  unfold bind at 1.
  destruct (when_print_outcome (verbose args) (MsgLoadingModel (model args)) w)
    as [w0 [-> [Hfs Hlog]]].
  unfold bind, emit. rewrite Hload. cbn. rewrite Hfs, Hlog, <- app_assoc. reflexivity.
Qed.

(** The world in which the block of the temporary directory starts. *)
Lemma main_enters_block (args : Args) (w : world) :
  video args ∈ fs w -> whisper_load_model (model args) = None ->
  exists w1,
    fs w1 = fs w /\
    log w1 = (log w ++ printed (verbose args) (MsgLoadingModel (model args))
              ++ [EvLoadModel (model args)])%list /\
    main args w
    = (with_temporary_directory (run_in args) ;;
       when (verbose args) (print MsgDone)) w1.
Proof.
  intros Hv Hload. rewrite (main_video_found args w Hv). unfold main_found.
  unfold bind at 1.
  destruct (when_print_outcome (verbose args) (MsgLoadingModel (model args)) w)
    as [w0 [-> [Hfs Hlog]]].
  unfold bind at 1. unfold emit at 1. rewrite Hload.
  eexists. split; [|split; [|reflexivity]]; cbn [fs log];
    [exact Hfs | rewrite Hlog, <- app_assoc; reflexivity].
Qed.

Lemma is_under_extracted_audio : is_under tempdir extracted_audio = true.
Proof. apply is_under_path_join. Qed.

(** The block of the temporary directory when its body raises. *)
Lemma block_raises (args : Args) (w1 w2 : world) (e : exn) :
  run_in args tempdir w1 = (Raise e, w2) ->
  (with_temporary_directory (run_in args) ;; when (verbose args) (print MsgDone)) w1
  = (Raise e,
     {| fs := filter (fun p => is_under tempdir p = false) (fs w2); log := log w2 |}).
Proof.
  intros Hrun. unfold bind, with_temporary_directory, try_finally.
  rewrite Hrun. reflexivity.
Qed.

Lemma block_returns (args : Args) (w1 w2 : world) :
  run_in args tempdir w1 = (Ok tt, w2) ->
  exists w3,
    (with_temporary_directory (run_in args) ;; when (verbose args) (print MsgDone)) w1
    = (Ok tt, w3) /\
    log w3 = (log w2 ++ printed (verbose args) MsgDone)%list /\
    forall p, p ∈ fs w3 <-> p ∈ fs w2 /\ is_under tempdir p = false.
Proof.
  intros Hrun. unfold bind, with_temporary_directory, try_finally.
  rewrite Hrun.
  match goal with |- context [when _ _ ?w] =>
    destruct (when_print_outcome (verbose args) MsgDone w) as [w3 [-> [Hfs Hlog]]] end.
  exists w3. split; [reflexivity|]. split; [exact Hlog|].
  intros p. rewrite Hfs. cbn [fs]. rewrite elem_of_filter. tauto.
Qed.

Lemma run_in_start (args : Args) (w : world) :
  exists w2,
    log w2 = (log w ++ printed (verbose args) (MsgExtractingAudio extracted_audio)
              ++ [EvFfmpeg (video args) extracted_audio None])%list /\
    (forall p, p ∈ fs w2 <->
       p ∈ fs w \/
       (output_written (ffmpeg (video args) extracted_audio None) = true /\
        p = extracted_audio)) /\
    run_in args tempdir w
    = (if exit_ok (ffmpeg (video args) extracted_audio None)
       then (full <- transcribe_full_audio (model args) extracted_audio (verbose args) ;;
             when (verbose args)
               (print (MsgInitialSegments (length (fst full)) (snd full))) ;;
             processed <- process_segments args tempdir extracted_audio (snd full)
                            (fst full) ;;
             write_outputs args extracted_audio processed) w2
       else (Raise CalledProcessError, w2)).
Proof.
  unfold run_in. fold extracted_audio. unfold bind at 1.
  destruct (when_print_outcome (verbose args) (MsgExtractingAudio extracted_audio) w)
    as [w0 [-> [Hfs Hlog]]].
  unfold bind at 1. unfold extract_audio.
  destruct (run_ffmpeg_world (video args) extracted_audio None w0)
    as [w2 [-> [Hlog2 Hfs2]]].
  exists w2. split; [rewrite Hlog2, Hlog, <- app_assoc; reflexivity|].
  split; [intros p; rewrite Hfs2, Hfs; tauto|].
  destruct (exit_ok _); reflexivity.
Qed.

Lemma outside_after (w w2 w3 : world) (written : bool) :
  (forall p, p ∈ fs w2 <-> p ∈ fs w \/ (written = true /\ p = extracted_audio)) ->
  (forall p, p ∈ fs w3 <-> p ∈ fs w2 /\ is_under tempdir p = false) ->
  outside_files w w3.
Proof.
  intros H2 H3 p. rewrite H3, H2. split; [|tauto].
  intros [[Hp|[_ ->]] Hu]; [tauto|].
  rewrite is_under_extracted_audio in Hu. discriminate.
Qed.

(** X16.  When whisper finds no segment in the audio (an empty list, or no
    list at all), the run still completes and writes every output: the
    WebVTT tracks hold their header only, the SubRip tracks are empty and
    the JSON document is the empty list.  No slice is extracted and the
    detector is not called. *)
Theorem empty_transcription (args : Args) (res : whisper_result) (w : world) :
  video args ∈ fs w ->
  whisper_load_model (model args) = None ->
  exit_ok (ffmpeg (video args) extracted_audio None) = true ->
  model_transcribe (model args) extracted_audio None None = Ok res ->
  default [] (res_segments res) = [] ->
  fst (main args w) = Ok tt /\
  log (snd (main args w))
  = (log w ++ setup_log args
     ++ printed (verbose args) MsgTranscribingFull
     ++ [EvTranscribe extracted_audio None None]
     ++ printed (verbose args) (MsgInitialSegments 0 (res_language res))
     ++ outputs_log args extracted_audio []
     ++ printed (verbose args) MsgDone)%list /\
  (forall trk, track_text VTT trk [] = "WEBVTT" ++ NL ++ NL) /\
  (forall trk, track_text SRT trk [] = "").
Proof.
  intros Hv Hload Hok Hres Hempty.
  destruct (main_enters_block args w Hv Hload) as [w1 [Hfs1 [Hlog1 ->]]].
  destruct (run_in_start args w1) as [w2 [Hlog2 [_ Hrun]]].
  rewrite Hok in Hrun. unfold bind at 1 in Hrun.
  destruct (transcribe_full_audio_outcome (model args) extracted_audio (verbose args) w2)
    as [w3 [E3 [_ Hlog3]]].
  rewrite E3, Hres, Hempty in Hrun. cbn [fst snd length] in Hrun.
  unfold bind at 1 in Hrun.
  destruct (when_print_outcome (verbose args)
              (MsgInitialSegments 0 (res_language res)) w3) as [w4 [E4 [_ Hlog4]]].
  change (Z.of_nat 0) with 0 in *. rewrite E4 in Hrun.
  unfold bind at 1 in Hrun. unfold process_segments in Hrun.
  cbn [enumerate for_fold] in Hrun. unfold ret at 1 in Hrun.
  destruct (write_outputs_nil args extracted_audio w4) as [w5 [E5 Hlog5]].
  rewrite E5 in Hrun.
  destruct (block_returns args w1 w5 Hrun) as [w6 [-> [Hlog6 _]]].
  cbn [fst snd]. split; [reflexivity|]. split; [|split; intros []; reflexivity].
  rewrite Hlog6, Hlog5, Hlog4, Hlog3, Hlog2, Hlog1. unfold setup_log.
  rewrite <- !app_assoc. reflexivity.
Qed.

(** X17.  What happens before the loop is not recovered from: a model that
    does not load, a failed extraction of the whole audio and a failed
    transcription of it end the run with the exception (exit status 1),
    before any output is written.  The log ends with the failing call, and
    the files are those that existed outside of the temporary
    directory. *)
Theorem failures_before_the_loop (args : Args) (w : world) :
  video args ∈ fs w ->
  (forall e, whisper_load_model (model args) = Some e ->
     main args w
     = (Raise e,
        {| fs := fs w;
           log := log w ++ printed (verbose args) (MsgLoadingModel (model args))
                  ++ [EvLoadModel (model args)] |})) /\
  (whisper_load_model (model args) = None ->
   exit_ok (ffmpeg (video args) extracted_audio None) = false ->
   fst (main args w) = Raise CalledProcessError /\
   exit_status (fst (main args w)) = 1 /\
   log (snd (main args w)) = (log w ++ setup_log args)%list /\
   outside_files w (snd (main args w))) /\
  (forall e,
     whisper_load_model (model args) = None ->
     exit_ok (ffmpeg (video args) extracted_audio None) = true ->
     model_transcribe (model args) extracted_audio None None = Raise e ->
     fst (main args w) = Raise e /\
     exit_status (fst (main args w)) = 1 /\
     log (snd (main args w))
     = (log w ++ setup_log args ++ printed (verbose args) MsgTranscribingFull
        ++ [EvTranscribe extracted_audio None None])%list /\
     outside_files w (snd (main args w))).
Proof.
  intros Hv. split; [|split].
  - intros e Hload. apply main_load_failure; assumption.
  - intros Hload Hfail.
    destruct (main_enters_block args w Hv Hload) as [w1 [Hfs1 [Hlog1 ->]]].
    destruct (run_in_start args w1) as [w2 [Hlog2 [Hfs2 Hrun]]].
    rewrite Hfail in Hrun. rewrite (block_raises args w1 w2 _ Hrun). cbn [fst snd].
    split; [reflexivity|]. split; [reflexivity|]. split.
    + cbn [log]. rewrite Hlog2, Hlog1. unfold setup_log.
      rewrite <- !app_assoc. reflexivity.
    + eapply outside_after with (w2 := w2).
      * intros p. rewrite Hfs2, Hfs1. reflexivity.
      * intros p. cbn [fs]. rewrite elem_of_filter. tauto.
  - intros e Hload Hok Hraise.
    destruct (main_enters_block args w Hv Hload) as [w1 [Hfs1 [Hlog1 ->]]].
    destruct (run_in_start args w1) as [w2 [Hlog2 [Hfs2 Hrun]]].
    rewrite Hok in Hrun. unfold bind at 1 in Hrun.
    destruct (transcribe_full_audio_outcome (model args) extracted_audio
                (verbose args) w2) as [w3 [E3 [Hfs3 Hlog3]]].
    rewrite E3, Hraise in Hrun.
    rewrite (block_raises args w1 w3 _ Hrun). cbn [fst snd].
    split; [reflexivity|]. split; [reflexivity|]. split.
    + cbn [log]. rewrite Hlog3, Hlog2, Hlog1. unfold setup_log.
      rewrite <- !app_assoc. reflexivity.
    + eapply outside_after with (w2 := w3).
      * intros p. rewrite Hfs3, Hfs2, Hfs1. reflexivity.
      * intros p. cbn [fs]. rewrite elem_of_filter. tauto.
Qed.

End WholeRun.

(** A run on a video without speech. *)
Lemma empty_transcription_witness :
  (video sample_args ∈ fs sample_world) /\
  @whisper_load_model silent_externals (model sample_args) = None /\
  exit_ok (@ffmpeg silent_externals (video sample_args)
             (@extracted_audio silent_externals) None) = true /\
  default [] (res_segments {| res_segments := Some []; res_text := Some "";
                              res_language := None |}) = [] /\
  fst (@main silent_externals sample_args sample_world) = Ok tt /\
  log (snd (@main silent_externals sample_args sample_world))
  = [ EvLoadModel "small";
      EvFfmpeg "talk.mp4" "/tmp/td/extracted_audio.wav" None;
      EvTranscribe "/tmp/td/extracted_audio.wav" None None;
      EvWrite "out.original.vtt" ("WEBVTT" ++ NL ++ NL);
      EvWrite "out.en.vtt" ("WEBVTT" ++ NL ++ NL);
      EvWrite "out.original.srt" "";
      EvWrite "out.en.srt" "";
      EvJsonDump "out.json" [] ].
Proof.
  assert (Hv : video sample_args ∈ fs sample_world)
    by (apply (bool_decide_unpack _); vm_compute; exact I).
  destruct (@empty_transcription silent_externals sample_args
              {| res_segments := Some []; res_text := Some ""; res_language := None |}
              sample_world Hv eq_refl eq_refl eq_refl eq_refl) as [Hok [Hlog _]].
  split; [exact Hv|]. split; [reflexivity|]. split; [reflexivity|].
  split; [reflexivity|]. split; [exact Hok | exact Hlog].
Defined.

(** A model that does not load, and an ffmpeg that fails on the video. *)
Lemma failures_before_the_loop_witness :
  (video sample_args ∈ fs sample_world) /\
  @whisper_load_model no_model_externals (model sample_args) = Some RuntimeError /\
  @main no_model_externals sample_args sample_world
  = (Raise RuntimeError, {| fs := fs sample_world; log := [EvLoadModel "small"] |}) /\
  exit_ok (@ffmpeg no_ffmpeg_externals (video sample_args)
             (@extracted_audio no_ffmpeg_externals) None) = false /\
  fst (@main no_ffmpeg_externals sample_args sample_world) = Raise CalledProcessError /\
  log (snd (@main no_ffmpeg_externals sample_args sample_world))
  = [ EvLoadModel "small"; EvFfmpeg "talk.mp4" "/tmp/td/extracted_audio.wav" None ].
Proof.
  assert (Hv : video sample_args ∈ fs sample_world)
    by (apply (bool_decide_unpack _); vm_compute; exact I).
  destruct (@failures_before_the_loop no_model_externals sample_args sample_world Hv)
    as [Hload _].
  destruct (@failures_before_the_loop no_ffmpeg_externals sample_args sample_world Hv)
    as [_ [Hfail _]].
  destruct (Hfail eq_refl eq_refl) as [Hr [_ [Hl _]]].
  split; [exact Hv|]. split; [reflexivity|].
  split; [exact (Hload RuntimeError eq_refl)|]. split; [reflexivity|].
  split; [exact Hr | exact Hl].
Defined.

(** ** The order of a run *)

Section ThenRules.
Context {A B : Type}.
Implicit Types (early late : event -> Prop).

Lemma runs_then_first early late (Q : A -> Prop) (E : exn -> Prop) (m : M A) :
  runs m early Q E -> runs_then m early late.
Proof.
  intros Hm w. destruct (Hm w) as [evs [Hl [Hphi _]]].
  exists evs, []. rewrite app_nil_r. auto.
Qed.

Lemma runs_then_second early late (Q : A -> Prop) (E : exn -> Prop) (m : M A) :
  runs m late Q E -> runs_then m early late.
Proof.
  intros Hm w. destruct (Hm w) as [evs [Hl [Hphi _]]].
  exists [], evs. auto.
Qed.

Lemma runs_then_bind_first early late (Q : A -> Prop) (E : exn -> Prop) (m : M A)
    (k : A -> M B) :
  runs m early Q E -> (forall a, runs_then (k a) early late) ->
  runs_then (bind m k) early late.
Proof.
  intros Hm Hk w. unfold bind. destruct (Hm w) as [evs [Hl [Hphi _]]].
  destruct (m w) as [[a|e] w1]; cbn [fst snd] in *.
  - destruct (Hk a w1) as [evs1 [evs2 [Hl' [H1 H2]]]].
    exists (evs ++ evs1)%list, evs2. rewrite Hl', Hl, <- !app_assoc.
    split; [reflexivity|]. split; [apply Forall_app; auto | exact H2].
  - exists evs, []. rewrite app_nil_r. auto.
Qed.

Lemma runs_then_bind_second early late (Q : B -> Prop) (E : exn -> Prop) (m : M A)
    (k : A -> M B) :
  runs_then m early late -> (forall a, runs (k a) late Q E) ->
  runs_then (bind m k) early late.
Proof.
  intros Hm Hk w. unfold bind. destruct (Hm w) as [evs1 [evs2 [Hl [H1 H2]]]].
  destruct (m w) as [[a|e] w1]; cbn [fst snd] in *.
  - destruct (Hk a w1) as [evs [Hl' [Hphi _]]].
    exists evs1, (evs2 ++ evs)%list. rewrite Hl', Hl, <- !app_assoc.
    split; [reflexivity|]. split; [exact H1 | apply Forall_app; auto].
  - exists evs1, evs2. auto.
Qed.

Lemma runs_then_finally early late (m : M A) (fin : M unit) :
  runs_then m early late -> (forall w, log (snd (fin w)) = log w) ->
  runs_then (try_finally m fin) early late.
Proof.
  intros Hm Hf w. unfold try_finally. destruct (Hm w) as [evs1 [evs2 [Hl [H1 H2]]]].
  destruct (m w) as [r w1]; cbn [fst snd] in *.
  specialize (Hf w1). destruct (fin w1) as [[u|e] w2]; cbn [fst snd] in *;
    exists evs1, evs2; rewrite Hf; auto.
Qed.

End ThenRules.

Section Order.
Context `{Externals}.

Lemma runs_write_outputs_kind (args : Args) (audio_file : string)
    (processed : list segment) :
  runs (write_outputs args audio_file processed)
    (fun ev => is_output ev \/ exists m, ev = EvPrint m) anything anything.
Proof.
  assert (Hsaved : forall b path,
            runs (when b (print (MsgSaved path)))
              (fun ev => is_output ev \/ exists m, ev = EvPrint m) anything anything).
  { intros. apply runs_when_print. intros _. right. eauto. }
  unfold write_outputs.
  eapply runs_bind; [apply runs_with_open_w; intros; now left|]. intros _ _.
  eapply runs_bind; [apply Hsaved|]. intros _ _.
  eapply runs_bind.
  { apply runs_when with (Q := anything); [intros _|exact I].
    eapply runs_bind; [apply runs_with_open_w; intros; now left|]. intros _ _.
    apply Hsaved. }
  intros _ _.
  eapply runs_bind; [apply runs_with_open_w; intros; now left|]. intros _ _.
  eapply runs_bind; [apply Hsaved|]. intros _ _.
  eapply runs_bind.
  { apply runs_when with (Q := anything); [intros _|exact I].
    eapply runs_bind; [apply runs_with_open_w; intros; now left|]. intros _ _.
    apply Hsaved. }
  intros _ _.
  eapply runs_bind; [apply runs_json_dump with (E := anything); now left|]. intros _ _.
  eapply runs_bind; [apply Hsaved|]. intros _ _.
  apply runs_when; [intros _|exact I].
  eapply runs_bind; [apply runs_emit with (Q := anything); [now left | exact I]|].
  intros _ _.
  eapply runs_bind.
  { apply runs_when with (Q := anything); [intros _; apply runs_create_file | exact I]. }
  intros _ _. apply Hsaved.
Qed.

Lemma runs_process_segments_kind (args : Args) (td audio_file : string)
    (overall_lang : option string) (base_segments : list raw_segment) :
  runs (process_segments args td audio_file overall_lang base_segments)
    (fun ev => ~ is_output ev) anything anything.
Proof.
  unfold process_segments. apply runs_for_fold; [exact I|].
  intros processed [idx seg] _ _.
  eapply runs_bind with (Q1 := anything).
  - eapply runs_weaken;
      [apply process_segment_steps | | intros; exact I | intros; exact I].
    intros ev Hev Hout. destruct ev; cbn in Hev, Hout; contradiction.
  - intros r _. apply runs_ret. exact I.
Qed.

Lemma run_in_order (args : Args) (td : string) :
  runs_then (run_in args td) (fun ev => ~ is_output ev)
    (fun ev => is_output ev \/ exists m, ev = EvPrint m).
Proof.
  unfold run_in.
  eapply runs_then_bind_first with (Q := anything) (E := anything);
    [apply runs_when_print; intros _ []|].
  intros _. eapply runs_then_bind_first with (Q := anything) (E := anything).
  { eapply runs_weaken;
      [apply (runs_run_ffmpeg (fun ev => ~ is_output ev)); intros []
      | auto | intros; exact I | intros; exact I]. }
  intros _. eapply runs_then_bind_first with (Q := anything) (E := anything).
  { unfold transcribe_full_audio.
    eapply runs_bind with (Q1 := anything); [apply runs_when_print; intros _ []|].
    intros _ _. eapply runs_bind with (Q1 := anything).
    - eapply runs_weaken;
        [apply (runs_call_transcribe (fun ev => ~ is_output ev)); intros []
        | auto | intros; exact I | intros; exact I].
    - intros res _. apply runs_ret. exact I. }
  intros full. eapply runs_then_bind_first with (Q := anything) (E := anything);
    [apply runs_when_print; intros _ []|].
  intros _. eapply runs_then_bind_first; [apply runs_process_segments_kind|].
  intros processed. eapply runs_then_second. apply runs_write_outputs_kind.
Qed.

(** X18.  In every run, the outputs (the tracks, the JSON document and the
    copy of the audio) are written after the last call of a tool: no model
    is loaded, nothing is extracted, transcribed, detected or removed once
    the first output has been written. *)
Theorem outputs_after_the_loop (args : Args) (w : world) :
  exists before after,
    log (snd (main args w)) = (log w ++ before ++ after)%list /\
    Forall (fun ev => ~ is_output ev) before /\
    Forall (fun ev => ~ is_tool_call ev) after.
Proof.
  assert (Hthen : runs_then (main args) (fun ev => ~ is_output ev)
                    (fun ev => is_output ev \/ exists m, ev = EvPrint m)).
  { unfold main.
    eapply runs_then_bind_first; [apply runs_os_path_exists with (E := anything)|].
    intros isfile. destruct (negb isfile).
    { eapply runs_then_first. apply runs_print with (Q := anything) (E := anything);
        [intros [] | exact I]. }
    eapply runs_then_bind_first with (Q := anything) (E := anything);
      [apply runs_when_print; intros _ []|].
    intros _. eapply runs_then_bind_first with (Q := anything) (E := anything);
      [apply runs_emit; [intros [] | exact I]|].
    intros _. destruct (whisper_load_model (model args)).
    { eapply runs_then_first. apply runs_raise with (Q := anything) (E := anything).
      exact I. }
    eapply runs_then_bind_second with (Q := anything) (E := anything).
    - unfold with_temporary_directory. apply runs_then_finally; [apply run_in_order|].
      reflexivity.
    - intros _. apply runs_when_print. intros _. right. eauto. }
  destruct (Hthen w) as [before [after [Hl [H1 H2]]]].
  exists before, after. split; [exact Hl|]. split; [exact H1|].
  eapply Forall_impl; [exact H2|].
  intros ev [Hout|[m ->]] Hcall; [|exact Hcall].
  destruct ev; cbn in Hout, Hcall; contradiction.
Qed.

End Order.
